(** * cpgvn-app: the image helpers of [services/geminiService.ts]

    A shallow embedding of the string, number and canvas helpers of
    [src/services/geminiService.ts], with the properties the specification
    states about them.

    Conventions of the embedding:
    - a JavaScript string is a [string]: a sequence of code units, here the
      code units below 256 (ASCII and Latin-1), which covers data URLs,
      base64 payloads, media types and e-mail addresses;
    - a JavaScript number is an IEEE 754 binary64 value, the primitive
      [float]; the 32-bit integer operators ([<<], [&]) work on [Z] with the
      wrap-around written out;
    - a rejected promise or a thrown exception is the [Err] case of the
      monad [M]; [try ... catch] is [try_catch];
    - a canvas is its width, its height and its pixels; drawing reaches
      the pixels within the width and the height only, and a canvas
      larger than the platform allocates has no bitmap: drawing on it
      does nothing and its data URL is ["data:,"];
    - a canvas holds colour multiplied by alpha, so a pixel read back
      is exact when it is opaque or fully transparent and the
      platform's rounding otherwise. *)

From Stdlib Require Import ZArith List String Ascii Bool Lia.
From Stdlib Require Import DecimalString.
From Stdlib Require Import Floats.
From Stdlib Require NArith DecimalFacts DecimalPos.
Import ListNotations.

Set Warnings "-inexact-float".

Open Scope string_scope.
Open Scope Z_scope.

(* ================================================================== *)
(** * JavaScript strings *)
(* ================================================================== *)

Module JS.

(** [s.charCodeAt(i)] of one code unit. *)
Definition charCode (c : ascii) : Z := Z.of_N (N_of_ascii c).

Definition fromCharCode (z : Z) : ascii := ascii_of_N (Z.to_N z).

(** [String.prototype.toLowerCase] on one code unit below 256: the Basic
    Latin capitals A-Z and the Latin-1 capitals U+00C0-U+00DE (the
    multiplication sign U+00D7 apart) move up by 32. *)
Definition lowerChar (c : ascii) : ascii :=
  let n := charCode c in
  if ((65 <=? n) && (n <=? 90)) ||
     ((192 <=? n) && (n <=? 222) && negb (n =? 215))
  then fromCharCode (n + 32)
  else c.

Fixpoint toLowerCase (s : string) : string :=
  match s with
  | EmptyString => EmptyString
  | String c s' => String (lowerChar c) (toLowerCase s')
  end.

(** WhiteSpace and LineTerminator code units below 256: TAB, LF, VT, FF,
    CR, SP and NBSP. *)
Definition isWhiteSpace (c : ascii) : bool :=
  let n := charCode c in
  ((9 <=? n) && (n <=? 13)) || (n =? 32) || (n =? 160).

Fixpoint trimStart (s : string) : string :=
  match s with
  | EmptyString => EmptyString
  | String c s' => if isWhiteSpace c then trimStart s' else s
  end.

Fixpoint trimEnd (s : string) : string :=
  match s with
  | EmptyString => EmptyString
  | String c s' =>
      match trimEnd s' with
      | EmptyString => if isWhiteSpace c then EmptyString
                       else String c EmptyString
      | t => String c t
      end
  end.

Definition trim (s : string) : string := trimEnd (trimStart s).

(** [!s] for a string: only the empty string is falsy. *)
Definition falsy (s : string) : bool :=
  match s with EmptyString => true | _ => false end.

Fixpoint contains (c : ascii) (s : string) : bool :=
  match s with
  | EmptyString => false
  | String d s' => Ascii.eqb d c || contains c s'
  end.

(** [s.split(sep)] for a one-character separator. The accumulator-free
    form: the head of the result is the text before the first
    separator. *)
Fixpoint split (sep : ascii) (s : string) : list string :=
  match s with
  | EmptyString => [EmptyString]
  | String c s' =>
      if Ascii.eqb c sep then EmptyString :: split sep s'
      else match split sep s' with
           | [] => [String c EmptyString]
           | p :: ps => String c p :: ps
           end
  end.

(** The regular-expression atom [.]: any code unit but a line
    terminator (LF and CR below 256). *)
Definition isLineTerminator (c : ascii) : bool :=
  let n := charCode c in (n =? 10) || (n =? 13).

(** A string without line terminators. *)
Fixpoint singleLine (s : string) : bool :=
  match s with
  | EmptyString => true
  | String c s' => negb (isLineTerminator c) && singleLine s'
  end.

(** [(.*?);] anchored at the start of [s]: the lazy group takes the
    shortest run of [.] that a [;] follows. *)
Fixpoint lazyUntilSemicolon (s : string) : option string :=
  match s with
  | EmptyString => None
  | String c s' =>
      if Ascii.eqb c ";" then Some EmptyString
      else if isLineTerminator c then None
      else option_map (String c) (lazyUntilSemicolon s')
  end.

(** [s.match(/:(.*?);/)?.[1]]: the first group of the leftmost match. *)
Fixpoint matchColonSemicolon (s : string) : option string :=
  match s with
  | EmptyString => None
  | String c s' =>
      if Ascii.eqb c ":" then
        match lazyUntilSemicolon s' with
        | Some g => Some g
        | None => matchColonSemicolon s'
        end
      else matchColonSemicolon s'
  end.

(** [ToInt32]: wrap to a signed 32-bit integer. *)
Definition toInt32 (z : Z) : Z := (z + 2 ^ 31) mod 2 ^ 32 - 2 ^ 31.

(** [a << n] on an int32 operand. *)
Definition shl (a n : Z) : Z := toInt32 (Z.shiftl a n).

(** [a & b] on int32 operands. *)
Definition band (a b : Z) : Z := toInt32 (Z.land (toInt32 a) (toInt32 b)).

(** [Number.prototype.toString] of a non-negative integer. *)
Definition natToString (z : Z) : string :=
  NilZero.string_of_uint (N.to_uint (Z.to_N z)).

Definition isDigit (c : ascii) : bool :=
  let n := charCode c in (48 <=? n) && (n <=? 57).

Fixpoint allDigits (s : string) : bool :=
  match s with
  | EmptyString => true
  | String c s' => isDigit c && allDigits s'
  end.

End JS.

(* ================================================================== *)
(** * Activation code *)
(* ================================================================== *)

(** One turn of the loop of [getActivationCode]:
    [hash = ((hash << 5) - hash) + char; hash = hash & hash]. *)
Definition hashStep (hash : Z) (c : ascii) : Z :=
  let hash1 := (JS.shl hash 5 - hash) + JS.charCode c in
  JS.band hash1 hash1.

Fixpoint hashLoop (hash : Z) (s : string) : Z :=
  match s with
  | EmptyString => hash
  | String c s' => hashLoop (hashStep hash c) s'
  end.

(** [getActivationCode] (geminiService.ts, lines 156-168). [%] is the
    remainder that takes the sign of the dividend, [Z.rem]. *)
Definition getActivationCode (email : string) : string :=
  if JS.falsy email then "000000"
  else
    let lowerEmail := JS.trim (JS.toLowerCase email) in
    let hash := hashLoop 0 lowerEmail in
    JS.natToString (Z.abs (Z.rem hash 900000 + 100000)).

(** A string of exactly six decimal digits. *)
Definition sixDigits (s : string) : bool :=
  (Nat.eqb (String.length s) 6) && JS.allDigits s.

(* ================================================================== *)
(** * Data URLs *)
(* ================================================================== *)

(** [SourceImage] of [types.ts]. *)
Record SourceImage := mkSourceImage { base64 : string; mimeType : string }.

(** [sourceImageToDataUrl] (lines 170-172 and 717-719). *)
Definition sourceImageToDataUrl (image : SourceImage) : string :=
  "data:" ++ mimeType image ++ ";base64," ++ base64 image.

(** [dataUrlToSourceImage] (lines 174-180 and 721-727). [None] is
    [null]; a missing array element is [undefined], which is falsy. *)
Definition dataUrlToSourceImage (dataUrl : string) : option SourceImage :=
  if JS.falsy dataUrl then None
  else
    let parts := JS.split "," dataUrl in
    let header := hd EmptyString parts in
    match nth_error parts 1, JS.matchColonSemicolon header with
    | Some base64Data, Some mime =>
        if JS.falsy base64Data || JS.falsy mime then None
        else Some {| base64 := base64Data; mimeType := mime |}
    | _, _ => None
    end.

(* ================================================================== *)
(** * Promises and exceptions *)
(* ================================================================== *)

(** What a rejected promise or a [throw] carries. *)
Inductive Error :=
| LoadError          (* [new Error("Failed to load image")] of [loadImage] *)
| InvalidStateError  (* [drawImage] of a canvas without pixels *)
| RemoteError.       (* a rejection of the remote model call *)

(** An awaited computation: it settles with a value or with an error. *)
Inductive M (A : Type) : Type :=
| Ok (a : A)
| Err (e : Error).
Arguments Ok {A} a.
Arguments Err {A} e.

Definition ret {A} (a : A) : M A := Ok a.

Definition bind {A B} (c : M A) (k : A -> M B) : M B :=
  match c with
  | Ok a => k a
  | Err e => Err e
  end.

(** [try { body } catch (e) { handler }]. *)
Definition try_catch {A} (body : M A) (handler : Error -> M A) : M A :=
  match body with
  | Ok a => Ok a
  | Err e => handler e
  end.

Notation "x <- c ;; k" := (bind c (fun x => k))
  (at level 61, c at next level, right associativity).

(* ================================================================== *)
(** * JavaScript numbers *)
(* ================================================================== *)

Module Num.

(** [Number.MAX_VALUE]. *)
Definition MAX_VALUE : float := 0x1.fffffffffffffp+1023%float.

(** [p] shifted left by [k] binary digits. *)
Fixpoint shlPos (k : nat) (p : positive) : positive :=
  match k with
  | O => p
  | S k' => xO (shlPos k' p)
  end.

(** The Number of a positive integer: exact when the integer has at most
    53 binary digits (every unsigned long has), to nearest otherwise. *)
Definition ofPos (s : bool) (p : positive) : float :=
  let d := Z.pos (digits2_pos p) in
  if d <=? 53 then
    SF2Prim (S754_finite s (shlPos (Z.to_nat (53 - d)) p) (d - 53))
  else
    SF2Prim (binary_normalize prec emax
               (if s then Z.neg p else Z.pos p) 0 false).

(** The Number of an integer, as when script reads an integer attribute
    such as [img.naturalWidth]. *)
Definition ofZ (z : Z) : float :=
  match z with
  | Z0 => 0%float
  | Zpos p => ofPos false p
  | Zneg p => ofPos true p
  end.

(** The integer part of a finite Number (truncation toward zero);
    [None] for NaN and the infinities. *)
Definition toInteger (x : float) : option Z :=
  match Prim2SF x with
  | S754_zero _ => Some 0
  | S754_finite s m e =>
      let a := if 0 <=? e then Z.pos m * 2 ^ e
               else Z.pos m / 2 ^ (- e) in
      Some (if s then - a else a)
  | S754_infinity _ | S754_nan => None
  end.

(** Web IDL's conversion to [unsigned long]: NaN and the infinities
    give 0, everything else is truncated and wrapped modulo 2^32. *)
Definition toUint32 (x : float) : Z :=
  match toInteger x with
  | Some z => z mod 2 ^ 32
  | None => 0
  end.

(** [Math.round]: the nearest integer, a tie going toward +infinity.
    NaN, the zeros, the infinities and the Numbers that are integers
    already come back unchanged; a negative Number that rounds to zero
    gives -0. *)
Definition round (x : float) : float :=
  match Prim2SF x with
  | S754_finite s m e =>
      if 0 <=? e then x
      else
        let d := 2 ^ (- e) in
        let n := if s then Z.neg m else Z.pos m in
        let k := (2 * n + d) / (2 * d) in          (* floor (x + 1/2) *)
        if k =? 0 then (if s then neg_zero else zero) else ofZ k
  | _ => x
  end.

(** [a > b]. *)
Definition gtb (a b : float) : bool := PrimFloat.ltb b a.

End Num.

(* ================================================================== *)
(** * Pixels, bitmaps and the 2D canvas *)
(* ================================================================== *)

(** An RGBA pixel, each channel in 0..255. *)
Record Pixel := mkPixel { red : Z; green : Z; blue : Z; alpha : Z }.

Definition transparentBlack : Pixel := mkPixel 0 0 0 0.
Definition white : Pixel := mkPixel 255 255 255 255.
Definition black : Pixel := mkPixel 0 0 0 255.

(** What a canvas keeps of a pixel: a fully transparent pixel has no
    colour. *)
Definition visible (p : Pixel) : Pixel :=
  if alpha p <=? 0 then transparentBlack else p.

(** A decoded image or the backing store of a canvas: [width] x [height]
    pixels, read at column [x] and row [y]. *)
Record Bitmap := mkBitmap { width : Z; height : Z; pixelAt : Z -> Z -> Pixel }.

Definition inside (w h x y : Z) : bool :=
  (0 <=? x) && (x <? w) && (0 <=? y) && (y <? h).

(** A layer: what one drawing call contributes at each canvas position. *)
Definition Layer := Z -> Z -> Pixel.

(** The values of [globalCompositeOperation] the code uses. *)
Inductive CompositeOp := SourceOver | SourceIn | DestinationIn.

(** The values of [ctx.filter] the code uses. *)
Inductive Filter := FilterNone | FilterBlur (px : float).

(** The parts of the platform the code calls and does not define: the
    image decoder behind [new Image()], the PNG encoder behind
    [toDataURL], the scaling filter of [drawImage], the arithmetic of
    partial transparency, the blur filter, the CSS colour parser and
    the largest canvas the platform allocates. *)
Class Browser := {
  decode : string -> option Bitmap;
  encodePNG : Bitmap -> string;
  (** pixel [(x, y)] of the image stretched to [dw] x [dh] *)
  resample : Bitmap -> Z -> Z -> Z -> Z -> Pixel;
  (** what the canvas holds after a translucent source pixel is drawn
      over a destination pixel *)
  blend : Pixel -> Pixel -> Pixel;
  (** what the canvas holds of a pixel with its coverage multiplied by
      [a]/255, [0 < a <= 255] *)
  attenuate : Pixel -> Z -> Pixel;
  blur : float -> Layer -> Layer;
  parseColor : string -> option Pixel;
  (** whether a canvas of this width and height gets a bitmap: above a
      size of the platform's own a canvas keeps its width and height
      but holds no pixels *)
  backed : Z -> Z -> bool
}.

Section Canvas.

Context {B : Browser}.

(** Porter-Duff composition of a source pixel onto a destination pixel,
    as the canvas holds the result. A canvas keeps its colours
    multiplied by their alpha in eight bits, so only a result that is
    opaque, fully transparent or the untouched destination is exact;
    whenever a partly transparent pixel goes in, the platform's
    arithmetic decides what is read back. *)
Definition compose (op : CompositeOp) (s d : Pixel) : Pixel :=
  match op with
  | SourceOver =>
      if alpha s <=? 0 then d
      else if 255 <=? alpha s then s
      else blend s d
  | DestinationIn =>
      if (alpha s <=? 0) || (alpha d <=? 0) then transparentBlack
      else if 255 <=? alpha s then d
      else attenuate d (alpha s)
  | SourceIn =>
      if (alpha d <=? 0) || (alpha s <=? 0) then transparentBlack
      else if (255 <=? alpha d) && (255 <=? alpha s) then s
      else attenuate s (alpha d)
  end.

(** What a transparent canvas holds of a pixel drawn on it. *)
Definition stored (p : Pixel) : Pixel := compose SourceOver p transparentBlack.

(** The state of a [CanvasRenderingContext2D] together with its canvas. *)
Record Context2D := mkContext {
  canvas : Bitmap;
  globalCompositeOperation : CompositeOp;
  filter : Filter;
  fillStyle : Pixel
}.

(** Assigning [canvas.width] or [canvas.height]: the value is converted
    to [unsigned long]; a value above 2147483647 gives the attribute's
    default (300 for the width, 150 for the height). *)
Definition canvasDim (default : Z) (x : float) : Z :=
  let n := Num.toUint32 x in
  if n <=? 2147483647 then n else default.

(** [document.createElement('canvas')], the two size assignments and
    [getContext('2d')], which is taken to deliver a context: a
    transparent canvas and a context in its initial state. A canvas
    too large for the platform has its width and height all the same;
    it stays transparent, see [paint] and [toDataURL]. *)
Definition newCanvas (w h : float) : Context2D :=
  {| canvas := {| width := canvasDim 300 w; height := canvasDim 150 h;
                  pixelAt := fun _ _ => transparentBlack |};
     globalCompositeOperation := SourceOver;
     filter := FilterNone;
     fillStyle := black |}.

(** [canvas.width] and [canvas.height] as script reads them. *)
Definition canvasWidthOf (ctx : Context2D) : float := Num.ofZ (width (canvas ctx)).
Definition canvasHeightOf (ctx : Context2D) : float := Num.ofZ (height (canvas ctx)).

Definition setOperation (op : CompositeOp) (ctx : Context2D) : Context2D :=
  {| canvas := canvas ctx; globalCompositeOperation := op;
     filter := filter ctx; fillStyle := fillStyle ctx |}.

Definition setFilter (f : Filter) (ctx : Context2D) : Context2D :=
  {| canvas := canvas ctx;
     globalCompositeOperation := globalCompositeOperation ctx;
     filter := f; fillStyle := fillStyle ctx |}.

(** [ctx.filter = `blur(${px}px)`]: a value that is no CSS length (NaN,
    an infinity) is ignored. *)
Definition setFilterBlur (px : float) (ctx : Context2D) : Context2D :=
  match Num.toInteger px with
  | Some _ => setFilter (FilterBlur px) ctx
  | None => ctx
  end.

(** The CSS colours the code names, then the platform's parser. *)
Definition cssColor (s : string) : option Pixel :=
  if String.eqb s "white" then Some white
  else if String.eqb s "black" then Some black
  else parseColor s.

(** [ctx.fillStyle = color]: a string that is no colour is ignored. *)
Definition setFillStyle (color : string) (ctx : Context2D) : Context2D :=
  match cssColor color with
  | Some p => {| canvas := canvas ctx;
                 globalCompositeOperation := globalCompositeOperation ctx;
                 filter := filter ctx; fillStyle := p |}
  | None => ctx
  end.

Definition applyFilter (f : Filter) (l : Layer) : Layer :=
  match f with
  | FilterNone => l
  | FilterBlur px => blur px l
  end.

(** A canvas that holds pixels: it has a width and a height, and the
    platform has given it a bitmap. *)
Definition hasBitmap (c : Bitmap) : bool :=
  (0 <? width c) && (0 <? height c) && backed (width c) (height c).

(** One drawing call: the filtered layer is composed with the current
    operator onto every pixel of the canvas, and onto nothing beyond its
    width and height; a canvas without a bitmap stays as it is. *)
Definition paint (l : Layer) (ctx : Context2D) : Context2D :=
  let op := globalCompositeOperation ctx in
  let src := applyFilter (filter ctx) l in
  let c := canvas ctx in
  {| canvas := {| width := width c; height := height c;
                  pixelAt := fun x y =>
                    if hasBitmap c && inside (width c) (height c) x y
                    then compose op (src x y) (pixelAt c x y)
                    else pixelAt c x y |};
     globalCompositeOperation := op;
     filter := filter ctx;
     fillStyle := fillStyle ctx |}.

(** An image at its natural size with its corner at [(dx, dy)]. *)
Definition placed (src : Bitmap) (dx dy : Z) : Layer :=
  fun x y =>
    if inside (width src) (height src) (x - dx) (y - dy)
    then pixelAt src (x - dx) (y - dy)
    else transparentBlack.

(** An image stretched to [dw] x [dh] with its corner at [(dx, dy)]. *)
Definition placedScaled (src : Bitmap) (dx dy dw dh : Z) : Layer :=
  fun x y =>
    if inside dw dh (x - dx) (y - dy)
    then resample src dw dh (x - dx) (y - dy)
    else transparentBlack.

Definition rectangle (p : Pixel) (rx ry rw rh : Z) : Layer :=
  fun x y => if inside rw rh (x - rx) (y - ry) then p else transparentBlack.

(** What [drawImage] is given: an [HTMLImageElement] or a canvas. *)
Inductive Source :=
| ImageSource (b : Bitmap)
| CanvasSource (b : Bitmap).

(** The usability check of [drawImage]: an image without pixels is
    skipped, a canvas without pixels throws. *)
Definition usable (src : Source) : M (option Bitmap) :=
  match src with
  | ImageSource b =>
      if (width b <=? 0) || (height b <=? 0) then Ok None else Ok (Some b)
  | CanvasSource b =>
      if (width b <=? 0) || (height b <=? 0) then Err InvalidStateError
      else Ok (Some b)
  end.

(** [ctx.drawImage(image, dx, dy)]. A call with a NaN or infinite
    argument returns without drawing. The arguments the code passes
    are integers whenever they are finite. *)
Definition drawImage (src : Source) (dx dy : float) (ctx : Context2D)
  : M Context2D :=
  match Num.toInteger dx, Num.toInteger dy with
  | Some x, Some y =>
      b <- usable src ;;
      match b with
      | Some b => ret (paint (placed b x y) ctx)
      | None => ret ctx
      end
  | _, _ => ret ctx
  end.

(** [ctx.drawImage(image, dx, dy, dw, dh)]. *)
Definition drawImageScaled (src : Source) (dx dy dw dh : float)
  (ctx : Context2D) : M Context2D :=
  match Num.toInteger dx, Num.toInteger dy,
        Num.toInteger dw, Num.toInteger dh with
  | Some x, Some y, Some w, Some h =>
      b <- usable src ;;
      match b with
      | Some b => ret (paint (placedScaled b x y w h) ctx)
      | None => ret ctx
      end
  | _, _, _, _ => ret ctx
  end.

(** [ctx.fillRect(x, y, w, h)]. *)
Definition fillRect (rx ry rw rh : float) (ctx : Context2D) : Context2D :=
  match Num.toInteger rx, Num.toInteger ry,
        Num.toInteger rw, Num.toInteger rh with
  | Some x, Some y, Some w, Some h =>
      paint (rectangle (fillStyle ctx) x y w h) ctx
  | _, _, _, _ => ctx
  end.

(** [canvas.toDataURL('image/png')]: a canvas without pixels, be it
    for its size of zero or for want of a bitmap, gives ["data:,"]. *)
Definition toDataURL (ctx : Context2D) : string :=
  if hasBitmap (canvas ctx)
  then "data:image/png;base64," ++ encodePNG (canvas ctx)
  else "data:,".

(** [loadImage] (lines 182-190 and 729-737): the promise resolves with
    the decoded image on [onload] and rejects on [onerror]. *)
Definition loadImage (src : string) : M Bitmap :=
  match decode src with
  | Some img => Ok img
  | None => Err LoadError
  end.

(** [img.width], [img.naturalWidth] and the like, as script reads
    them. *)
Definition widthOf (img : Bitmap) : float := Num.ofZ (width img).
Definition heightOf (img : Bitmap) : float := Num.ofZ (height img).

End Canvas.

(* ================================================================== *)
(** * The helpers of geminiService.ts *)
(* ================================================================== *)

Open Scope float_scope.

(** The table of [getClosestAspectRatio], in its declared order. *)
Definition supportedRatios : list (string * float) :=
  [ ("1:1", 1.0); ("4:3", 1.333); ("3:4", 0.75);
    ("16:9", 1.777); ("9:16", 0.5625) ].

(** The loop of [getClosestAspectRatio] over the entries still to visit,
    with the two variables it updates. *)
Fixpoint closestLoop (ratio : float) (rs : list (string * float))
  (minDiff : float) (closest : string) : string :=
  match rs with
  | [] => closest
  | (label, value) :: rs' =>
      let diff := abs (ratio - value) in
      if diff <? minDiff then closestLoop ratio rs' diff label
      else closestLoop ratio rs' minDiff closest
  end.

(** [BoundingBox] of [types.ts]. *)
Record BoundingBox := mkBox {
  box_x : float; box_y : float; box_width : float; box_height : float
}.

(** The [options] argument of [compositeImage]. *)
Record CompositeOptions := mkOptions { edgeBlend : float }.

(** The canvas size and the offsets that [padImageToAspectRatioWithColor]
    (lines 664-673 and 1317-1326) and [outpaintImage] (lines 1337-1346)
    compute, the same statements in the three places. *)
Record Geometry := mkGeometry {
  canvasWidth : float; canvasHeight : float; dx : float; dy : float
}.

Definition padGeometry (naturalWidth naturalHeight targetAspectRatio : float)
  : Geometry :=
  let originalAspectRatio := naturalWidth / naturalHeight in
  if Num.gtb originalAspectRatio targetAspectRatio then
    let canvasHeight := Num.round (naturalWidth / targetAspectRatio) in
    {| canvasWidth := naturalWidth;
       canvasHeight := canvasHeight;
       dx := 0;
       dy := Num.round ((canvasHeight - naturalHeight) / 2) |}
  else
    let canvasWidth := Num.round (naturalHeight * targetAspectRatio) in
    {| canvasWidth := canvasWidth;
       canvasHeight := naturalHeight;
       dx := Num.round ((canvasWidth - naturalWidth) / 2);
       dy := 0 |}.

Section Helpers.

Context {B : Browser}.

(** [getClosestAspectRatio] (lines 192-217 and 739-764). *)
Definition getClosestAspectRatio (image : SourceImage) : M string :=
  try_catch
    (img <- loadImage (sourceImageToDataUrl image) ;;
     let ratio := widthOf img / heightOf img in
     ret (closestLoop ratio supportedRatios Num.MAX_VALUE "1:1"))
    (fun _ => ret "1:1").

(** The canvas work of [strictComposite] once the three images are
    loaded. *)
Definition strictCompositeCanvas (orig gen mask : Bitmap) : M Context2D :=
  let ctx := newCanvas (widthOf orig) (heightOf orig) in
  ctx <- drawImage (ImageSource orig) 0 0 ctx ;;
  let tempCtx := newCanvas (canvasWidthOf ctx) (canvasHeightOf ctx) in
  tempCtx <- drawImageScaled (ImageSource gen) 0 0
               (canvasWidthOf ctx) (canvasHeightOf ctx) tempCtx ;;
  let tempCtx := setOperation DestinationIn tempCtx in
  tempCtx <- drawImageScaled (ImageSource mask) 0 0
               (canvasWidthOf ctx) (canvasHeightOf ctx) tempCtx ;;
  drawImage (CanvasSource (canvas tempCtx)) 0 0 ctx.

(** [strictComposite] (lines 220-247 and 769-804). [Promise.all] of
    the three loads rejects as soon as one of them rejects. *)
Definition strictComposite (originalB64 generatedB64 maskB64 : string)
  : M string :=
  try_catch
    (orig <- loadImage originalB64 ;;
     gen <- loadImage generatedB64 ;;
     mask <- loadImage maskB64 ;;
     ctx <- strictCompositeCanvas orig gen mask ;;
     ret (toDataURL ctx))
    (fun _ => ret generatedB64).

(** The canvas work of [compositeImage]. [box] is a parameter of the
    function and appears nowhere in its body. *)
Definition compositeCanvas (bg fg : Bitmap) (box : BoundingBox)
  (mask : Bitmap) (options : CompositeOptions) : M Context2D :=
  let ctx := newCanvas (widthOf bg) (heightOf bg) in
  ctx <- drawImage (ImageSource bg) 0 0 ctx ;;
  let fgCtx := newCanvas (canvasWidthOf ctx) (canvasHeightOf ctx) in
  let fgCtx := if Num.gtb (edgeBlend options) 0
               then setFilterBlur (edgeBlend options) fgCtx
               else fgCtx in
  fgCtx <- drawImage (ImageSource mask) 0 0 fgCtx ;;
  let fgCtx := setOperation SourceIn fgCtx in
  let fgCtx := setFilter FilterNone fgCtx in
  fgCtx <- drawImageScaled (ImageSource fg) 0 0
             (canvasWidthOf ctx) (canvasHeightOf ctx) fgCtx ;;
  drawImage (CanvasSource (canvas fgCtx)) 0 0 ctx.

(** [compositeImage] (lines 357-390 and 948-981). *)
Definition compositeImage (bgImage fgImage : SourceImage)
  (box : BoundingBox) (maskImage : SourceImage)
  (options : CompositeOptions) : M string :=
  bg <- loadImage (sourceImageToDataUrl bgImage) ;;
  fg <- loadImage (sourceImageToDataUrl fgImage) ;;
  mask <- loadImage (sourceImageToDataUrl maskImage) ;;
  ctx <- compositeCanvas bg fg box mask options ;;
  ret (toDataURL ctx).

(** The canvas of [padImageToAspectRatioWithColor]: allocate, fill,
    draw the source at the offsets. *)
Definition padCanvas (img : Bitmap) (targetAspectRatio : float)
  (color : string) : M Context2D :=
  let g := padGeometry (widthOf img) (heightOf img) targetAspectRatio in
  let ctx := newCanvas (canvasWidth g) (canvasHeight g) in
  let ctx := setFillStyle color ctx in
  let ctx := fillRect 0 0 (canvasWidthOf ctx) (canvasHeightOf ctx) ctx in
  drawImage (ImageSource img) (dx g) (dy g) ctx.

(** [padImageToAspectRatioWithColor] (lines 662-680 and 1315-1333).
    [color] is optional and defaults to ['white']; the result is what
    [dataUrlToSourceImage] makes of the data URL. *)
Definition padImageToAspectRatioWithColor (image : SourceImage)
  (targetAspectRatio : float) (color : option string)
  : M (option SourceImage) :=
  let color := match color with Some c => c | None => "white"%string end in
  img <- loadImage (sourceImageToDataUrl image) ;;
  ctx <- padCanvas img targetAspectRatio color ;;
  ret (dataUrlToSourceImage (toDataURL ctx)).

(** The size of the canvas that padding an image of the given size
    allocates. *)
Definition padSize (w h : Z) (targetAspectRatio : float) : Z * Z :=
  let g := padGeometry (Num.ofZ w) (Num.ofZ h) targetAspectRatio in
  (canvasDim 300 (canvasWidth g), canvasDim 150 (canvasHeight g)).

End Helpers.

(* ================================================================== *)
(** * Outpainting: the two variants in the file *)
(* ================================================================== *)

(** A part of a model request or response. *)
Inductive Part :=
| InlineData (partMimeType : string) (data : string)
| TextPart (text : string).

(** The remote services: the image generation behind [generateImageRest]
    (lines 65-153; it catches its own failures and returns a list) and
    [ai.models.generateContent], whose answer may lack the parts. *)
Class Remote := {
  generateImageRest : string -> string -> Z -> list SourceImage -> list string;
  generateContent : string -> list Part -> M (option (list Part))
}.

(** [images[0] || null]. *)
Definition firstOrNull (images : list string) : option string :=
  match images with
  | s :: _ => if JS.falsy s then None else Some s
  | [] => None
  end.

(** The variant of lines 682-689: one text-to-image request, the answer
    returned as it comes. *)
Module Rest.
Section Rest.
Context {B : Browser} {R : Remote}.

Definition outpaintImage (sourceImage : SourceImage)
  (targetAspectRatio : float) (prompt : string) : M (option string) :=
  try_catch
    (let images := generateImageRest ("Outpaint/Extend: " ++ prompt)
                     "16:9" 1 [] in
     ret (firstOrNull images))
    (fun e => Err e).

End Rest.
End Rest.

(** The variant of lines 1335-1376: padded image and mask are sent, and
    the answer is finished on a canvas. *)
Module Sdk.
Section Sdk.
Context {B : Browser} {R : Remote}.

(** [parts.find(p => p.inlineData)]. *)
Fixpoint findInlineData (parts : list Part) : option (string * string) :=
  match parts with
  | [] => None
  | InlineData m d :: _ => Some (m, d)
  | TextPart _ :: rest => findInlineData rest
  end.

(** The image canvas sent to the model: black, the source at the
    offsets. *)
Definition imageCanvas (img : Bitmap) (g : Geometry) : M Context2D :=
  let imgCtx := newCanvas (canvasWidth g) (canvasHeight g) in
  let imgCtx := setFillStyle "black" imgCtx in
  let imgCtx := fillRect 0 0 (canvasWidth g) (canvasHeight g) imgCtx in
  drawImage (ImageSource img) (dx g) (dy g) imgCtx.

(** The mask canvas sent to the model: white, a black rectangle where
    the source lies. *)
Definition maskCanvas (img : Bitmap) (g : Geometry) : Context2D :=
  let maskCtx := newCanvas (canvasWidth g) (canvasHeight g) in
  let maskCtx := setFillStyle "white" maskCtx in
  let maskCtx := fillRect 0 0 (canvasWidth g) (canvasHeight g) maskCtx in
  let maskCtx := setFillStyle "black" maskCtx in
  fillRect (dx g) (dy g) (widthOf img) (heightOf img) maskCtx.

(** The finishing step: the answer stretched over the whole canvas,
    then the source drawn again at the offsets. *)
Definition finalCanvas (img resultImg : Bitmap) (g : Geometry)
  : M Context2D :=
  let fCtx := newCanvas (canvasWidth g) (canvasHeight g) in
  fCtx <- drawImageScaled (ImageSource resultImg) 0 0
            (canvasWidth g) (canvasHeight g) fCtx ;;
  drawImage (ImageSource img) (dx g) (dy g) fCtx.

(** [toDataURL('image/png').split(',')[1]]; [undefined] reads as the
    empty payload. *)
Definition payloadOf (ctx : Context2D) : string :=
  match nth_error (JS.split "," (toDataURL ctx)) 1 with
  | Some p => p
  | None => EmptyString
  end.

Definition outpaintImage (sourceImage : SourceImage)
  (targetAspectRatio : float) (prompt : string) : M (option string) :=
  img <- loadImage (sourceImageToDataUrl sourceImage) ;;
  let g := padGeometry (widthOf img) (heightOf img) targetAspectRatio in
  imgCtx <- imageCanvas img g ;;
  let paddedBase64 := payloadOf imgCtx in
  let maskBase64 := payloadOf (maskCanvas img g) in
  try_catch
    (response <- generateContent "gemini-2.5-flash-image"
                   [ InlineData "image/png" paddedBase64;
                     InlineData "image/png" maskBase64;
                     TextPart ("Outpaint Task: " ++ prompt) ] ;;
     match match response with
           | Some parts => findInlineData parts
           | None => None
           end with
     | Some (m, d) =>
         if JS.falsy d then ret None
         else
           let m := if JS.falsy m then "image/png"%string else m in
           resultImg <- loadImage ("data:" ++ m ++ ";base64," ++ d) ;;
           fCtx <- finalCanvas img resultImg g ;;
           ret (Some (toDataURL fCtx))
     | None => ret None
     end)
    (fun e => Err e).

End Sdk.
End Sdk.

Close Scope float_scope.

(* ================================================================== *)
(** * Vocabulary of the properties *)
(* ================================================================== *)

(** A raster as a decoder delivers it: at least one pixel each way, and
    sizes a canvas can take. *)
Definition raster (b : Bitmap) : Prop :=
  0 < width b <= 2147483647 /\ 0 < height b <= 2147483647.

(** A bitmap without partly transparent pixels: each pixel is opaque
    or fully transparent. *)
Definition crisp (b : Bitmap) : Prop :=
  forall x y, inside (width b) (height b) x y = true ->
              alpha (pixelAt b x y) = 0 \/ alpha (pixelAt b x y) = 255.

(** Every pixel of the bitmap has alpha [a]. *)
Definition uniformAlpha (a : Z) (b : Bitmap) : Prop :=
  forall x y, inside (width b) (height b) x y = true ->
              alpha (pixelAt b x y) = a.

(** Two bitmaps of the same size that show the same pixel everywhere;
    fully transparent pixels show the same whatever colour they store. *)
Definition pixelIdentical (a b : Bitmap) : Prop :=
  width a = width b /\ height a = height b /\
  forall x y, inside (width b) (height b) x y = true ->
              visible (pixelAt a x y) = visible (pixelAt b x y).

(** The image stretched to [w] x [h] by the platform's scaling filter. *)
Definition stretched {B : Browser} (b : Bitmap) (w h : Z) : Bitmap :=
  {| width := w; height := h; pixelAt := resample b w h |}.

(** The one property of the scaling filter the compositing results rest
    on: stretching an image that is transparent everywhere, or opaque
    everywhere, gives one that is so too. *)
Definition scalingKeepsCoverage (B : Browser) : Prop :=
  forall b dw dh a, a = 0 \/ a = 255 -> raster b -> uniformAlpha a b ->
    forall x y, inside dw dh x y = true -> alpha (resample b dw dh x y) = a.

(** The distance the loop of [getClosestAspectRatio] compares. *)
Definition distance (ratio value : float) : float :=
  abs (ratio - value)%float.

(** [label] is the first entry of the table at the least distance from
    [ratio]: no entry before it is as close, no entry after it is
    closer. *)
Definition firstClosest (ratio : float) (label : string) : Prop :=
  exists pre value post,
    supportedRatios = (pre ++ (label, value) :: post)%list /\
    (forall e, In e pre ->
       (distance ratio (snd e) <=? distance ratio value)%float = false) /\
    (forall e, In e post ->
       (distance ratio (snd e) <? distance ratio value)%float = false).

(** The side of the target ratio an image of the given size falls on, as
    the padding code tests it. *)
Definition widerThan (w h targetAspectRatio : float) : bool :=
  Num.gtb (w / h)%float targetAspectRatio.

(* ================================================================== *)
(** * A reference platform *)
(* ================================================================== *)

(** A small platform to run the helpers on: a decoder that knows a few
    sample images by the name in their payload, nearest-neighbour
    scaling, the usual integer arithmetic for translucent pixels, no
    blur, and the canvas sizes of a current desktop browser. *)
Module Reference.

Definition solid (w h : Z) (p : Pixel) : Bitmap :=
  {| width := w; height := h; pixelAt := fun _ _ => p |}.

Definition redPixel : Pixel := mkPixel 255 0 0 255.
Definition bluePixel : Pixel := mkPixel 0 0 255 255.
Definition greyPixel : Pixel := mkPixel 128 128 128 255.

Definition samples : list (string * Bitmap) :=
  [ ("RED", solid 1 1 redPixel);
    ("BLUE", solid 1 1 bluePixel);
    ("CLEAR", solid 1 1 transparentBlack);
    ("BLACK", solid 1 1 black);
    ("WHITE", solid 1 1 white);
    ("WIDE", solid 200 100 greyPixel);
    ("PHOTO", solid 300 200 greyPixel);
    ("SQUARE", solid 64 64 greyPixel) ].

Fixpoint lookup (name : string) (l : list (string * Bitmap))
  : option Bitmap :=
  match l with
  | [] => None
  | (n, b) :: l' => if String.eqb n name then Some b else lookup name l'
  end.

Definition decodeSample (src : string) : option Bitmap :=
  match dataUrlToSourceImage src with
  | Some i => lookup (base64 i) samples
  | None => None
  end.

Definition nearest (b : Bitmap) (dw dh x y : Z) : Pixel :=
  pixelAt b (x * width b / dw) (y * height b / dh).

Definition blendOver (s d : Pixel) : Pixel :=
  let a := alpha s * 255 + alpha d * (255 - alpha s) in
  let mix cs cd :=
    (cs * alpha s * 255 + cd * alpha d * (255 - alpha s)) / a in
  mkPixel (mix (red s) (red d)) (mix (green s) (green d))
          (mix (blue s) (blue d)) (a / 255).

Definition scaleAlpha (p : Pixel) (a : Z) : Pixel :=
  mkPixel (red p) (green p) (blue p) (alpha p * a / 255).

(** Canvases up to 65535 pixels a side and 268435456 pixels in all get
    a bitmap. *)
Definition largestCanvas (w h : Z) : bool :=
  (w <=? 65535) && (h <=? 65535) && (w * h <=? 268435456).

Definition browser : Browser :=
  {| decode := decodeSample;
     encodePNG := fun _ => "iVBORw0KGgo=";
     resample := nearest;
     blend := blendOver;
     attenuate := scaleAlpha;
     blur := fun _ l => l;
     parseColor := fun _ => None;
     backed := largestCanvas |}.

(** A remote model that answers every request with the blue sample. *)
Definition remote : Remote :=
  {| generateImageRest := fun _ _ _ _ => ["data:image/png;base64,BLUE"];
     generateContent := fun _ _ => Ok (Some [InlineData "image/png" "BLUE"]) |}.

Definition image (name : string) : SourceImage :=
  {| base64 := name; mimeType := "image/png" |}.

Definition url (name : string) : string := sourceImageToDataUrl (image name).

End Reference.

(* ================================================================== *)
(** * Further helpers of geminiService.ts *)
(* ================================================================== *)

(** ** Cropping *)

(** ASCII lowercase, as the canvas applies it to a requested type. *)
Definition asciiLowerChar (c : ascii) : ascii :=
  let n := JS.charCode c in
  if (65 <=? n) && (n <=? 90) then JS.fromCharCode (n + 32) else c.

Fixpoint asciiLowerCase (s : string) : string :=
  match s with
  | EmptyString => EmptyString
  | String c s' => String (asciiLowerChar c) (asciiLowerCase s')
  end.

(** A Number that is a whole number, with its value. *)
Definition whole (x : float) : option Z :=
  match Num.toInteger x with
  | Some z => if PrimFloat.eqb (Num.ofZ z) x then Some z else None
  | None => None
  end.

(** A Number that is neither NaN nor an infinity. *)
Definition finite (x : float) : bool :=
  match Num.toInteger x with Some _ => true | None => false end.

(** Further parts of the platform: the encoders behind
    [toDataURL(type)] for a type other than PNG ([None] when the type
    is not supported), and [drawImage] with a source rectangle when it
    has to resample. *)
Class Codecs := {
  encodeAs : string -> Bitmap -> option string;
  resampleRegion : Bitmap -> float -> float -> float -> float ->
                   float -> float -> float -> float -> Layer
}.

Section Crop.
Context {B : Browser} {C : Codecs}.

(** [canvas.toDataURL(type)]: the type is lowercased; a type the
    platform cannot write gives PNG. *)
Definition toDataURLAs (type : string) (ctx : Context2D) : string :=
  if negb (hasBitmap (canvas ctx)) then "data:,"
  else
    let t := asciiLowerCase type in
    if String.eqb t "image/png"
    then "data:image/png;base64," ++ encodePNG (canvas ctx)
    else match encodeAs t (canvas ctx) with
         | Some payload => "data:" ++ t ++ ";base64," ++ payload
         | None => "data:image/png;base64," ++ encodePNG (canvas ctx)
         end.

(** The pixels of the source rectangle at [(sx, sy)], [w] x [h], with
    its corner at [(dx, dy)]: the part of the rectangle outside the
    image is clipped away. *)
Definition region (src : Bitmap) (sx sy dx dy w h : Z) : Layer :=
  fun x y =>
    if inside w h (x - dx) (y - dy) &&
       inside (width src) (height src) (sx + (x - dx)) (sy + (y - dy))
    then pixelAt src (sx + (x - dx)) (sy + (y - dy))
    else transparentBlack.

(** What [drawImage(image, sx, sy, sw, sh, dx, dy, dw, dh)] paints: as
    with [drawImage(image, dx, dy)], a rectangle of whole pixels drawn
    at its own size is copied; everything else is resampled by the
    platform. *)
Definition regionLayer (src : Bitmap) (sx sy sw sh dx dy dw dh : float)
  : Layer :=
  match whole sx, whole sy, whole sw, whole sh,
        whole dx, whole dy, whole dw, whole dh with
  | Some sx', Some sy', Some sw', Some sh',
    Some dx', Some dy', Some dw', Some dh' =>
      if (sw' =? dw') && (sh' =? dh') && (0 <? sw') && (0 <? sh')
      then region src sx' sy' dx' dy' sw' sh'
      else resampleRegion src sx sy sw sh dx dy dw dh
  | _, _, _, _, _, _, _, _ => resampleRegion src sx sy sw sh dx dy dw dh
  end.

(** [ctx.drawImage(image, sx, sy, sw, sh, dx, dy, dw, dh)]. A call with
    a NaN or infinite argument returns without drawing, and so does one
    whose source rectangle has no width or no height. *)
Definition drawImageRegion (src : Source)
  (sx sy sw sh dx dy dw dh : float) (ctx : Context2D) : M Context2D :=
  if finite sx && finite sy && finite sw && finite sh &&
     finite dx && finite dy && finite dw && finite dh
  then
    b <- usable src ;;
    match b with
    | Some b =>
        if PrimFloat.eqb sw 0 || PrimFloat.eqb sh 0 then ret ctx
        else ret (paint (regionLayer b sx sy sw sh dx dy dw dh) ctx)
    | None => ret ctx
    end
  else ret ctx.

(** The canvas of [cropImage]. *)
Definition cropCanvas (img : Bitmap) (box : BoundingBox) : M Context2D :=
  let ctx := newCanvas (Num.round (box_width box))
                       (Num.round (box_height box)) in
  drawImageRegion (ImageSource img)
    (box_x box) (box_y box) (box_width box) (box_height box)
    0 0 (box_width box) (box_height box) ctx.

(** [cropImage] (lines 347-355 and 938-946). The result is what
    [dataUrlToSourceImage] makes of the data URL. *)
Definition cropImage (image : SourceImage) (box : BoundingBox)
  : M (option SourceImage) :=
  img <- loadImage (sourceImageToDataUrl image) ;;
  ctx <- cropCanvas img box ;;
  ret (dataUrlToSourceImage (toDataURLAs (mimeType image) ctx)).

End Crop.

(** ** Rendering *)

(** The sizes the fallback generator of [generateImageRest] asks for
    (lines 123-129). *)
Definition fallbackSize (aspectRatio : string) : Z * Z :=
  if String.eqb aspectRatio "16:9" then (1280, 720)
  else if String.eqb aspectRatio "4:3" then (1024, 768)
  else if String.eqb aspectRatio "3:4" then (768, 1024)
  else if String.eqb aspectRatio "9:16" then (720, 1280)
  else (1024, 1024).

(** [list.includes(s)] on strings. *)
Definition includes (l : list string) (s : string) : bool :=
  existsb (String.eqb s) l.

(** The ratios [generateImages] passes on as they are. *)
Definition renderRatios : list string :=
  ["1:1"; "3:4"; "4:3"; "9:16"; "16:9"].

Inductive RenderType := Exterior | Interior | Floorplan.

Section Generate.
Context {B : Browser} {R : Remote}.

(** [generateImages] (lines 580-594). The count is an integer, as the
    callers pass it. *)
Definition generateImages (s : SourceImage) (p : string) (t : RenderType)
  (n : Z) (ar : string) (r : option SourceImage) (isAngle : bool)
  (cl : float) : M (list string) :=
  let fullPrompt := "Task: Architectural render. Prompt: " ++ p in
  let fullPrompt := match r with
                    | Some _ => fullPrompt ++ " Use reference style."
                    | None => fullPrompt
                    end in
  vr <- (if String.eqb ar "Auto" || negb (includes renderRatios ar)
         then getClosestAspectRatio s
         else ret ar) ;;
  try_catch (ret (generateImageRest fullPrompt vr n [])) (fun e => Err e).

End Generate.

(** ** The API key and the preferred model *)

(** [localStorage] of a page that may use it: keys with their values;
    the first entry for a key is the one that counts. *)
Definition Storage := list (string * string).

Fixpoint getItem (key : string) (s : Storage) : option string :=
  match s with
  | [] => None
  | (k, v) :: s' => if String.eqb k key then Some v else getItem key s'
  end.

(** The storage with [key] set to [value]. *)
Fixpoint withItem (key value : string) (s : Storage) : Storage :=
  match s with
  | [] => [(key, value)]
  | (k, v) :: s' =>
      if String.eqb k key then (k, value) :: s'
      else (k, v) :: withItem key value s'
  end.

Fixpoint removeItem (key : string) (s : Storage) : Storage :=
  match s with
  | [] => []
  | (k, v) :: s' =>
      if String.eqb k key then removeItem key s'
      else (k, v) :: removeItem key s'
  end.

(** A [GoogleGenAI] instance, with the key it was made for. *)
Record Client := mkClient { apiKey : string }.

(** What the service module of lines 1-52 keeps: the browser's
    [localStorage], the variable [ai] and the variable
    [preferredModelId]. *)
Record Service := mkService {
  localStorage : Storage;
  ai : option Client;
  preferredModelId : string
}.

(** The surroundings of the module: [process.env.API_KEY] ([None] when
    there is no [process] or no such variable), whether
    [new GoogleGenAI] accepts a key or throws, and the quota of the
    storage: whether the browser keeps a storage of the given
    content. *)
Class Environment := {
  envApiKey : option string;
  constructs : string -> bool;
  withinQuota : Storage -> bool
}.

(** How a call of the module ends, with the state it leaves: it
    returns, or [localStorage.setItem] has thrown its
    QuotaExceededError, which the module does not catch. *)
Inductive Completion :=
| Returned (st : Service)
| Thrown (st : Service).

(** The next call, made when the one before has returned. *)
Definition andThen (c : Completion) (next : Service -> Completion)
  : Completion :=
  match c with
  | Returned st => next st
  | Thrown st => Thrown st
  end.

(** [a || b] on strings that may be missing. *)
Definition orElse (a : option string) (b : string) : string :=
  match a with
  | Some s => if JS.falsy s then b else s
  | None => b
  end.

Section ApiKey.
Context {E : Environment}.

(** [localStorage.setItem(key, value)]: when the storage with the new
    value is over the quota nothing is stored and the call throws,
    [None]. *)
Definition setItem (key value : string) (s : Storage) : option Storage :=
  let s' := withItem key value s in
  if withinQuota s' then Some s' else None.

(** [getStoredApiKey] (lines 6-8). *)
Definition getStoredApiKey (st : Service) : string :=
  orElse (getItem "cpgvn_gemini_api_key" (localStorage st))
         (orElse envApiKey "").

(** [initAI] (lines 23-35). *)
Definition initAI (st : Service) : Service :=
  let key := getStoredApiKey st in
  {| localStorage := localStorage st;
     ai := if JS.falsy key then None
           else if constructs key then Some {| apiKey := key |} else None;
     preferredModelId := preferredModelId st |}.

(** [updateGeminiApiKey] (lines 40-47): [initAI()] is not reached when
    [setItem] throws. *)
Definition updateGeminiApiKey (newKey : string) (st : Service)
  : Completion :=
  if JS.falsy newKey then
    Returned
      (initAI {| localStorage :=
                   removeItem "cpgvn_gemini_api_key" (localStorage st);
                 ai := ai st;
                 preferredModelId := preferredModelId st |})
  else
    match setItem "cpgvn_gemini_api_key" newKey (localStorage st) with
    | Some storage =>
        Returned (initAI {| localStorage := storage; ai := ai st;
                            preferredModelId := preferredModelId st |})
    | None => Thrown st
    end.

(** [updatePreferredModel] (lines 49-52): the variable is assigned
    before [setItem] is called. *)
Definition updatePreferredModel (modelId : string) (st : Service)
  : Completion :=
  match setItem "cpgvn_preferred_model" modelId (localStorage st) with
  | Some storage =>
      Returned {| localStorage := storage; ai := ai st;
                  preferredModelId := modelId |}
  | None =>
      Thrown {| localStorage := localStorage st; ai := ai st;
                preferredModelId := modelId |}
  end.

(** The module as it is when the page has loaded (lines 19-21 and 38):
    [preferredModelId] read from the storage, then [initAI()]. *)
Definition loadService (storage : Storage) : Service :=
  initAI {| localStorage := storage;
            ai := None;
            preferredModelId :=
              orElse (getItem "cpgvn_preferred_model" storage)
                     "gemini-2.0-flash-exp" |}.

End ApiKey.

(** ** Prompts *)

(** The answer of a text request: [ai.models.generateContent] and the
    [text] of its response, [None] when the response has none. *)
Class TextModel := {
  generateText : string -> list Part -> M (option string)
}.

(** The double quote and the line feed of the prompt templates. *)
Definition doubleQuote : ascii := ascii_of_N 34.
Definition lineFeed : ascii := ascii_of_N 10.

Section Prompts.
Context {T : TextModel}.

(** The [parts] of the request of [optimizeEnhancePrompt] (lines
    867-870): the image when there is one, then the instruction. *)
Definition optimizeEnhanceParts (prompt : string)
  (image : option SourceImage) (language : string) : list Part :=
  (match image with
   | Some i => [InlineData (mimeType i) (base64 i)]
   | None => []
   end ++
   [TextPart
      ("Act as a professional prompt engineer. Optimize this architectural/design prompt for image editing/inpainting AI: "
       ++ String doubleQuote (prompt ++ String doubleQuote (". "
       ++ String lineFeed
            ("Return ONLY the optimized prompt string. Language: "
             ++ language ++ ". Keep it concise but descriptive."))))])%list.

(** [optimizeEnhancePrompt] (lines 864-881). *)
Definition optimizeEnhancePrompt (prompt : string)
  (image : option SourceImage) (language : string) : M string :=
  try_catch
    (let parts := optimizeEnhanceParts prompt image language in
     response <- generateText "gemini-3-flash-preview" parts ;;
     ret (match response with
          | Some text => if JS.falsy (JS.trim text) then prompt else JS.trim text
          | None => prompt
          end))
    (fun _ => ret prompt).

End Prompts.

(* ================================================================== *)
(** * The activation dialog of components/Login.tsx *)
(* ================================================================== *)

Module Login.

(** The test of [handleMasterKeyEntry] (lines 82-85) on what [prompt]
    returned, [None] when the dialog was cancelled. The handler asks
    for the code only when the address is not empty. *)
Definition masterKeyAccepted (email : string) (inputCode : option string)
  : bool :=
  match inputCode with
  | Some code =>
      negb (JS.falsy code) &&
      (String.eqb code (getActivationCode email) || String.eqb code "251127")
  | None => false
  end.

(** The code [handleAdminTool] (lines 98-107) shows: none unless the
    first dialog was answered with the administrator's word, and none
    when the second dialog was cancelled or left empty. *)
Definition adminCode (secret targetEmail : option string) : option string :=
  match secret with
  | Some word =>
      if String.eqb word "nghiavu" then
        match targetEmail with
        | Some e => if JS.falsy e then None else Some (getActivationCode e)
        | None => None
        end
      else None
  | None => None
  end.

End Login.

(* ================================================================== *)
(** * The data URL parser of App.tsx *)
(* ================================================================== *)

Module App.

(** [s] without the prefix [p]; [None] when [s] does not start with
    [p]. *)
Fixpoint stripPrefix (p s : string) : option string :=
  match p, s with
  | EmptyString, _ => Some s
  | String a p', String b s' =>
      if Ascii.eqb a b then stripPrefix p' s' else None
  | String _ _, EmptyString => None
  end.

(** The class [[a-z]]. *)
Definition isLowerLetter (c : ascii) : bool :=
  let n := JS.charCode c in (97 <=? n) && (n <=? 122).

(** The longest run of [[a-z]] at the start of [s], and what follows
    it. *)
Fixpoint lowerRun (s : string) : string * string :=
  match s with
  | EmptyString => (EmptyString, EmptyString)
  | String c s' =>
      if isLowerLetter c
      then let (run, rest) := lowerRun s' in (String c run, rest)
      else (EmptyString, s)
  end.

(** [dataUrlToSourceImage] of App.tsx (lines 414-417): the whole string
    has to match [^data:(image\/[a-z]+);base64,(.+)$]. *)
Definition dataUrlToSourceImage (dataUrl : string) : option SourceImage :=
  match stripPrefix "data:image/" dataUrl with
  | Some s1 =>
      let (letters, s2) := lowerRun s1 in
      if JS.falsy letters then None
      else
        match stripPrefix ";base64," s2 with
        | Some payload =>
            if JS.falsy payload then None
            else if JS.singleLine payload
                 then Some {| base64 := payload;
                              mimeType := "image/" ++ letters |}
                 else None
        | None => None
        end
  | None => None
  end.

End App.

(* ================================================================== *)
(** * The mask of the editor: InpaintingModal.tsx and ImageEditor.tsx *)
(* ================================================================== *)

Module InpaintingModal.
Section Snapshot.
Context {B : Browser}.

(** The black-and-white canvas of [snapshot] (InpaintingModal.tsx, lines
    53-64); [strokes] is the canvas the user paints on. *)
Definition bwCanvas (width height : float) (strokes : Bitmap)
  : M Context2D :=
  let bwCtx := newCanvas width height in
  let bwCtx := setFillStyle "black" bwCtx in
  let bwCtx := fillRect 0 0 width height bwCtx in
  bwCtx <- drawImage (CanvasSource strokes) 0 0 bwCtx ;;
  let bwCtx := setOperation SourceIn bwCtx in
  let bwCtx := setFillStyle "white" bwCtx in
  ret (fillRect 0 0 width height bwCtx).

(** [snapshot] (lines 46-68): the pair of [composite] and [mask];
    [strokes] is [None] when the canvas is not mounted. *)
Definition snapshot (width height : float) (backgroundImage : string)
  (strokes : option Bitmap) : M (string * string) :=
  match strokes with
  | None => ret (EmptyString, EmptyString)
  | Some canvas =>
      bwCtx <- bwCanvas width height canvas ;;
      ret (backgroundImage, toDataURL bwCtx)
  end.

End Snapshot.
End InpaintingModal.

Module ImageEditor.
Section Editor.
Context {B : Browser}.

(** The last step of [handleGenerate] (ImageEditor.tsx, lines 284 and
    309-315): what becomes of the answer of the model, given the mask
    of the snapshot; [None] when there is no answer, [null] or the
    empty string, and so no result. *)
Definition finalResult (originalImage : string)
  (generatedResponse : option string) (mask : string)
  : M (option string) :=
  let isInpainting :=
    negb (JS.falsy mask) && (1000 <? Z.of_nat (String.length mask)) in
  match generatedResponse with
  | Some answer =>
      if JS.falsy answer then ret None
      else if isInpainting && negb (JS.falsy mask)
           then finalResult <- strictComposite originalImage answer mask ;;
                ret (Some finalResult)
           else ret (Some answer)
  | None => ret None
  end.

End Editor.
End ImageEditor.

(* ================================================================== *)
(** * Further vocabulary *)
(* ================================================================== *)

(** A string of the letters a to z. *)
Fixpoint lowerLetters (s : string) : bool :=
  match s with
  | EmptyString => true
  | String c s' => App.isLowerLetter c && lowerLetters s'
  end.

(** The one property of the arithmetic of translucent pixels the mask
    rests on: a pixel drawn over an opaque one leaves an opaque one. *)
Definition blendKeepsOpaque (B : Browser) : Prop :=
  forall s d, alpha d = 255 -> alpha (blend s d) = 255.

(** What [initAI] makes of a key: an instance, or [null] when the key
    is empty or the constructor throws. *)
Definition clientFor {E : Environment} (key : string) : option Client :=
  if JS.falsy key then None
  else if constructs key then Some {| apiKey := key |} else None.

(** A string of whitespace only. *)
Fixpoint allWhiteSpace (s : string) : bool :=
  match s with
  | EmptyString => true
  | String c s' => JS.isWhiteSpace c && allWhiteSpace s'
  end.

(** A Number that is no finite non-zero Number: NaN, a zero or an
    infinity. *)
Definition degenerate (r : float) : bool :=
  match Prim2SF r with
  | S754_finite _ _ _ => false
  | _ => true
  end.

(** The text a base64 encoder produces: not empty, no comma. *)
Definition base64Text (s : string) : Prop :=
  JS.falsy s = false /\ JS.contains "," s = false.

(** The answer of the model as [outpaintImage] reads it: the first part
    with inline data. *)
Definition inlineAnswer (response : option (list Part))
  : option (string * string) :=
  match response with
  | Some parts => Sdk.findInlineData parts
  | None => None
  end.

(** ** More of the reference platform *)

Module Samples.

(** A platform on which every source decodes to the same grey image of
    the given size. *)
Definition sized (w h : Z) : Browser :=
  {| decode := fun _ => Some (Reference.solid w h Reference.greyPixel);
     encodePNG := fun _ => "iVBORw0KGgo=";
     resample := Reference.nearest;
     blend := Reference.blendOver;
     attenuate := Reference.scaleAlpha;
     blur := fun _ l => l;
     parseColor := fun _ => None;
     backed := Reference.largestCanvas |}.

(** A payload of more than a thousand characters. *)
Fixpoint repeated (n : nat) (c : ascii) : string :=
  match n with
  | O => EmptyString
  | S n' => String c (repeated n' c)
  end.

Definition maskPayload : string := "iVBORw0KGgo" ++ repeated 1200 "A".

(** A platform that reads back what it has written: the encoder writes
    [maskPayload] for every canvas, and the decoder reads the data URL
    of that payload as a white image of 64 x 64 pixels; the other
    sources are the samples of the reference platform. *)
Definition readback : Browser :=
  {| decode := fun src =>
       if String.eqb src ("data:image/png;base64," ++ maskPayload)
       then Some (Reference.solid 64 64 white)
       else Reference.decodeSample src;
     encodePNG := fun _ => maskPayload;
     resample := Reference.nearest;
     blend := Reference.blendOver;
     attenuate := Reference.scaleAlpha;
     blur := fun _ l => l;
     parseColor := fun _ => None;
     backed := Reference.largestCanvas |}.

(** Encoders: JPEG besides PNG; no resampling of regions. *)
Definition codecs : Codecs :=
  {| encodeAs := fun t _ =>
       if String.eqb t "image/jpeg" then Some "/9j/4AAQSkZJRg==" else None;
     resampleRegion := fun _ _ _ _ _ _ _ _ _ _ _ => transparentBlack |}.

(** The code units a storage holds, keys and values. *)
Fixpoint used (s : Storage) : Z :=
  match s with
  | [] => 0
  | (k, v) :: s' =>
      Z.of_nat (String.length k) + Z.of_nat (String.length v) + used s'
  end.

(** A build with a default key, a constructor that accepts every key
    and a storage of 5242880 code units. *)
Definition environment : Environment :=
  {| envApiKey := Some "BUILD-KEY"; constructs := fun _ => true;
     withinQuota := fun s => used s <=? 5242880 |}.

End Samples.

(* ================================================================== *)
(** * Numbers: integers as Numbers, and the order of Numbers *)
(* ================================================================== *)

Lemma digits2_pos_shlPos k p :
  Z.pos (digits2_pos (Num.shlPos k p)) = Z.pos (digits2_pos p) + Z.of_nat k.
Proof.
  induction k as [|k IH]; cbn [Num.shlPos digits2_pos].
  - lia.
  - rewrite Pos2Z.inj_succ, IH. lia.
Qed.

Lemma shlPos_value k p : Z.pos (Num.shlPos k p) = Z.pos p * 2 ^ Z.of_nat k.
Proof.
  induction k as [|k IH]; cbn [Num.shlPos].
  - cbn. lia.
  - rewrite Pos2Z.inj_xO, IH, Nat2Z.inj_succ, Z.pow_succ_r by lia. lia.
Qed.

Lemma digits2_pos_lower p : 2 ^ (Z.pos (digits2_pos p) - 1) <= Z.pos p.
Proof.
  induction p as [p IH|p IH|]; cbn [digits2_pos].
  - rewrite Pos2Z.inj_succ.
    replace (Z.succ (Z.pos (digits2_pos p)) - 1) with (Z.succ (Z.pos (digits2_pos p) - 1)) by lia.
    rewrite Z.pow_succ_r by lia. lia.
  - rewrite Pos2Z.inj_succ.
    replace (Z.succ (Z.pos (digits2_pos p)) - 1) with (Z.succ (Z.pos (digits2_pos p) - 1)) by lia.
    rewrite Z.pow_succ_r by lia. lia.
  - cbn. lia.
Qed.

Lemma digits2_pos_small p : Z.pos p < 2 ^ 53 -> Z.pos (digits2_pos p) <= 53.
Proof.
  intros H. destruct (Z_le_gt_dec (Z.pos (digits2_pos p)) 53) as [|G]; [assumption|].
  exfalso. pose proof (digits2_pos_lower p) as L.
  assert (2 ^ 53 <= 2 ^ (Z.pos (digits2_pos p) - 1)) by (apply Z.pow_le_mono_r; lia).
  lia.
Qed.

(** The Number of an integer below 2^53 is the binary64 value whose
    mantissa is the integer shifted up to 53 digits. *)
Lemma Prim2SF_ofPos s p :
  Z.pos p < 2 ^ 53 ->
  Prim2SF (Num.ofPos s p) =
  S754_finite s (Num.shlPos (Z.to_nat (53 - Z.pos (digits2_pos p))) p)
              (Z.pos (digits2_pos p) - 53).
Proof.
  intros H. pose proof (digits2_pos_small p H) as D.
  unfold Num.ofPos. apply Z.leb_le in D. rewrite D. apply Z.leb_le in D.
  apply Prim2SF_SF2Prim.
  unfold SpecFloat.valid_binary, bounded, canonical_mantissa, fexp, SpecFloat.emin, emax, prec.
  rewrite digits2_pos_shlPos, Z2Nat.id by lia.
  apply andb_true_intro; split.
  - apply Z.eqb_eq. lia.
  - apply Z.leb_le. lia.
Qed.

(** An integer below 2^53, read as a Number and converted back, is
    itself. *)
Lemma toInteger_ofZ z : 0 <= z < 2 ^ 53 -> Num.toInteger (Num.ofZ z) = Some z.
Proof.
  intros [H0 H1]. destruct z as [|p|p]; [reflexivity| |lia].
  unfold Num.toInteger, Num.ofZ. rewrite Prim2SF_ofPos by assumption.
  pose proof (digits2_pos_small p H1) as D.
  rewrite shlPos_value, Z2Nat.id by lia.
  set (d := Z.pos (digits2_pos p)) in *.
  destruct (0 <=? d - 53) eqn:E.
  - apply Z.leb_le in E. replace (53 - d) with 0 by lia. replace (d - 53) with 0 by lia.
    cbn. f_equal. lia.
  - replace (- (d - 53)) with (53 - d) by lia.
    rewrite Z.div_mul; [reflexivity|]. apply Z.pow_nonzero; lia.
Qed.

(** A canvas takes a size up to 2147483647 as it is given. *)
Lemma canvasDim_ofZ default z :
  0 <= z <= 2147483647 -> canvasDim default (Num.ofZ z) = z.
Proof.
  intros H. unfold canvasDim, Num.toUint32.
  rewrite toInteger_ofZ by (change (2^53) with 9007199254740992; lia).
  rewrite Z.mod_small by (change (2^32) with 4294967296; lia).
  destruct (z <=? 2147483647) eqn:E; [reflexivity|]. apply Z.leb_gt in E. lia.
Qed.

(** ** Exact arithmetic on integer-valued Numbers

    Multiplying or dividing by 1, dividing a Number by itself and
    rounding an integer are exact; the proofs follow the rounding of the
    binary64 specification on a mantissa with trailing zeros. *)

Lemma iter_pos_nat {A} (f : A -> A) p x :
  iter_pos f p x = Nat.iter (Pos.to_nat p) f x.
Proof.
  revert x. induction p as [p IH|p IH|]; intros x; cbn [iter_pos].
  - rewrite !IH, Pos2Nat.inj_xI.
    replace (S (2 * Pos.to_nat p))%nat
      with (Pos.to_nat p + (Pos.to_nat p + 1))%nat by lia.
    rewrite !Nat.iter_add. reflexivity.
  - rewrite !IH, Pos2Nat.inj_xO.
    replace (2 * Pos.to_nat p)%nat with (Pos.to_nat p + Pos.to_nat p)%nat by lia.
    rewrite Nat.iter_add. reflexivity.
  - reflexivity.
Qed.

Lemma shr_1_shlPos k m :
  Nat.iter k shr_1 {| shr_m := Z.pos (Num.shlPos k m); shr_r := false; shr_s := false |}
  = {| shr_m := Z.pos m; shr_r := false; shr_s := false |}.
Proof.
  induction k as [|k IH]; [reflexivity|].
  rewrite Nat.iter_succ_r. cbn [Num.shlPos shr_1 orb]. exact IH.
Qed.

(** Rounding a 53-digit mantissa followed by [k] zeros gives the
    mantissa back, with the exponent raised by [k]. *)
Lemma binary_round_aux_shifted s m e k :
  Z.pos (digits2_pos m) = 53 -> -1074 <= e <= 971 ->
  binary_round_aux prec emax s (Z.pos (Num.shlPos k m)) (e - Z.of_nat k) loc_Exact
  = S754_finite s m e.
Proof.
  intros Hd He. unfold binary_round_aux, shr_fexp.
  cbn [Zdigits2 shr_record_of_loc]. rewrite digits2_pos_shlPos, Hd.
  unfold fexp, SpecFloat.emin, emax, prec.
  replace (Z.max (53 + Z.of_nat k + (e - Z.of_nat k) - 53) (3 - 1024 - 53)) with e by lia.
  replace (e - (e - Z.of_nat k)) with (Z.of_nat k) by lia.
  assert (S1 : shr {| shr_m := Z.pos (Num.shlPos k m); shr_r := false; shr_s := false |}
                 (e - Z.of_nat k) (Z.of_nat k)
               = ({| shr_m := Z.pos m; shr_r := false; shr_s := false |}, e)).
  { destruct k as [|k].
    - cbn. f_equal. lia.
    - change (Z.of_nat (S k)) with (Z.pos (Pos.of_succ_nat k)). unfold shr.
      rewrite iter_pos_nat, SuccNat2Pos.id_succ, shr_1_shlPos. f_equal. lia. }
  rewrite S1. cbn [shr_m loc_of_shr_record shr_r shr_s round_nearest_even Zdigits2].
  rewrite Hd.
  replace (Z.max (53 + e - 53) (3 - 1024 - 53) - e) with 0 by lia.
  cbn [shr shr_m].
  destruct (Z.leb e (1024 - 53)) eqn:E; [reflexivity|]. apply Z.leb_gt in E. lia.
Qed.

Lemma ofZ_normal w :
  0 < w < 2 ^ 53 ->
  exists m e, Prim2SF (Num.ofZ w) = S754_finite false m e /\
              Z.pos (digits2_pos m) = 53 /\ -52 <= e <= 0.
Proof.
  intros [H0 H1]. destruct w as [|p|p]; try lia.
  pose proof (digits2_pos_small p H1) as D.
  exists (Num.shlPos (Z.to_nat (53 - Z.pos (digits2_pos p))) p),
         (Z.pos (digits2_pos p) - 53).
  split; [now apply Prim2SF_ofPos|].
  rewrite digits2_pos_shlPos, Z2Nat.id by lia. lia.
Qed.

Lemma mul_pow52 m : (m * 4503599627370496)%positive = Num.shlPos 52 m.
Proof. apply Pos2Z.inj. rewrite shlPos_value, Pos2Z.inj_mul. reflexivity. Qed.

Lemma float_mul_one x m e :
  Prim2SF x = S754_finite false m e ->
  Z.pos (digits2_pos m) = 53 -> -1022 <= e <= 971 ->
  (x * 1)%float = x.
Proof.
  intros Hx Hd He. apply Prim2SF_inj. rewrite mul_spec, Hx.
  change (Prim2SF 1%float) with (S754_finite false 4503599627370496 (-52)).
  unfold SF64mul, SFmul. cbn [xorb]. rewrite mul_pow52.
  change (e + -52) with (e - Z.of_nat 52).
  apply binary_round_aux_shifted; [assumption|lia].
Qed.

Lemma div_eucl_exact a b q : 0 < b -> a = q * b -> Z.div_eucl a b = (q, 0).
Proof.
  intros Hb ->. pose proof (Z.div_mul q b ltac:(lia)) as Hq.
  pose proof (Z.mod_mul q b ltac:(lia)) as Hr.
  unfold Z.div, Z.modulo in Hq, Hr.
  destruct (Z.div_eucl (q * b) b) as [q' r']. cbn in *. now subst.
Qed.

Lemma float_div_one x m e :
  Prim2SF x = S754_finite false m e ->
  Z.pos (digits2_pos m) = 53 -> -1021 <= e <= 971 ->
  (x / 1)%float = x.
Proof.
  intros Hx Hd He. apply Prim2SF_inj. rewrite div_spec, Hx.
  change (Prim2SF 1%float) with (S754_finite false 4503599627370496 (-52)).
  unfold SF64div, SFdiv, SFdiv_core_binary. cbn [xorb Zdigits2]. rewrite Hd.
  change (Z.pos (digits2_pos 4503599627370496)) with 53.
  unfold fexp, SpecFloat.emin, emax, prec.
  replace (Z.min (Z.max (53 + e - (53 + -52) - 53) (3 - 1024 - 53)) (e - -52))
    with (e - 1) by lia.
  replace (e - -52 - (e - 1)) with 53 by lia.
  rewrite (div_eucl_exact _ _ (Z.pos m~0)); [|lia|].
  - change (new_location 4503599627370496 0) with loc_Exact.
    change (Z.pos m~0) with (Z.pos (Num.shlPos 1 m)).
    change (e - 1) with (e - Z.of_nat 1).
    apply binary_round_aux_shifted; [assumption|lia].
  - rewrite Z.shiftl_mul_pow2 by lia. change (2 ^ 53) with 9007199254740992. lia.
Qed.

Lemma float_div_self x m e :
  Prim2SF x = S754_finite false m e ->
  Z.pos (digits2_pos m) = 53 ->
  (x / x)%float = 1%float.
Proof.
  intros Hx Hd. apply Prim2SF_inj. rewrite div_spec, Hx.
  change (Prim2SF 1%float) with (S754_finite false 4503599627370496 (-52)).
  unfold SF64div, SFdiv, SFdiv_core_binary. cbn [xorb Zdigits2]. rewrite Hd.
  unfold fexp, SpecFloat.emin, emax, prec.
  replace (Z.min (Z.max (53 + e - (53 + e) - 53) (3 - 1024 - 53)) (e - e))
    with (-53) by lia.
  replace (e - e - -53) with 53 by lia.
  rewrite (div_eucl_exact _ _ 9007199254740992); [|lia|].
  - assert (L : new_location (Z.pos m) 0 = loc_Exact)
      by (unfold new_location; destruct (Z.even (Z.pos m)); reflexivity).
    rewrite L.
    change 9007199254740992 with (Z.pos (Num.shlPos 1 4503599627370496)).
    change (-53) with (-52 - Z.of_nat 1).
    apply binary_round_aux_shifted; [reflexivity|lia].
  - rewrite Z.shiftl_mul_pow2 by lia. change (2 ^ 53) with 9007199254740992. lia.
Qed.

Lemma round_ofZ w : 0 <= w < 2 ^ 53 -> Num.round (Num.ofZ w) = Num.ofZ w.
Proof.
  intros [H0 H1]. destruct w as [|p|p]; [reflexivity| |lia].
  pose proof (digits2_pos_small p H1) as D.
  unfold Num.round, Num.ofZ. rewrite Prim2SF_ofPos by assumption.
  set (d := Z.pos (digits2_pos p)) in *.
  destruct (0 <=? d - 53) eqn:E; [reflexivity|]. apply Z.leb_gt in E.
  rewrite shlPos_value, Z2Nat.id by lia.
  replace (- (d - 53)) with (53 - d) by lia.
  set (D2 := 2 ^ (53 - d)).
  assert (HD : 0 < D2) by (apply Z.pow_pos_nonneg; lia).
  replace (2 * (Z.pos p * D2) + D2) with ((2 * Z.pos p + 1) * D2) by lia.
  rewrite Z.div_mul_cancel_r by lia.
  replace ((2 * Z.pos p + 1) / 2) with (Z.pos p)
    by (apply (Z.div_unique _ _ _ 1); lia).
  reflexivity.
Qed.


(** ** Bounds on rounded results

    The rounding of the binary64 specification, followed on a mantissa
    that is not negative: the result is never NaN, and its exponent is
    bounded by the exponent and the number of digits of the input. *)

Lemma digits2_pos_upper p : Z.pos p < 2 ^ Z.pos (digits2_pos p).
Proof.
  induction p as [p IH|p IH|]; cbn [digits2_pos].
  - rewrite Pos2Z.inj_succ, Z.pow_succ_r by lia. lia.
  - rewrite Pos2Z.inj_succ, Z.pow_succ_r by lia. lia.
  - cbn. lia.
Qed.

Lemma Zdigits2_nonneg m : 0 <= Zdigits2 m.
Proof. destruct m; cbn; lia. Qed.

Lemma Zdigits2_le a b : 0 <= a <= b -> Zdigits2 a <= Zdigits2 b.
Proof.
  intros [Ha Hab]. destruct a as [|pa|pa]; [apply Zdigits2_nonneg| |lia].
  destruct b as [|pb|pb]; try lia. cbn [Zdigits2].
  destruct (Z_le_gt_dec (Z.pos (digits2_pos pa)) (Z.pos (digits2_pos pb))) as [|G];
    [assumption|exfalso].
  pose proof (digits2_pos_lower pa). pose proof (digits2_pos_upper pb).
  assert (2 ^ Z.pos (digits2_pos pb) <= 2 ^ (Z.pos (digits2_pos pa) - 1))
    by (apply Z.pow_le_mono_r; lia).
  lia.
Qed.

Lemma Zdigits2_succ m : 0 <= m -> Zdigits2 (m + 1) <= Zdigits2 m + 1.
Proof.
  intros Hm. destruct m as [|p|p]; [cbn; lia| |lia].
  destruct (Z.pos p + 1) as [|q|q] eqn:E; try lia. cbn [Zdigits2].
  destruct (Z_le_gt_dec (Z.pos (digits2_pos q)) (Z.pos (digits2_pos p) + 1)) as [|G];
    [assumption|exfalso].
  pose proof (digits2_pos_lower q). pose proof (digits2_pos_upper p).
  assert (2 ^ Z.succ (Z.pos (digits2_pos p)) <= 2 ^ (Z.pos (digits2_pos q) - 1))
    by (apply Z.pow_le_mono_r; lia).
  rewrite Z.pow_succ_r in * by lia. lia.
Qed.

Lemma shr_1_digits r :
  0 <= shr_m r ->
  0 <= shr_m (shr_1 r) /\
  Zdigits2 (shr_m (shr_1 r)) = Z.max 0 (Zdigits2 (shr_m r) - 1).
Proof.
  destruct r as [m rr ss]. cbn [shr_m]. intros Hm.
  destruct m as [|[p|p|]|p]; cbn [shr_1 shr_m Zdigits2 digits2_pos];
    rewrite ?Pos2Z.inj_succ; lia.
Qed.

Lemma iter_shr_1_digits k r :
  0 <= shr_m r ->
  0 <= shr_m (Nat.iter k shr_1 r) /\
  Zdigits2 (shr_m (Nat.iter k shr_1 r)) = Z.max 0 (Zdigits2 (shr_m r) - Z.of_nat k).
Proof.
  intros Hm. induction k as [|k [IH1 IH2]].
  - change (Nat.iter 0 shr_1 r) with r.
    pose proof (Zdigits2_nonneg (shr_m r)). split; [assumption|lia].
  - change (Nat.iter (S k) shr_1 r) with (shr_1 (Nat.iter k shr_1 r)).
    destruct (shr_1_digits _ IH1) as [A B]. split; [assumption|].
    rewrite B, IH2. lia.
Qed.

(** One step of [shr_fexp] on a non-negative mantissa: the mantissa
    stays non-negative, the exponent becomes the larger of the old one
    and the canonical one, and digits plus exponent do not grow beyond
    the larger of their old sum and the new exponent. *)
Lemma shr_fexp_bounds q e l :
  0 <= q ->
  let S := Zdigits2 q + e in
  let '(r1, e1) := shr_fexp prec emax q e l in
  0 <= shr_m r1 /\ e1 = Z.max e (fexp prec emax S) /\
  Zdigits2 (shr_m r1) + e1 <= Z.max S e1 /\
  (fexp prec emax S <= e -> shr_m r1 = q /\ loc_of_shr_record r1 = l).
Proof.
  intros Hq S. unfold shr_fexp. fold S.
  set (f := fexp prec emax S).
  assert (Hrec : shr_m (shr_record_of_loc q l) = q)
    by (destruct l as [|[]]; reflexivity).
  assert (Hloc : loc_of_shr_record (shr_record_of_loc q l) = l)
    by (destruct l as [|[]]; reflexivity).
  unfold shr. destruct (f - e) as [|n|n] eqn:E.
  - rewrite Hrec. repeat split; try lia. exact Hloc.
  - rewrite iter_pos_nat.
    destruct (iter_shr_1_digits (Pos.to_nat n) (shr_record_of_loc q l)) as [A B];
      [rewrite Hrec; exact Hq|].
    rewrite Hrec, positive_nat_Z in B. split; [exact A|]. rewrite B.
    unfold S. repeat split; lia.
  - rewrite Hrec. repeat split; try lia. exact Hloc.
Qed.

Lemma round_nearest_even_bounds m l :
  0 <= m ->
  0 <= round_nearest_even m l /\
  Zdigits2 (round_nearest_even m l) <= Zdigits2 m + 1.
Proof.
  intros Hm. pose proof (Zdigits2_succ m Hm).
  unfold round_nearest_even. destruct l as [|[]]; try destruct (Z.even m);
    split; try lia.
Qed.

(** Rounding a non-negative mantissa never gives NaN; the exponent of
    the result is bounded by the exponent and the magnitude of the
    input. *)
Lemma binary_round_aux_bounds s q e l :
  0 <= q ->
  let S := Zdigits2 q + e in
  match binary_round_aux prec emax s q e l with
  | S754_zero _ => True
  | S754_finite s' m e3 =>
      s' = s /\ e3 <= Z.max e (Z.max (S - 52) (-1074)) /\
      Z.pos (digits2_pos m) + e3 <= Z.max S (Z.max e (-1074)) + 1
  | S754_infinity _ => 971 < Z.max e (Z.max (S - 52) (-1074))
  | S754_nan => False
  end.
Proof.
  intros Hq S. unfold binary_round_aux.
  pose proof (shr_fexp_bounds q e l Hq) as H1. cbv zeta in H1. fold S in H1.
  destruct (shr_fexp prec emax q e l) as [r1 e1].
  destruct H1 as (P1 & E1 & D1 & _).
  destruct (round_nearest_even_bounds (shr_m r1) (loc_of_shr_record r1) P1) as [P2 D2].
  set (m2 := round_nearest_even (shr_m r1) (loc_of_shr_record r1)) in *.
  pose proof (shr_fexp_bounds m2 e1 loc_Exact P2) as H3. cbv zeta in H3.
  destruct (shr_fexp prec emax m2 e1 loc_Exact) as [r3 e3].
  destruct H3 as (P3 & E3 & D3 & _).
  unfold fexp, SpecFloat.emin, emax, prec in *.
  destruct (shr_m r3) as [|m|m] eqn:M3; [exact I| |lia].
  cbn [Zdigits2] in D3.
  destruct (Z.leb e3 (1024 - 53)) eqn:L.
  - repeat split; lia.
  - apply Z.leb_gt in L. lia.
Qed.

Lemma Zdigits2_bound a k : 0 <= a < 2 ^ k -> 0 <= k -> Zdigits2 a <= k.
Proof.
  intros [Ha Hk] H0. destruct a as [|p|p]; [assumption| |lia]. cbn [Zdigits2].
  destruct (Z_le_gt_dec (Z.pos (digits2_pos p)) k) as [|G]; [assumption|exfalso].
  pose proof (digits2_pos_lower p).
  assert (2 ^ k <= 2 ^ (Z.pos (digits2_pos p) - 1)) by (apply Z.pow_le_mono_r; lia).
  lia.
Qed.

Lemma iter_xO_shlPos m d : Pos.iter xO m d = Num.shlPos (Pos.to_nat d) m.
Proof.
  induction d as [|d IH] using Pos.peano_ind; [reflexivity|].
  rewrite Pos.iter_succ, Pos2Nat.inj_succ, IH. reflexivity.
Qed.

Lemma shl_align_spec m e ez :
  let '(m', e') := shl_align m e ez in
  e' = Z.min e ez /\
  Z.pos m' = Z.pos m * 2 ^ (e - e') /\
  Z.pos (digits2_pos m') + e' = Z.pos (digits2_pos m) + e.
Proof.
  unfold shl_align. destruct (ez - e) as [|d|d] eqn:E.
  - replace (e - e) with 0 by lia. cbn. lia.
  - replace (e - e) with 0 by lia. cbn. lia.
  - rewrite iter_xO_shlPos, shlPos_value, digits2_pos_shlPos, positive_nat_Z.
    replace (e - ez) with (Z.pos d) by lia. lia.
Qed.

(** The quotient of two positive normal Numbers of moderate size is zero
    or a finite Number of moderate size. *)
Lemma SFdiv_bounds mw ew mh eh :
  Z.pos (digits2_pos mw) = 53 -> Z.pos (digits2_pos mh) = 53 ->
  -52 <= ew <= 0 -> -52 <= eh <= 0 ->
  match SF64div (S754_finite false mw ew) (S754_finite false mh eh) with
  | S754_zero _ => True
  | S754_finite s m e => e <= 53 /\ Z.pos (digits2_pos m) + e <= 106
  | _ => False
  end.
Proof.
  intros Dw Dh Ew Eh. unfold SF64div, SFdiv, SFdiv_core_binary.
  cbn [xorb Zdigits2]. rewrite Dw, Dh.
  replace (Z.min (fexp prec emax (53 + ew - (53 + eh))) (ew - eh))
    with (ew - eh - 53)
    by (unfold fexp, SpecFloat.emin, emax, prec; lia).
  replace (ew - eh - (ew - eh - 53)) with 53 by lia.
  rewrite Z.shiftl_mul_pow2 by lia.
  pose proof (digits2_pos_upper mw) as Uw. rewrite Dw in Uw.
  assert (Hq : 0 <= Z.pos mw * 2 ^ 53 / Z.pos mh <= Z.pos mw * 2 ^ 53).
  { split; [apply Z.div_pos; lia|]. apply Z.div_le_upper_bound; [lia|].
    change (2 ^ 53) with 9007199254740992. nia. }
  unfold Z.div in Hq.
  destruct (Z.div_eucl (Z.pos mw * 2 ^ 53) (Z.pos mh)) as [q r]. cbn [fst] in Hq.
  assert (Dq : Zdigits2 q <= 106).
  { apply Zdigits2_bound; [|lia]. change (2 ^ 106) with (2 ^ 53 * 2 ^ 53).
    change (2 ^ 53) with 9007199254740992 in *. nia. }
  pose proof (binary_round_aux_bounds false q (ew - eh - 53)
                (new_location (Z.pos mh) r) (proj1 Hq)) as R.
  cbv zeta in R. pose proof (Zdigits2_nonneg q).
  destruct (binary_round_aux prec emax false q (ew - eh - 53)
              (new_location (Z.pos mh) r)) as [s|s| |s m e];
    [exact I|lia|exact R|].
  destruct R as (_ & R1 & R2). split; lia.
Qed.

(** The difference of two finite Numbers of moderate size is zero or a
    finite Number of moderate size. *)
Lemma SFsub_bounds sx mx ex sy my ey :
  ex <= 100 -> ey <= 100 ->
  Z.pos (digits2_pos mx) + ex <= 200 -> Z.pos (digits2_pos my) + ey <= 200 ->
  match SF64sub (S754_finite sx mx ex) (S754_finite sy my ey) with
  | S754_zero _ => True
  | S754_finite s m e => e <= 970
  | _ => False
  end.
Proof.
  intros Ex Ey Sx Sy. unfold SF64sub, SFsub.
  set (ez := Z.min ex ey).
  pose proof (shl_align_spec mx ex ez) as Ax.
  pose proof (shl_align_spec my ey ez) as Ay.
  destruct (shl_align mx ex ez) as [ax ex']. destruct (shl_align my ey ez) as [ay ey'].
  cbn [fst]. destruct Ax as (Ex' & Vx & Dx). destruct Ay as (Ey' & Vy & Dy).
  assert (ex' = ez) by (unfold ez in *; lia). assert (ey' = ez) by (unfold ez in *; lia).
  subst ex' ey'.
  pose proof (digits2_pos_upper ax) as Ux. pose proof (digits2_pos_upper ay) as Uy.
  set (k := 201 - ez).
  assert (Hk : 0 <= k) by (unfold k, ez; lia).
  assert (Bx : Z.pos ax < 2 ^ (k - 1)).
  { eapply Z.lt_le_trans; [exact Ux|]. apply Z.pow_le_mono_r; unfold k; lia. }
  assert (By : Z.pos ay < 2 ^ (k - 1)).
  { eapply Z.lt_le_trans; [exact Uy|]. apply Z.pow_le_mono_r; unfold k; lia. }
  assert (P2 : 2 ^ k = 2 * 2 ^ (k - 1)).
  { replace k with (Z.succ (k - 1)) at 1 by lia. apply Z.pow_succ_r.
    unfold k, ez. lia. }
  set (z := cond_Zopp sx (Z.pos ax) - cond_Zopp sy (Z.pos ay)).
  assert (Bz : Z.abs z < 2 ^ k).
  { unfold z, cond_Zopp. destruct sx, sy; lia. }
  assert (Round : forall s p, Z.pos p < 2 ^ k ->
            match binary_round prec emax s p ez with
            | S754_zero _ => True
            | S754_finite _ _ e => e <= 970
            | _ => False
            end).
  { intros s p Hp. unfold binary_round.
    pose proof (shl_align_spec p ez
                  (fexp prec emax (Z.pos (digits2_pos p) + ez))) as A.
    destruct (shl_align p ez (fexp prec emax (Z.pos (digits2_pos p) + ez)))
      as [mz ez'].
    destruct A as (E' & _ & D').
    assert (Dp : Z.pos (digits2_pos p) <= k)
      by (apply (Zdigits2_bound (Z.pos p)); lia).
    pose proof (binary_round_aux_bounds s (Z.pos mz) ez' loc_Exact ltac:(lia)) as R.
    cbv zeta in R. cbn [Zdigits2] in R.
    destruct (binary_round_aux prec emax s (Z.pos mz) ez' loc_Exact)
      as [s'|s'| |s' m e]; [exact I| |exact R|].
    - unfold k, ez in *. lia.
    - destruct R as (_ & R1 & _). unfold k, ez in *. lia. }
  unfold binary_normalize. destruct z as [|p|p]; [exact I| |]; apply Round; lia.
Qed.

(** The distance between the ratio of two sizes a raster can have and a
    finite Number of moderate size is below [Number.MAX_VALUE]. *)
Lemma distance_below_MAX w h v sv mv ev :
  0 < w <= 2147483647 -> 0 < h <= 2147483647 ->
  Prim2SF v = S754_finite sv mv ev ->
  ev <= 100 -> Z.pos (digits2_pos mv) + ev <= 200 ->
  PrimFloat.ltb (distance (Num.ofZ w / Num.ofZ h)%float v) Num.MAX_VALUE = true.
Proof.
  intros Hw Hh Hv Ev Sv.
  destruct (ofZ_normal w) as (mw & ew & Pw & Dw & Ew);
    [change (2 ^ 53) with 9007199254740992; lia|].
  destruct (ofZ_normal h) as (mh & eh & Ph & Dh & Eh);
    [change (2 ^ 53) with 9007199254740992; lia|].
  unfold distance. rewrite ltb_spec, abs_spec, sub_spec, div_spec, Pw, Ph, Hv.
  change (Prim2SF Num.MAX_VALUE) with (S754_finite false 9007199254740991 971).
  pose proof (SFdiv_bounds mw ew mh eh Dw Dh Ew Eh) as Q.
  assert (Below : forall x,
            match x with
            | S754_zero _ => True
            | S754_finite _ _ e => e <= 970
            | _ => False
            end ->
            SFltb (SFabs x) (S754_finite false 9007199254740991 971) = true).
  { intros [s|s| |s m e] Hx; try contradiction; [reflexivity|].
    unfold SFltb, SFabs, SFcompare.
    destruct (Z.compare_spec e 971) as [C|C|C]; [lia|reflexivity|lia]. }
  destruct (SF64div (S754_finite false mw ew) (S754_finite false mh eh))
    as [s|s| |s m e]; try contradiction.
  - apply Below. cbn. lia.
  - destruct Q as [Q1 Q2]. apply Below. apply SFsub_bounds; lia.
Qed.

(** The comparison of two finite Numbers is decided by sign, exponent
    and mantissa; the cases of a goal are split along these. *)
Ltac cmp_cases :=
  repeat match goal with
  | |- context [Z.compare ?a ?b] => destruct (Z.compare_spec a b)
  | H : context [Z.compare ?a ?b] |- _ => destruct (Z.compare_spec a b)
  | |- context [PosDef.Pos.compare_cont Eq ?a ?b] =>
      change (PosDef.Pos.compare_cont Eq a b) with (Pos.compare a b);
      destruct (Pos.compare_spec a b)
  | H : context [PosDef.Pos.compare_cont Eq ?a ?b] |- _ =>
      change (PosDef.Pos.compare_cont Eq a b) with (Pos.compare a b) in H;
      destruct (Pos.compare_spec a b)
  end.

Lemma SFltb_trans a b c :
  SFltb a b = true -> SFltb b c = true -> SFltb a c = true.
Proof.
  unfold SFltb, SFcompare.
  destruct a as [[]|[]| |[] ma ea], b as [[]|[]| |[] mb eb], c as [[]|[]| |[] mc ec];
    try discriminate; try reflexivity; intros H1 H2;
    cmp_cases; cbn in *; try discriminate; try reflexivity; subst; try lia.
Qed.

Lemma SFleb_ltb_trans a b c :
  SFleb a b = true -> SFltb b c = true -> SFltb a c = true.
Proof.
  unfold SFltb, SFleb, SFcompare.
  destruct a as [[]|[]| |[] ma ea], b as [[]|[]| |[] mb eb], c as [[]|[]| |[] mc ec];
    try discriminate; try reflexivity; intros H1 H2;
    cmp_cases; cbn in *; try discriminate; try reflexivity; subst; try lia.
Qed.

Lemma ltb_trans (x y z : float) :
  PrimFloat.ltb x y = true -> PrimFloat.ltb y z = true -> PrimFloat.ltb x z = true.
Proof. rewrite !ltb_spec. apply SFltb_trans. Qed.

Lemma leb_ltb_trans (x y z : float) :
  PrimFloat.leb x y = true -> PrimFloat.ltb y z = true -> PrimFloat.ltb x z = true.
Proof. rewrite leb_spec, !ltb_spec. apply SFleb_ltb_trans. Qed.
Lemma SFltb_irrefl a : SFltb a a = false.
Proof.
  unfold SFltb, SFcompare. destruct a as [[]|[]| |[] m e]; try reflexivity;
    rewrite Z.compare_refl;
    change (PosDef.Pos.compare_cont Eq m m) with (Pos.compare m m);
    rewrite Pos.compare_refl; reflexivity.
Qed.

Lemma ltb_irrefl (x : float) : PrimFloat.ltb x x = false.
Proof. rewrite ltb_spec. apply SFltb_irrefl. Qed.

Lemma not_leb_when_ltb (x y : float) :
  PrimFloat.ltb y x = true -> PrimFloat.leb x y = false.
Proof.
  intros H. destruct (PrimFloat.leb x y) eqn:E; [|reflexivity].
  pose proof (leb_ltb_trans _ _ _ E H) as F. rewrite ltb_irrefl in F. discriminate.
Qed.

Lemma not_leb_below (x y m : float) :
  PrimFloat.ltb x m = false -> PrimFloat.ltb y m = true -> PrimFloat.leb x y = false.
Proof.
  intros Hx Hy. destruct (PrimFloat.leb x y) eqn:E; [|reflexivity].
  rewrite (leb_ltb_trans _ _ _ E Hy) in Hx. discriminate.
Qed.

(** The loop either keeps its initial answer, no entry being below the
    initial [minDiff], or answers an entry that is below it, with no
    earlier entry as close and no later entry closer. *)
Lemma closestLoop_spec ratio rs m c :
  (closestLoop ratio rs m c = c /\
   forall e, In e rs -> PrimFloat.ltb (distance ratio (snd e)) m = false) \/
  exists pre label value post,
    rs = (pre ++ (label, value) :: post)%list /\
    closestLoop ratio rs m c = label /\
    PrimFloat.ltb (distance ratio value) m = true /\
    (forall e, In e pre ->
       PrimFloat.leb (distance ratio (snd e)) (distance ratio value) = false) /\
    (forall e, In e post ->
       PrimFloat.ltb (distance ratio (snd e)) (distance ratio value) = false).
Proof.
  revert m c. induction rs as [|[l v] rs IH]; intros m c; cbn [closestLoop].
  - left. split; [reflexivity|]. intros e [].
  - fold (distance ratio v). destruct (PrimFloat.ltb (distance ratio v) m) eqn:E.
    + right. destruct (IH (distance ratio v) l) as [[Hc Hall]|(pre & l' & v' & post & Hrs & Hc & Hlt & Hpre & Hpost)].
      * exists [], l, v, rs. repeat split; auto. intros e [].
      * exists ((l, v) :: pre), l', v', post. subst rs. repeat split; auto.
        -- eapply ltb_trans; eassumption.
        -- intros e [<-|Hin]; [|auto]. cbn [snd]. now apply not_leb_when_ltb.
    + destruct (IH m c) as [[Hc Hall]|(pre & l' & v' & post & Hrs & Hc & Hlt & Hpre & Hpost)].
      * left. split; [assumption|]. intros e [<-|Hin]; [exact E|auto].
      * right. exists ((l, v) :: pre), l', v', post. subst rs. repeat split; auto.
        intros e [<-|Hin]; [|auto]. cbn [snd]. eapply not_leb_below; eassumption.
Qed.


(* ================================================================== *)
(** * Activation code *)
(* ================================================================== *)

(** C9, at the failing input. The source comments the last step with
    "Convert to a positive 6-digit code", but [Math.abs] is applied after
    100000 is added to a remainder that is negative whenever the hash is:
    for [admin@gmail.com] the hash is -1343743360, the remainder -43360,
    and the code the five-digit string ["56640"]. *)
Theorem getActivationCode_short_code :
  hashLoop 0 "admin@gmail.com" = -1343743360 /\
  getActivationCode "admin@gmail.com" = "56640" /\
  sixDigits (getActivationCode "admin@gmail.com") = false.
Proof. repeat split; vm_compute; reflexivity. Qed.

(* ================================================================== *)
(** * Data URLs *)
(* ================================================================== *)

Lemma split_no_separator sep s :
  JS.contains sep s = false -> JS.split sep s = [s].
Proof.
  induction s as [|c s IH]; cbn; [reflexivity|].
  intros H. apply orb_false_elim in H as [Hc Hs].
  rewrite Hc, (IH Hs). reflexivity.
Qed.

Lemma split_at_separator sep h t :
  JS.contains sep h = false ->
  JS.split sep (h ++ String sep t) = h :: JS.split sep t.
Proof.
  induction h as [|c h IH]; cbn; intros H.
  - rewrite Ascii.eqb_refl. reflexivity.
  - apply orb_false_elim in H as [Hc Hs]. rewrite Hc, (IH Hs). reflexivity.
Qed.

Lemma lazyUntilSemicolon_stops m rest :
  JS.contains ";" m = false -> JS.singleLine m = true ->
  JS.lazyUntilSemicolon (m ++ String ";" rest) = Some m.
Proof.
  induction m as [|c m IH]; cbn; intros Hs Hl; [reflexivity|].
  apply orb_false_elim in Hs as [Hc Hs]. apply andb_prop in Hl as [Hn Hl].
  rewrite Hc. apply negb_true_iff in Hn. rewrite Hn, (IH Hs Hl). reflexivity.
Qed.

Lemma contains_app c a b :
  JS.contains c (a ++ b) = JS.contains c a || JS.contains c b.
Proof.
  induction a as [|d a IH]; cbn; [reflexivity|]. rewrite IH. apply orb_assoc.
Qed.

Lemma append_assoc_string a b c : (a ++ b) ++ c = a ++ (b ++ c).
Proof. induction a as [|d a IH]; cbn; [reflexivity|]. now rewrite IH. Qed.

Lemma dataUrl_header_payload m b :
  sourceImageToDataUrl {| base64 := b; mimeType := m |} =
  ("data:" ++ m ++ ";base64") ++ String "," b.
Proof.
  unfold sourceImageToDataUrl; cbn [mimeType base64].
  rewrite !append_assoc_string. reflexivity.
Qed.


Lemma split_segments sep s p :
  In p (JS.split sep s) -> JS.contains sep p = false.
Proof.
  revert p. induction s as [|c s IH]; cbn; intros p H.
  - destruct H as [<-|[]]. reflexivity.
  - destruct (Ascii.eqb c sep) eqn:E.
    + destruct H as [<-|H]; [reflexivity|now apply IH].
    + destruct (JS.split sep s) as [|q qs] eqn:Es.
      * destruct H as [<-|[]]. cbn. now rewrite E.
      * destruct H as [<-|H].
        -- cbn. rewrite E. apply IH. now left.
        -- apply IH. now right.
Qed.

Lemma lazyUntilSemicolon_group s g :
  JS.lazyUntilSemicolon s = Some g ->
  JS.contains ";" g = false /\ JS.singleLine g = true /\
  forall c, JS.contains c s = false -> JS.contains c g = false.
Proof.
  revert g. induction s as [|d s IH]; cbn; intros g H; [discriminate|].
  destruct (Ascii.eqb d ";") eqn:E.
  - injection H as <-. repeat split.
  - destruct (JS.isLineTerminator d) eqn:El; [discriminate|].
    destruct (JS.lazyUntilSemicolon s) as [g'|]; [|discriminate].
    injection H as <-. destruct (IH g' eq_refl) as (H1 & H2 & H3).
    cbn. rewrite E, El, H1, H2. repeat split.
    intros c Hc. apply orb_false_elim in Hc as [Hd Hs]. now rewrite Hd, (H3 c Hs).
Qed.

Lemma matchColonSemicolon_group s g :
  JS.matchColonSemicolon s = Some g ->
  JS.contains ";" g = false /\ JS.singleLine g = true /\
  forall c, JS.contains c s = false -> JS.contains c g = false.
Proof.
  revert g. induction s as [|d s IH]; cbn; intros g H; [discriminate|].
  destruct (Ascii.eqb d ":").
  - destruct (JS.lazyUntilSemicolon s) as [g'|] eqn:El.
    + injection H as <-. destruct (lazyUntilSemicolon_group s g' El) as (H1 & H2 & H3).
      repeat split; try assumption.
      intros c Hc. apply orb_false_elim in Hc as [_ Hs]. auto.
    + destruct (IH g H) as (H1 & H2 & H3). repeat split; try assumption.
      intros c Hc. apply orb_false_elim in Hc as [_ Hs]. auto.
  - destruct (IH g H) as (H1 & H2 & H3). repeat split; try assumption.
    intros c Hc. apply orb_false_elim in Hc as [_ Hs]. auto.
Qed.

Lemma first_separator sep s :
  JS.contains sep s = true ->
  exists h t, s = h ++ String sep t /\ JS.contains sep h = false.
Proof.
  induction s as [|c s IH]; cbn; [discriminate|].
  destruct (Ascii.eqb c sep) eqn:E.
  - intros _. apply Ascii.eqb_eq in E. subst c. exists "", s. split; reflexivity.
  - cbn. intros H. destruct (IH H) as (h & t & -> & Hh).
    exists (String c h), t. split; [reflexivity|]. cbn. now rewrite E.
Qed.

(** The text up to the next separator, and what follows it. *)
Lemma next_segment sep s :
  exists p tail, s = p ++ tail /\ JS.contains sep p = false /\
    (tail = "" \/ exists rest, tail = String sep rest).
Proof.
  destruct (JS.contains sep s) eqn:E.
  - destruct (first_separator sep s E) as (h & t & -> & Hh).
    exists h, (String sep t). split; [reflexivity|]. split; [exact Hh|]. right. now exists t.
  - exists s, "". split; [|split; [exact E|now left]].
    clear E. induction s as [|c s IH]; cbn; [reflexivity|]. now rewrite <- IH.
Qed.

Lemma split_second sep p tail :
  JS.contains sep p = false ->
  tail = "" \/ (exists rest, tail = String sep rest) ->
  exists ps, JS.split sep (p ++ tail) = p :: ps.
Proof.
  intros Hp [->|(rest & ->)].
  - exists []. replace (p ++ "") with p.
    + now apply split_no_separator.
    + clear Hp. induction p as [|c p IH]; cbn; [reflexivity|]. now rewrite <- IH.
  - exists (JS.split sep rest). now apply split_at_separator.
Qed.

(** [dataUrlToSourceImage] on a string with a comma: the text before
    the first comma is matched for the media type, the text between the
    first comma and the next one is the payload. *)
Lemma dataUrlToSourceImage_parts header payload tail :
  JS.contains "," header = false -> JS.contains "," payload = false ->
  tail = "" \/ (exists rest, tail = String "," rest) ->
  dataUrlToSourceImage (header ++ String "," (payload ++ tail)) =
  match JS.matchColonSemicolon header with
  | Some mime =>
      if JS.falsy payload || JS.falsy mime then None
      else Some {| base64 := payload; mimeType := mime |}
  | None => None
  end.
Proof.
  intros Hh Hp Ht. unfold dataUrlToSourceImage.
  assert (JS.falsy (header ++ String "," (payload ++ tail)) = false) as ->
    by (destruct header; reflexivity).
  rewrite (split_at_separator _ _ _ Hh).
  destruct (split_second "," payload tail Hp Ht) as (ps & ->).
  cbn [hd nth_error]. destruct (JS.matchColonSemicolon header); reflexivity.
Qed.

Lemma lazyUntilSemicolon_some m post :
  JS.singleLine m = true ->
  exists g, JS.lazyUntilSemicolon (m ++ String ";" post) = Some g.
Proof.
  induction m as [|c m IH]; cbn; intros Hl; [eauto|].
  apply andb_prop in Hl as [Hn Hl]. apply negb_true_iff in Hn. rewrite Hn.
  destruct (Ascii.eqb c ";"); [eauto|].
  destruct (IH Hl) as (g & ->). cbn. eauto.
Qed.

Lemma lazyUntilSemicolon_text s g :
  JS.lazyUntilSemicolon s = Some g ->
  exists post, s = g ++ String ";" post.
Proof.
  revert g. induction s as [|c s IH]; cbn; intros g H; [discriminate|].
  destruct (Ascii.eqb c ";") eqn:E.
  - injection H as <-. apply Ascii.eqb_eq in E. subst c. now exists s.
  - destruct (JS.isLineTerminator c); [discriminate|].
    destruct (JS.lazyUntilSemicolon s) as [g'|]; [|discriminate].
    injection H as <-. destruct (IH g' eq_refl) as (post & ->). now exists post.
Qed.

Lemma matchColonSemicolon_text s g :
  JS.matchColonSemicolon s = Some g ->
  exists pre post, s = pre ++ String ":" (g ++ String ";" post).
Proof.
  revert g. induction s as [|c s IH]; cbn; intros g H; [discriminate|].
  destruct (Ascii.eqb c ":") eqn:E.
  - destruct (JS.lazyUntilSemicolon s) as [g'|] eqn:El.
    + injection H as <-. apply Ascii.eqb_eq in E. subst c.
      destruct (lazyUntilSemicolon_text s g' El) as (post & ->).
      now exists "", post.
    + destruct (IH g H) as (pre & post & ->). now exists (String c pre), post.
  - destruct (IH g H) as (pre & post & ->). now exists (String c pre), post.
Qed.

(** The regular expression finds no match exactly when no colon of the
    text is followed, on its line, by a semicolon. *)
Lemma matchColonSemicolon_none s :
  JS.matchColonSemicolon s = None <->
  (forall pre m post,
     s = pre ++ String ":" (m ++ String ";" post) -> JS.singleLine m = false).
Proof.
  split.
  - intros Hn pre m post ->. destruct (JS.singleLine m) eqn:Hl; [|reflexivity].
    exfalso. induction pre as [|c pre IH]; cbn in Hn.
    + destruct (lazyUntilSemicolon_some m post Hl) as (g & Hg).
      rewrite Hg in Hn. discriminate.
    + destruct (Ascii.eqb c ":"); [|now apply IH].
      destruct (JS.lazyUntilSemicolon _); [discriminate|now apply IH].
  - intros H. destruct (JS.matchColonSemicolon s) as [g|] eqn:E; [|reflexivity].
    destruct (matchColonSemicolon_text s g E) as (pre & post & Hs).
    destruct (matchColonSemicolon_group s g E) as (_ & Hl & _).
    specialize (H pre g post Hs). congruence.
Qed.

(** A colon with a semicolon right behind it, and no colon before:
    the match is there, and its group is empty. *)
Lemma matchColonSemicolon_empty pre post :
  JS.contains ":" pre = false ->
  JS.matchColonSemicolon (pre ++ String ":" (String ";" post)) = Some "".
Proof.
  induction pre as [|c pre IH]; cbn; intros H; [reflexivity|].
  apply orb_false_elim in H as [Hc Hp]. rewrite Hc. now apply IH.
Qed.


(** The round trip through a data URL for a media type and a payload
    without the separators. *)
Lemma dataUrl_clean_roundtrip b m :
  JS.falsy m = false -> JS.contains ";" m = false ->
  JS.contains "," m = false -> JS.singleLine m = true ->
  JS.falsy b = false -> JS.contains "," b = false ->
  dataUrlToSourceImage (sourceImageToDataUrl {| base64 := b; mimeType := m |})
  = Some {| base64 := b; mimeType := m |}.
Proof.
  intros Hm Hsemi Hcomma Hline Hb Hbc.
  assert (Hsplit : JS.split "," (sourceImageToDataUrl {| base64 := b; mimeType := m |})
            = [("data:" ++ m ++ ";base64"); b]).
  { rewrite dataUrl_header_payload, split_at_separator.
    - now rewrite (split_no_separator _ _ Hbc).
    - cbn. rewrite contains_app, Hcomma. reflexivity. }
  unfold dataUrlToSourceImage.
  replace (JS.falsy (sourceImageToDataUrl {| base64 := b; mimeType := m |}))
    with false by reflexivity.
  rewrite Hsplit. cbn [hd nth_error].
  change ("data:" ++ m ++ ";base64")
    with (String "d" (String "a" (String "t" (String "a" (String ":"
            (m ++ String ";" "base64")))))).
  cbn [JS.matchColonSemicolon Ascii.eqb Bool.eqb].
  rewrite (lazyUntilSemicolon_stops m "base64" Hsemi Hline).
  rewrite Hb, Hm. reflexivity.
Qed.

(** C10, as stated, fails: an image whose media type is empty has no
    [;] and no [,] in it and a payload without commas, but its data URL
    reads back as [null], because the code rejects an empty media type;
    and a media type with a line feed is not matched by [.] and reads
    back as [null] too. *)
Lemma dataUrl_roundtrip_fails :
  let img := {| base64 := "AAAA"; mimeType := "" |} in
  let img2 := {| base64 := "AAAA";
                 mimeType := String "a" (String (ascii_of_N 10) "b") |} in
  (JS.contains ";" (mimeType img) = false /\
   JS.contains "," (mimeType img) = false /\
   JS.falsy (base64 img) = false /\
   JS.contains "," (base64 img) = false /\
   dataUrlToSourceImage (sourceImageToDataUrl img) = None) /\
  (JS.contains ";" (mimeType img2) = false /\
   JS.contains "," (mimeType img2) = false /\
   JS.falsy (base64 img2) = false /\
   JS.contains "," (base64 img2) = false /\
   dataUrlToSourceImage (sourceImageToDataUrl img2) = None).
Proof. repeat split; vm_compute; reflexivity. Qed.

(** C10, amended. For every image whose media type is not empty, is on
    one line and has no [;] and no [,], and whose payload is not empty
    and has no [,], [dataUrlToSourceImage (sourceImageToDataUrl img)]
    is [img]. [dataUrlToSourceImage] is [null] on the empty string, and
    on exactly these strings: those without a comma, those whose
    payload, the text between the first comma and the next, is empty,
    and those whose header, the text before the first comma, has no
    match for the regular expression or a match with an empty type.
    The header has no match exactly when no colon in it is followed, on
    its line, by a semicolon; and a first colon with a semicolon right
    behind it gives the empty type. *)
Theorem dataUrl_roundtrip :
  (forall img,
     JS.falsy (mimeType img) = false ->
     JS.contains ";" (mimeType img) = false ->
     JS.contains "," (mimeType img) = false ->
     JS.singleLine (mimeType img) = true ->
     JS.falsy (base64 img) = false ->
     JS.contains "," (base64 img) = false ->
     dataUrlToSourceImage (sourceImageToDataUrl img) = Some img) /\
  dataUrlToSourceImage "" = None /\
  (forall s,
     dataUrlToSourceImage s = None <->
     JS.contains "," s = false \/
     exists header payload tail,
       s = header ++ "," ++ payload ++ tail /\
       JS.contains "," header = false /\ JS.contains "," payload = false /\
       (tail = "" \/ exists rest, tail = "," ++ rest) /\
       (payload = "" \/ JS.matchColonSemicolon header = None \/
        JS.matchColonSemicolon header = Some "")) /\
  (forall header,
     JS.matchColonSemicolon header = None <->
     forall pre m post,
       header = pre ++ ":" ++ m ++ ";" ++ post -> JS.singleLine m = false) /\
  (forall pre post,
     JS.contains ":" pre = false ->
     JS.matchColonSemicolon (pre ++ ":;" ++ post) = Some "").
Proof.
  refine (conj _ (conj eq_refl (conj _ (conj matchColonSemicolon_none
                                             matchColonSemicolon_empty)))).
  - intros [b m]; cbn [mimeType base64]; intros Hm Hsemi Hcomma Hline Hb Hbc.
    now apply dataUrl_clean_roundtrip.
  - intros s. split.
    + intros Hn. destruct (JS.contains "," s) eqn:Ec; [right|now left].
      destruct (first_separator "," s Ec) as (header & t & -> & Hh).
      destruct (next_segment "," t) as (payload & tail & -> & Hp & Ht).
      exists header, payload, tail. repeat (split; [assumption || reflexivity|]).
      rewrite (dataUrlToSourceImage_parts header payload tail Hh Hp Ht) in Hn.
      destruct (JS.matchColonSemicolon header) as [mime|]; [|now right; left].
      destruct payload as [|c payload]; [now left|]. right. right.
      destruct mime; [reflexivity|discriminate].
    + intros [Hc|(header & payload & tail & -> & Hh & Hp & Ht & Hbad)].
      * unfold dataUrlToSourceImage. rewrite (split_no_separator _ _ Hc). cbn.
        destruct (JS.falsy s); reflexivity.
      * change (header ++ "," ++ payload ++ tail)
          with (header ++ String "," (payload ++ tail)).
        rewrite (dataUrlToSourceImage_parts header payload tail Hh Hp Ht).
        destruct Hbad as [->|[->| ->]]; [|reflexivity|].
        -- destruct (JS.matchColonSemicolon header); reflexivity.
        -- cbn. now rewrite orb_true_r.
Qed.

Lemma dataUrl_roundtrip_witness :
  dataUrlToSourceImage
    (sourceImageToDataUrl {| base64 := "AAAA"; mimeType := "image/png" |})
  = Some {| base64 := "AAAA"; mimeType := "image/png" |} /\
  dataUrlToSourceImage "a;b:c,AAAA" = None /\
  dataUrlToSourceImage "data:;base64,AAAA" = None.
Proof.
  split; [|split].
  - apply (proj1 dataUrl_roundtrip {| base64 := "AAAA"; mimeType := "image/png" |});
      reflexivity.
  - apply (proj2 (proj1 (proj2 (proj2 dataUrl_roundtrip)) "a;b:c,AAAA")).
    right. exists "a;b:c", "AAAA", "". repeat split; auto.
  - apply (proj2 (proj1 (proj2 (proj2 dataUrl_roundtrip)) "data:;base64,AAAA")).
    right. exists "data:;base64", "AAAA", "". repeat split; auto.
Defined.

(* ================================================================== *)
(** * Nearest supported aspect ratio *)
(* ================================================================== *)

(** The solid sample images are rasters. *)
Lemma raster_solid w h p :
  0 < w <= 2147483647 -> 0 < h <= 2147483647 -> raster (Reference.solid w h p).
Proof. intros Hw Hh. split; assumption. Qed.

(** Every distance the loop computes for a raster is below the initial
    [minDiff], so the first entry of the table always replaces the
    initial answer. *)
Lemma closestLoop_first_closest w h :
  0 < w <= 2147483647 -> 0 < h <= 2147483647 ->
  firstClosest (Num.ofZ w / Num.ofZ h)%float
    (closestLoop (Num.ofZ w / Num.ofZ h)%float supportedRatios Num.MAX_VALUE "1:1").
Proof.
  intros Hw Hh. set (ratio := (Num.ofZ w / Num.ofZ h)%float).
  destruct (closestLoop_spec ratio supportedRatios Num.MAX_VALUE "1:1")
    as [[_ Hall]|(pre & l & v & post & Hrs & Hc & _ & Hpre & Hpost)].
  - exfalso. specialize (Hall ("1:1", 1%float) (or_introl eq_refl)). cbn [snd] in Hall.
    unfold ratio in Hall.
    rewrite (distance_below_MAX w h 1%float false 4503599627370496 (-52)) in Hall;
      try assumption; try reflexivity; try lia. discriminate.
  - rewrite Hc. exists pre, v, post. auto.
Qed.

(** C6. When the image loads, [getClosestAspectRatio] answers the first
    entry of the table at the least distance from width/height: no entry
    before it is as close and none after it is closer. This holds for
    every raster; for an image without pixels, whose ratio is no finite
    number, the answer may also be the initial "1:1" with no distance
    below [Number.MAX_VALUE]. A ratio of exactly 1.5 gives "4:3", a
    ratio of exactly 1.0 gives "1:1", and a failed load gives "1:1". *)
Theorem getClosestAspectRatio_first_closest {B : Browser} :
  (forall image img,
     decode (sourceImageToDataUrl image) = Some img ->
     raster img ->
     exists label,
       getClosestAspectRatio image = Ok label /\
       firstClosest (widthOf img / heightOf img)%float label) /\
  (forall image img,
     decode (sourceImageToDataUrl image) = Some img ->
     let ratio := (widthOf img / heightOf img)%float in
     exists label,
       getClosestAspectRatio image = Ok label /\
       (firstClosest ratio label \/
        (label = "1:1" /\
         forall e, In e supportedRatios ->
           PrimFloat.ltb (distance ratio (snd e)) Num.MAX_VALUE = false))) /\
  (forall image img,
     decode (sourceImageToDataUrl image) = Some img ->
     (widthOf img / heightOf img)%float = 1.5%float ->
     getClosestAspectRatio image = Ok "4:3") /\
  (forall image img,
     decode (sourceImageToDataUrl image) = Some img ->
     (widthOf img / heightOf img)%float = 1.0%float ->
     getClosestAspectRatio image = Ok "1:1") /\
  (forall image,
     decode (sourceImageToDataUrl image) = None ->
     getClosestAspectRatio image = Ok "1:1").
Proof.
  refine (conj _ (conj _ (conj _ (conj _ _)))).
  - intros image img Hd [Hw Hh].
    unfold getClosestAspectRatio, loadImage. rewrite Hd. cbn [bind try_catch ret].
    eexists. split; [reflexivity|]. now apply closestLoop_first_closest.
  - intros image img Hd ratio.
    unfold getClosestAspectRatio, loadImage. rewrite Hd. cbn [bind try_catch ret].
    fold ratio.
    destruct (closestLoop_spec ratio supportedRatios Num.MAX_VALUE "1:1")
      as [[Hc Hall]|(pre & l & v & post & Hrs & Hc & _ & Hpre & Hpost)].
    + exists "1:1". split; [now rewrite Hc|]. right. split; [reflexivity|exact Hall].
    + exists l. split; [now rewrite Hc|]. left. exists pre, v, post. auto.
  - intros image img Hd Hr. unfold getClosestAspectRatio, loadImage.
    rewrite Hd. cbn [bind try_catch ret]. rewrite Hr. reflexivity.
  - intros image img Hd Hr. unfold getClosestAspectRatio, loadImage.
    rewrite Hd. cbn [bind try_catch ret]. rewrite Hr. reflexivity.
  - intros image Hd. unfold getClosestAspectRatio, loadImage. rewrite Hd. reflexivity.
Qed.

Lemma getClosestAspectRatio_witness :
  (exists label,
     @getClosestAspectRatio Reference.browser (Reference.image "PHOTO") = Ok label /\
     firstClosest 1.5%float label) /\
  @getClosestAspectRatio Reference.browser (Reference.image "PHOTO") = Ok "4:3" /\
  @getClosestAspectRatio Reference.browser (Reference.image "SQUARE") = Ok "1:1" /\
  @getClosestAspectRatio Reference.browser (Reference.image "NOPE") = Ok "1:1".
Proof.
  pose proof (@getClosestAspectRatio_first_closest Reference.browser)
    as (H1 & _ & H2 & H3 & H4).
  refine (conj _ (conj _ (conj _ _))).
  - exact (H1 (Reference.image "PHOTO") (Reference.solid 300 200 Reference.greyPixel)
              eq_refl (raster_solid 300 200 _ ltac:(lia) ltac:(lia))).
  - exact (H2 (Reference.image "PHOTO") (Reference.solid 300 200 Reference.greyPixel)
              eq_refl eq_refl).
  - exact (H3 (Reference.image "SQUARE") (Reference.solid 64 64 Reference.greyPixel)
              eq_refl eq_refl).
  - exact (H4 (Reference.image "NOPE") eq_refl).
Defined.

(* ================================================================== *)
(** * Canvas drawing *)
(* ================================================================== *)

Section CanvasFacts.

Context {B : Browser}.

Lemma usable_image b :
  0 < width b -> 0 < height b -> usable (ImageSource b) = Ok (Some b).
Proof.
  intros Hw Hh. unfold usable.
  destruct (width b <=? 0) eqn:E1; [apply Z.leb_le in E1; lia|].
  destruct (height b <=? 0) eqn:E2; [apply Z.leb_le in E2; lia|]. reflexivity.
Qed.

Lemma usable_canvas b :
  0 < width b -> 0 < height b -> usable (CanvasSource b) = Ok (Some b).
Proof.
  intros Hw Hh. unfold usable.
  destruct (width b <=? 0) eqn:E1; [apply Z.leb_le in E1; lia|].
  destruct (height b <=? 0) eqn:E2; [apply Z.leb_le in E2; lia|]. reflexivity.
Qed.

Lemma drawImage_image b dx dy X Y ctx :
  Num.toInteger dx = Some X -> Num.toInteger dy = Some Y ->
  0 < width b -> 0 < height b ->
  drawImage (ImageSource b) dx dy ctx = Ok (paint (placed b X Y) ctx).
Proof.
  intros Hx Hy Hw Hh. unfold drawImage. rewrite Hx, Hy, usable_image by assumption.
  reflexivity.
Qed.

Lemma drawImage_canvas b dx dy X Y ctx :
  Num.toInteger dx = Some X -> Num.toInteger dy = Some Y ->
  0 < width b -> 0 < height b ->
  drawImage (CanvasSource b) dx dy ctx = Ok (paint (placed b X Y) ctx).
Proof.
  intros Hx Hy Hw Hh. unfold drawImage. rewrite Hx, Hy, usable_canvas by assumption.
  reflexivity.
Qed.

Lemma drawImageScaled_image b dx dy dw dh X Y W H ctx :
  Num.toInteger dx = Some X -> Num.toInteger dy = Some Y ->
  Num.toInteger dw = Some W -> Num.toInteger dh = Some H ->
  0 < width b -> 0 < height b ->
  drawImageScaled (ImageSource b) dx dy dw dh ctx =
  Ok (paint (placedScaled b X Y W H) ctx).
Proof.
  intros Hx Hy Hw Hh Hbw Hbh. unfold drawImageScaled.
  rewrite Hx, Hy, Hw, Hh, usable_image by assumption. reflexivity.
Qed.

(** Drawing an image element never throws, and leaves the size and the
    state of the context as they are. *)
Lemma drawImage_image_total b dx dy ctx :
  exists ctx', drawImage (ImageSource b) dx dy ctx = Ok ctx' /\
    width (canvas ctx') = width (canvas ctx) /\
    height (canvas ctx') = height (canvas ctx).
Proof.
  unfold drawImage, usable.
  destruct (Num.toInteger dx), (Num.toInteger dy); cbn; eauto.
  destruct ((width b <=? 0) || (height b <=? 0)); cbn; eauto.
Qed.

Lemma compose_over_opaque s d : alpha s = 255 -> compose SourceOver s d = s.
Proof. intros H. unfold compose. rewrite H. reflexivity. Qed.

Lemma compose_over_clear s d : alpha s = 0 -> compose SourceOver s d = d.
Proof. intros H. unfold compose. rewrite H. reflexivity. Qed.

Lemma stored_opaque p : alpha p = 255 -> stored p = p.
Proof. intros H. unfold stored, compose. rewrite H. reflexivity. Qed.

Lemma stored_clear p : alpha p = 0 -> stored p = transparentBlack.
Proof. intros H. unfold stored, compose. rewrite H. reflexivity. Qed.

(** A pixel that is opaque or fully transparent is held as it is. *)
Lemma stored_crisp p :
  alpha p = 0 \/ alpha p = 255 -> stored p = visible p.
Proof.
  intros [H|H].
  - rewrite (stored_clear p H). unfold visible. now rewrite H.
  - rewrite (stored_opaque p H). unfold visible. now rewrite H.
Qed.

Lemma compose_in_clear s d : alpha s = 0 -> compose DestinationIn s d = transparentBlack.
Proof. intros H. unfold compose. rewrite H. reflexivity. Qed.

Lemma compose_in_opaque s d :
  alpha s = 255 -> compose DestinationIn s d = visible d.
Proof.
  intros H. unfold compose, visible. rewrite H. cbn.
  destruct (alpha d <=? 0); reflexivity.
Qed.

Lemma visible_idem p : visible (visible p) = visible p.
Proof. unfold visible. destruct (alpha p <=? 0) eqn:E; cbn; [reflexivity|now rewrite E]. Qed.

Lemma visible_opaque p : alpha p = 255 -> visible p = p.
Proof. intros H. unfold visible. rewrite H. reflexivity. Qed.

Lemma placed_origin b x y :
  inside (width b) (height b) x y = true -> placed b 0 0 x y = pixelAt b x y.
Proof. intros H. unfold placed. rewrite !Z.sub_0_r, H. reflexivity. Qed.

Lemma placed_offset b X Y x y :
  inside (width b) (height b) x y = true ->
  placed b X Y (X + x) (Y + y) = pixelAt b x y.
Proof.
  intros H. unfold placed.
  replace (X + x - X) with x by lia. replace (Y + y - Y) with y by lia.
  rewrite H. reflexivity.
Qed.

Lemma placedScaled_origin b w h x y :
  inside w h x y = true -> placedScaled b 0 0 w h x y = resample b w h x y.
Proof. intros H. unfold placedScaled. rewrite !Z.sub_0_r, H. reflexivity. Qed.

Lemma toInteger_width b : raster b -> Num.toInteger (widthOf b) = Some (width b).
Proof.
  intros [[H1 H2] _]. apply toInteger_ofZ. change (2 ^ 53) with 9007199254740992. lia.
Qed.

Lemma toInteger_height b : raster b -> Num.toInteger (heightOf b) = Some (height b).
Proof.
  intros [_ [H1 H2]]. apply toInteger_ofZ. change (2 ^ 53) with 9007199254740992. lia.
Qed.

Lemma hasBitmap_backed c :
  0 < width c -> 0 < height c -> backed (width c) (height c) = true ->
  hasBitmap c = true.
Proof.
  intros Hw Hh Hb. unfold hasBitmap. rewrite Hb.
  destruct (0 <? width c) eqn:E1; [|apply Z.ltb_ge in E1; lia].
  destruct (0 <? height c) eqn:E2; [|apply Z.ltb_ge in E2; lia]. reflexivity.
Qed.

(** A pixel of the canvas takes what is drawn when the canvas has a
    bitmap. *)
Lemma paint_pixel l ctx x y :
  hasBitmap (canvas ctx) = true ->
  inside (width (canvas ctx)) (height (canvas ctx)) x y = true ->
  pixelAt (canvas (paint l ctx)) x y =
  compose (globalCompositeOperation ctx) (applyFilter (filter ctx) l x y)
          (pixelAt (canvas ctx) x y).
Proof. intros Hb Hin. cbn [paint canvas pixelAt]. now rewrite Hb, Hin. Qed.

(** Nothing is drawn beyond the width and the height of the canvas. *)
Lemma paint_outside l ctx x y :
  inside (width (canvas ctx)) (height (canvas ctx)) x y = false ->
  pixelAt (canvas (paint l ctx)) x y = pixelAt (canvas ctx) x y.
Proof.
  intros Hin. cbn [paint canvas pixelAt]. rewrite Hin, andb_false_r. reflexivity.
Qed.

(** Nothing is drawn on a canvas without a bitmap. *)
Lemma paint_unbacked l ctx x y :
  hasBitmap (canvas ctx) = false ->
  pixelAt (canvas (paint l ctx)) x y = pixelAt (canvas ctx) x y.
Proof. intros Hb. cbn [paint canvas pixelAt]. now rewrite Hb. Qed.

Lemma paint_size l ctx :
  width (canvas (paint l ctx)) = width (canvas ctx) /\
  height (canvas (paint l ctx)) = height (canvas ctx).
Proof. split; reflexivity. Qed.

Lemma hasBitmap_paint l ctx :
  hasBitmap (canvas (paint l ctx)) = hasBitmap (canvas ctx).
Proof. reflexivity. Qed.

(** What [strictComposite] leaves in each pixel of its canvas, when the
    platform gives a canvas of the size of the original a bitmap. *)
Lemma strictCompositeCanvas_pixels orig gen mask :
  raster orig -> raster mask ->
  backed (width orig) (height orig) = true ->
  exists ctx temp,
    strictCompositeCanvas orig gen mask = Ok ctx /\
    width (canvas ctx) = width orig /\
    height (canvas ctx) = height orig /\
    (forall x y, inside (width orig) (height orig) x y = true ->
       pixelAt (canvas ctx) x y =
       compose SourceOver
         (compose DestinationIn
            (resample mask (width orig) (height orig) x y) (temp x y))
         (stored (pixelAt orig x y))) /\
    (0 < width gen -> 0 < height gen ->
     forall x y, inside (width orig) (height orig) x y = true ->
       temp x y = stored (resample gen (width orig) (height orig) x y)).
Proof.
  intros Ho Hm Hbk. pose proof Ho as [[Hw1 Hw2] [Hh1 Hh2]].
  pose proof Hm as [[Mw1 _] [Mh1 _]].
  unfold strictCompositeCanvas.
  rewrite (drawImage_image orig _ _ 0 0) by (reflexivity || assumption).
  cbn [bind].
  set (ctx0 := newCanvas (widthOf orig) (heightOf orig)).
  assert (W0 : width (canvas ctx0) = width orig) by (cbn; apply canvasDim_ofZ; lia).
  assert (H0 : height (canvas ctx0) = height orig) by (cbn; apply canvasDim_ofZ; lia).
  assert (B0 : hasBitmap (canvas ctx0) = true)
    by (apply hasBitmap_backed; rewrite ?W0, ?H0; (lia || assumption)).
  set (ctx1 := paint (placed orig 0 0) ctx0).
  assert (W1 : width (canvas ctx1) = width orig) by exact W0.
  assert (H1 : height (canvas ctx1) = height orig) by exact H0.
  assert (B1 : hasBitmap (canvas ctx1) = true) by exact B0.
  assert (TW : Num.toInteger (canvasWidthOf ctx1) = Some (width orig)).
  { unfold canvasWidthOf. rewrite W1. now apply toInteger_width. }
  assert (TH : Num.toInteger (canvasHeightOf ctx1) = Some (height orig)).
  { unfold canvasHeightOf. rewrite H1. now apply toInteger_height. }
  set (temp0 := newCanvas (canvasWidthOf ctx1) (canvasHeightOf ctx1)).
  assert (D0 : width (canvas temp0) = width orig /\ height (canvas temp0) = height orig).
  { unfold temp0, canvasWidthOf, canvasHeightOf. rewrite W1, H1. cbn.
    split; apply canvasDim_ofZ; lia. }
  assert (BT : hasBitmap (canvas temp0) = true).
  { destruct D0 as [D1 D2].
    apply hasBitmap_backed; rewrite ?D1, ?D2; (lia || assumption). }
  assert (Hgen : exists temp1,
            drawImageScaled (ImageSource gen) 0 0 (canvasWidthOf ctx1)
              (canvasHeightOf ctx1) temp0 = Ok temp1 /\
            width (canvas temp1) = width orig /\
            height (canvas temp1) = height orig /\
            hasBitmap (canvas temp1) = true /\
            globalCompositeOperation temp1 = SourceOver /\
            filter temp1 = FilterNone /\
            (0 < width gen -> 0 < height gen ->
             forall x y, inside (width orig) (height orig) x y = true ->
               pixelAt (canvas temp1) x y =
               stored (resample gen (width orig) (height orig) x y))).
  { unfold drawImageScaled. rewrite TW, TH.
    change (Num.toInteger 0%float) with (Some 0). cbn [bind].
    unfold usable. destruct ((width gen <=? 0) || (height gen <=? 0)) eqn:E; cbn [bind ret].
    - exists temp0. repeat split; try tauto.
      intros G1 G2. apply orb_true_iff in E as [E|E]; apply Z.leb_le in E; lia.
    - eexists. split; [reflexivity|].
      repeat split; try tauto.
      intros _ _ x y Hin.
      rewrite paint_pixel;
        [|exact BT|rewrite (proj1 D0), (proj2 D0); exact Hin].
      cbn [temp0 newCanvas globalCompositeOperation filter applyFilter canvas pixelAt].
      now rewrite placedScaled_origin by assumption. }
  destruct Hgen as (temp1 & -> & TW1 & TH1 & BT1 & Op1 & F1 & Pix1). cbn [bind].
  rewrite (drawImageScaled_image mask _ _ _ _ 0 0 (width orig) (height orig))
    by (reflexivity || assumption).
  cbn [bind].
  set (temp3 := paint _ (setOperation DestinationIn temp1)).
  rewrite (drawImage_canvas (canvas temp3) _ _ 0 0);
    [|reflexivity|reflexivity|cbn; lia|cbn; lia].
  exists (paint (placed (canvas temp3) 0 0) ctx1), (pixelAt (canvas temp1)).
  split; [reflexivity|]. split; [exact W1|]. split; [exact H1|]. split; [|exact Pix1].
  intros x y Hin.
  assert (P1 : pixelAt (canvas ctx1) x y = stored (pixelAt orig x y)).
  { unfold ctx1. rewrite paint_pixel; [|exact B0|rewrite W0, H0; exact Hin].
    cbn [ctx0 newCanvas globalCompositeOperation filter applyFilter canvas pixelAt].
    now rewrite (placed_origin orig) by assumption. }
  assert (P3 : placed (canvas temp3) 0 0 x y =
               compose DestinationIn
                 (resample mask (width orig) (height orig) x y)
                 (pixelAt (canvas temp1) x y)).
  { rewrite placed_origin.
    - unfold temp3. rewrite paint_pixel;
        [|exact BT1|cbn [setOperation canvas]; rewrite TW1, TH1; exact Hin].
      cbn [setOperation globalCompositeOperation filter canvas]. rewrite F1.
      cbn [applyFilter]. now rewrite placedScaled_origin.
    - unfold temp3. cbn [paint canvas width height setOperation].
      rewrite TW1, TH1. exact Hin. }
  rewrite paint_pixel; [|exact B1|rewrite W1, H1; exact Hin].
  rewrite P1. change (globalCompositeOperation ctx1) with SourceOver.
  change (filter ctx1) with FilterNone. cbn [applyFilter]. rewrite P3. reflexivity.
Qed.

End CanvasFacts.

(* ================================================================== *)
(** * The reference platform *)
(* ================================================================== *)

(** Nearest-neighbour scaling reads every pixel it delivers from the
    image, so it keeps an image transparent or opaque throughout. *)
Lemma reference_scaling : scalingKeepsCoverage Reference.browser.
Proof.
  intros b dw dh a _ [[Hw _] [Hh _]] Hu x y Hin.
  cbn [resample Reference.browser]. unfold Reference.nearest. apply Hu.
  unfold inside in *.
  apply andb_true_iff in Hin as [Hin Hy2]. apply andb_true_iff in Hin as [Hin Hy1].
  apply andb_true_iff in Hin as [Hx1 Hx2].
  apply Z.leb_le in Hx1, Hy1. apply Z.ltb_lt in Hx2, Hy2.
  repeat (apply andb_true_iff; split).
  - apply Z.leb_le. apply Z.div_pos; nia.
  - apply Z.ltb_lt. apply Z.div_lt_upper_bound; nia.
  - apply Z.leb_le. apply Z.div_pos; nia.
  - apply Z.ltb_lt. apply Z.div_lt_upper_bound; nia.
Qed.

(* ================================================================== *)
(** * Strict composite *)
(* ================================================================== *)

(** With a mask that is opaque throughout, [strictComposite] shows the
    candidate wherever the candidate is opaque. *)
Lemma strictComposite_under_opaque_mask {B : Browser}
  originalB64 generatedB64 maskB64 orig gen mask :
  scalingKeepsCoverage B ->
  decode originalB64 = Some orig ->
  decode generatedB64 = Some gen ->
  decode maskB64 = Some mask ->
  raster orig -> raster gen -> raster mask ->
  backed (width orig) (height orig) = true ->
  uniformAlpha 255 mask -> uniformAlpha 255 gen ->
  exists ctx,
    strictComposite originalB64 generatedB64 maskB64 = Ok (toDataURL ctx) /\
    toDataURL ctx = "data:image/png;base64," ++ encodePNG (canvas ctx) /\
    pixelIdentical (canvas ctx) (stretched gen (width orig) (height orig)).
Proof.
  intros Hscale Ho Hg Hm Ro Rg Rm Hbk Hmask Hgen.
  destruct (strictCompositeCanvas_pixels orig gen mask Ro Rm Hbk)
    as (ctx & temp & Hctx & Hw & Hh & Hpix & Htemp).
  exists ctx. split; [|split].
  - unfold strictComposite, loadImage. rewrite Ho, Hg, Hm. cbn [bind].
    rewrite Hctx. reflexivity.
  - unfold toDataURL. rewrite hasBitmap_backed; [reflexivity| | |];
      rewrite ?Hw, ?Hh; try assumption; destruct Ro; lia.
  - split; [exact Hw|]. split; [exact Hh|]. cbn [stretched width height pixelAt].
    intros x y Hin. rewrite (Hpix x y Hin).
    assert (Ha : alpha (resample gen (width orig) (height orig) x y) = 255)
      by (apply (Hscale gen); auto).
    rewrite compose_in_opaque by (apply (Hscale mask); auto).
    destruct Rg as [[Gw _] [Gh _]].
    rewrite (Htemp Gw Gh x y Hin), (stored_opaque _ Ha), !(visible_opaque _ Ha).
    rewrite compose_over_opaque by exact Ha. now rewrite ?(visible_opaque _ Ha).
Qed.

(** C1, as stated, fails: the mask is read through its alpha channel
    only. With an opaque black mask (zero luminance, alpha 255), a red
    original and a blue candidate, the canvas holds the candidate's blue
    pixel, not the original's. *)
Lemma strictComposite_opaque_black_mask :
  let orig := Reference.solid 1 1 Reference.redPixel in
  let gen := Reference.solid 1 1 Reference.bluePixel in
  let mask := Reference.solid 1 1 black in
  (forall x y, red (pixelAt mask x y) = 0 /\ green (pixelAt mask x y) = 0 /\
               blue (pixelAt mask x y) = 0) /\
  decode (Browser := Reference.browser) (Reference.url "RED") = Some orig /\
  decode (Browser := Reference.browser) (Reference.url "BLUE") = Some gen /\
  decode (Browser := Reference.browser) (Reference.url "BLACK") = Some mask /\
  exists ctx,
    strictComposite (B := Reference.browser)
      (Reference.url "RED") (Reference.url "BLUE") (Reference.url "BLACK")
    = Ok (toDataURL (B := Reference.browser) ctx) /\
    strictCompositeCanvas (B := Reference.browser) orig gen mask = Ok ctx /\
    pixelAt (canvas ctx) 0 0 = Reference.bluePixel /\
    ~ pixelIdentical (canvas ctx) orig.
Proof.
  cbv zeta. split; [intros; repeat split|].
  split; [reflexivity|]. split; [reflexivity|]. split; [reflexivity|].
  destruct (strictCompositeCanvas_pixels (B := Reference.browser)
              (Reference.solid 1 1 Reference.redPixel)
              (Reference.solid 1 1 Reference.bluePixel)
              (Reference.solid 1 1 black))
    as (ctx & temp & Hctx & _ & _ & Hpix & Htemp);
    try (apply raster_solid; lia); [reflexivity|].
  assert (P : pixelAt (canvas ctx) 0 0 = Reference.bluePixel).
  { rewrite (Hpix 0 0 eq_refl), (Htemp eq_refl eq_refl 0 0 eq_refl). reflexivity. }
  exists ctx. split; [|split; [exact Hctx|split; [exact P|]]].
  - unfold strictComposite.
    change (loadImage (B := Reference.browser) (Reference.url "RED"))
      with (Ok (Reference.solid 1 1 Reference.redPixel)).
    change (loadImage (B := Reference.browser) (Reference.url "BLUE"))
      with (Ok (Reference.solid 1 1 Reference.bluePixel)).
    change (loadImage (B := Reference.browser) (Reference.url "BLACK"))
      with (Ok (Reference.solid 1 1 black)).
    cbn [bind]. rewrite Hctx. reflexivity.
  - intros (_ & _ & H). specialize (H 0 0 eq_refl). rewrite P in H. discriminate.
Qed.

(** C1, amended. When the three inputs decode, the original and the mask
    are rasters, the platform gives a canvas of the size of the original
    a bitmap and every pixel of the mask is fully transparent (alpha 0,
    whatever its colour), [strictComposite] returns the PNG data URL of
    a canvas of the size of the original that holds, in every pixel,
    what a canvas holds of the original's pixel drawn on it. For an
    original without partly transparent pixels that canvas is
    pixel-identical to the original. *)
Theorem strictComposite_transparent_mask {B : Browser} :
  forall originalB64 generatedB64 maskB64 orig gen mask,
    scalingKeepsCoverage B ->
    decode originalB64 = Some orig ->
    decode generatedB64 = Some gen ->
    decode maskB64 = Some mask ->
    raster orig -> raster mask ->
    backed (width orig) (height orig) = true ->
    uniformAlpha 0 mask ->
    exists ctx,
      strictComposite originalB64 generatedB64 maskB64 = Ok (toDataURL ctx) /\
      toDataURL ctx = "data:image/png;base64," ++ encodePNG (canvas ctx) /\
      width (canvas ctx) = width orig /\ height (canvas ctx) = height orig /\
      (forall x y, inside (width orig) (height orig) x y = true ->
         pixelAt (canvas ctx) x y = stored (pixelAt orig x y)) /\
      (crisp orig -> pixelIdentical (canvas ctx) orig).
Proof.
  intros o g m orig gen mask Hscale Ho Hg Hm Ro Rm Hbk Hmask.
  destruct (strictCompositeCanvas_pixels orig gen mask Ro Rm Hbk)
    as (ctx & temp & Hctx & Hw & Hh & Hpix & _).
  assert (P : forall x y, inside (width orig) (height orig) x y = true ->
                pixelAt (canvas ctx) x y = stored (pixelAt orig x y)).
  { intros x y Hin. rewrite (Hpix x y Hin).
    rewrite compose_in_clear by (apply (Hscale mask); auto).
    now rewrite compose_over_clear by reflexivity. }
  exists ctx. split; [|split; [|split; [exact Hw|split; [exact Hh|split; [exact P|]]]]].
  - unfold strictComposite, loadImage. rewrite Ho, Hg, Hm. cbn [bind].
    rewrite Hctx. reflexivity.
  - unfold toDataURL. rewrite hasBitmap_backed; [reflexivity| | |];
      rewrite ?Hw, ?Hh; try assumption; destruct Ro; lia.
  - intros Hc. split; [exact Hw|]. split; [exact Hh|].
    intros x y Hin. rewrite (P x y Hin), (stored_crisp _ (Hc x y Hin)).
    apply visible_idem.
Qed.


Lemma strictComposite_transparent_mask_witness :
  exists ctx,
    strictComposite (B := Reference.browser)
      (Reference.url "RED") (Reference.url "BLUE") (Reference.url "CLEAR")
    = Ok (toDataURL (B := Reference.browser) ctx) /\
    pixelAt (canvas ctx) 0 0 = Reference.redPixel /\
    pixelIdentical (canvas ctx) (Reference.solid 1 1 Reference.redPixel).
Proof.
  destruct (strictComposite_transparent_mask (B := Reference.browser)
              (Reference.url "RED") (Reference.url "BLUE") (Reference.url "CLEAR")
              (Reference.solid 1 1 Reference.redPixel)
              (Reference.solid 1 1 Reference.bluePixel)
              (Reference.solid 1 1 transparentBlack) reference_scaling
              eq_refl eq_refl eq_refl
              (raster_solid 1 1 _ ltac:(lia) ltac:(lia))
              (raster_solid 1 1 _ ltac:(lia) ltac:(lia))
              eq_refl (fun x y _ => eq_refl))
    as (ctx & Hs & _ & _ & _ & Hpix & Hid).
  exists ctx. split; [exact Hs|]. split.
  - exact (Hpix 0 0 eq_refl).
  - apply Hid. intros x y _. right. reflexivity.
Defined.

(** C2, as stated, fails: the masked candidate is drawn over the
    original, so where the candidate is transparent the original shows.
    With an opaque white mask, a red original and a fully transparent
    candidate, the canvas holds the original's red pixel, not the
    candidate's transparent one. *)
Lemma strictComposite_transparent_candidate :
  let orig := Reference.solid 1 1 Reference.redPixel in
  let gen := Reference.solid 1 1 transparentBlack in
  let mask := Reference.solid 1 1 white in
  (forall x y, pixelAt mask x y = white) /\
  decode (Browser := Reference.browser) (Reference.url "RED") = Some orig /\
  decode (Browser := Reference.browser) (Reference.url "CLEAR") = Some gen /\
  decode (Browser := Reference.browser) (Reference.url "WHITE") = Some mask /\
  exists ctx,
    strictComposite (B := Reference.browser)
      (Reference.url "RED") (Reference.url "CLEAR") (Reference.url "WHITE")
    = Ok (toDataURL (B := Reference.browser) ctx) /\
    strictCompositeCanvas (B := Reference.browser) orig gen mask = Ok ctx /\
    pixelAt (canvas ctx) 0 0 = Reference.redPixel /\
    ~ pixelIdentical (canvas ctx) (stretched (B := Reference.browser) gen 1 1).
Proof.
  cbv zeta. split; [intros; reflexivity|].
  split; [reflexivity|]. split; [reflexivity|]. split; [reflexivity|].
  destruct (strictCompositeCanvas_pixels (B := Reference.browser)
              (Reference.solid 1 1 Reference.redPixel)
              (Reference.solid 1 1 transparentBlack)
              (Reference.solid 1 1 white))
    as (ctx & temp & Hctx & _ & _ & Hpix & Htemp);
    try (apply raster_solid; lia); [reflexivity|].
  assert (P : pixelAt (canvas ctx) 0 0 = Reference.redPixel).
  { rewrite (Hpix 0 0 eq_refl), (Htemp eq_refl eq_refl 0 0 eq_refl). reflexivity. }
  exists ctx. split; [|split; [exact Hctx|split; [exact P|]]].
  - unfold strictComposite.
    change (loadImage (B := Reference.browser) (Reference.url "RED"))
      with (Ok (Reference.solid 1 1 Reference.redPixel)).
    change (loadImage (B := Reference.browser) (Reference.url "CLEAR"))
      with (Ok (Reference.solid 1 1 transparentBlack)).
    change (loadImage (B := Reference.browser) (Reference.url "WHITE"))
      with (Ok (Reference.solid 1 1 white)).
    cbn [bind]. rewrite Hctx. reflexivity.
  - intros (_ & _ & H). specialize (H 0 0 eq_refl). rewrite P in H. discriminate.
Qed.

(** C2, amended. When the three inputs decode to rasters, the platform
    gives a canvas of the size of the original a bitmap, every pixel of
    the mask is opaque (alpha 255, whatever its colour) and every pixel
    of the candidate is opaque, [strictComposite] returns the PNG data
    URL of a canvas that is pixel-identical to the candidate stretched
    to the original's width and height. *)
Theorem strictComposite_opaque_mask {B : Browser} :
  forall originalB64 generatedB64 maskB64 orig gen mask,
    scalingKeepsCoverage B ->
    decode originalB64 = Some orig ->
    decode generatedB64 = Some gen ->
    decode maskB64 = Some mask ->
    raster orig -> raster gen -> raster mask ->
    backed (width orig) (height orig) = true ->
    uniformAlpha 255 mask ->
    uniformAlpha 255 gen ->
    exists ctx,
      strictComposite originalB64 generatedB64 maskB64 = Ok (toDataURL ctx) /\
      toDataURL ctx = "data:image/png;base64," ++ encodePNG (canvas ctx) /\
      pixelIdentical (canvas ctx) (stretched gen (width orig) (height orig)).
Proof.
  intros o g m orig gen mask Hscale Ho Hg Hm Ro Rg Rm Hbk Hmask Hgen.
  exact (strictComposite_under_opaque_mask o g m orig gen mask
           Hscale Ho Hg Hm Ro Rg Rm Hbk Hmask Hgen).
Qed.


Lemma strictComposite_opaque_mask_witness :
  exists ctx,
    strictComposite (B := Reference.browser)
      (Reference.url "RED") (Reference.url "BLUE") (Reference.url "WHITE")
    = Ok (toDataURL (B := Reference.browser) ctx) /\
    toDataURL (B := Reference.browser) ctx =
      "data:image/png;base64," ++ encodePNG (Browser := Reference.browser) (canvas ctx) /\
    pixelIdentical (canvas ctx)
      (stretched (B := Reference.browser)
         (Reference.solid 1 1 Reference.bluePixel) 1 1).
Proof.
  apply (strictComposite_opaque_mask (B := Reference.browser)
           _ _ _ (Reference.solid 1 1 Reference.redPixel)
           (Reference.solid 1 1 Reference.bluePixel)
           (Reference.solid 1 1 white) reference_scaling);
    try reflexivity; try (apply raster_solid; lia);
    intros x y _; reflexivity.
Defined.

(** C3. [strictComposite] always settles with a string, and when one of
    the three inputs fails to decode that string is the candidate it was
    given, unchanged. *)
Theorem strictComposite_never_fails {B : Browser} :
  forall originalB64 generatedB64 maskB64,
    (exists s, strictComposite originalB64 generatedB64 maskB64 = Ok s) /\
    (decode originalB64 = None \/ decode generatedB64 = None \/
     decode maskB64 = None ->
     strictComposite originalB64 generatedB64 maskB64 = Ok generatedB64).
Proof.
  intros o g m. unfold strictComposite, loadImage.
  destruct (decode o) as [orig|], (decode g) as [gen|], (decode m) as [mask|];
    cbn [bind try_catch ret];
    try (split; [eexists; reflexivity|intros _; reflexivity]).
  destruct (strictCompositeCanvas orig gen mask) as [ctx|e]; cbn [bind try_catch ret].
  - split; [eexists; reflexivity|]. intros [H|[H|H]]; discriminate.
  - split; [eexists; reflexivity|reflexivity].
Qed.


Lemma strictComposite_never_fails_witness :
  strictComposite (B := Reference.browser)
    (Reference.url "RED") "not an image" (Reference.url "WHITE")
  = Ok "not an image".
Proof.
  apply (proj2 (strictComposite_never_fails (B := Reference.browser)
                  (Reference.url "RED") "not an image" (Reference.url "WHITE"))).
  right. left. reflexivity.
Defined.

(* ================================================================== *)
(** * Foreground over background *)
(* ================================================================== *)

(** C7. The result of [compositeImage] does not depend on [box]: two
    calls that differ in the box only give the same result. *)
Theorem compositeImage_ignores_box {B : Browser} :
  forall bgImage fgImage box1 box2 maskImage options,
    compositeImage bgImage fgImage box1 maskImage options =
    compositeImage bgImage fgImage box2 maskImage options.
Proof. reflexivity. Qed.

(* ================================================================== *)
(** * Padding to an aspect ratio *)
(* ================================================================== *)

Section PaddingFacts.
Context {B : Browser}.

Lemma setFillStyle_state color ctx :
  canvas (setFillStyle color ctx) = canvas ctx /\
  globalCompositeOperation (setFillStyle color ctx) = globalCompositeOperation ctx /\
  filter (setFillStyle color ctx) = filter ctx.
Proof. unfold setFillStyle. destruct (cssColor color); cbn; auto. Qed.

Lemma fillRect_state rx ry rw rh ctx :
  width (canvas (fillRect rx ry rw rh ctx)) = width (canvas ctx) /\
  height (canvas (fillRect rx ry rw rh ctx)) = height (canvas ctx) /\
  globalCompositeOperation (fillRect rx ry rw rh ctx) = globalCompositeOperation ctx /\
  filter (fillRect rx ry rw rh ctx) = filter ctx.
Proof.
  unfold fillRect.
  destruct (Num.toInteger rx), (Num.toInteger ry), (Num.toInteger rw),
    (Num.toInteger rh); cbn; auto.
Qed.

Lemma hasBitmap_size c c' :
  width c' = width c -> height c' = height c -> hasBitmap c' = hasBitmap c.
Proof. intros Hw Hh. unfold hasBitmap. now rewrite Hw, Hh. Qed.


(** Drawing an image at integer offsets onto a context in its initial
    drawing state composes every pixel of the image that falls on the
    canvas over the canvas at its place. *)
Lemma drawImage_pixel img ddx ddy X Y ctx :
  Num.toInteger ddx = Some X -> Num.toInteger ddy = Some Y ->
  0 < width img -> 0 < height img ->
  globalCompositeOperation ctx = SourceOver -> filter ctx = FilterNone ->
  exists ctx',
    drawImage (ImageSource img) ddx ddy ctx = Ok ctx' /\
    width (canvas ctx') = width (canvas ctx) /\
    height (canvas ctx') = height (canvas ctx) /\
    (hasBitmap (canvas ctx) = true ->
     forall x y, inside (width img) (height img) x y = true ->
       inside (width (canvas ctx)) (height (canvas ctx)) (X + x) (Y + y) = true ->
       pixelAt (canvas ctx') (X + x) (Y + y) =
       compose SourceOver (pixelAt img x y) (pixelAt (canvas ctx) (X + x) (Y + y))).
Proof.
  intros Hx Hy Hw Hh Hop Hf.
  exists (paint (placed img X Y) ctx). split; [now apply drawImage_image|].
  split; [reflexivity|]. split; [reflexivity|].
  intros Hb x y Hin Hon. rewrite paint_pixel, Hop, Hf by assumption.
  cbn [applyFilter]. now rewrite placed_offset.
Qed.



(** The canvas that [padImageToAspectRatioWithColor] builds has the size
    [padSize] gives for the size of the image. *)
Lemma padCanvas_size img targetAspectRatio color :
  exists ctx,
    padCanvas img targetAspectRatio color = Ok ctx /\
    (width (canvas ctx), height (canvas ctx)) =
    padSize (width img) (height img) targetAspectRatio.
Proof.
  unfold padCanvas, padSize. fold (widthOf img) (heightOf img).
  set (g := padGeometry (widthOf img) (heightOf img) targetAspectRatio).
  set (ctx0 := fillRect _ _ _ _ _).
  destruct (drawImage_image_total img (dx g) (dy g) ctx0) as (ctx & -> & Hw & Hh).
  exists ctx. split; [reflexivity|]. rewrite Hw, Hh. unfold ctx0.
  rewrite (proj1 (fillRect_state _ _ _ _ _)),
          (proj1 (proj2 (fillRect_state _ _ _ _ _))),
          (proj1 (setFillStyle_state _ _)).
  reflexivity.
Qed.


End PaddingFacts.

(** For the square ratio both passes are exact: the canvas is the
    square on the width when the test width/height > 1 holds and the
    square on the height otherwise, and padding it again gives it
    back. *)
Lemma padSize_square w h :
  0 < w <= 2147483647 -> 0 < h <= 2147483647 ->
  padSize w h 1%float =
  if widerThan (Num.ofZ w) (Num.ofZ h) 1%float then (w, w) else (h, h).
Proof.
  intros Hw Hh.
  destruct (ofZ_normal w) as (mw & ew & Pw & Dw & Ew);
    [change (2 ^ 53) with 9007199254740992; lia|].
  destruct (ofZ_normal h) as (mh & eh & Ph & Dh & Eh);
    [change (2 ^ 53) with 9007199254740992; lia|].
  unfold padSize, padGeometry, widerThan.
  destruct (Num.gtb (Num.ofZ w / Num.ofZ h)%float 1%float);
    cbn [canvasWidth canvasHeight].
  - rewrite (float_div_one _ _ _ Pw Dw) by lia.
    rewrite round_ofZ by (change (2 ^ 53) with 9007199254740992; lia).
    now rewrite !canvasDim_ofZ by lia.
  - rewrite (float_mul_one _ _ _ Ph Dh) by lia.
    rewrite round_ofZ by (change (2 ^ 53) with 9007199254740992; lia).
    now rewrite !canvasDim_ofZ by lia.
Qed.

Lemma padSize_square_idempotent w h :
  0 < w <= 2147483647 -> 0 < h <= 2147483647 ->
  padSize (fst (padSize w h 1%float)) (snd (padSize w h 1%float)) 1%float
  = padSize w h 1%float.
Proof.
  intros Hw Hh. rewrite (padSize_square w h Hw Hh).
  assert (Same : forall n, 0 < n <= 2147483647 -> padSize n n 1%float = (n, n)).
  { intros n Hn. rewrite (padSize_square n n Hn Hn). unfold widerThan.
    destruct (ofZ_normal n) as (m & e & P & D & E);
      [change (2 ^ 53) with 9007199254740992; lia|].
    rewrite (float_div_self _ _ _ P D). reflexivity. }
  destruct (widerThan (Num.ofZ w) (Num.ofZ h) 1%float); cbn [fst snd]; now apply Same.
Qed.



(** C5, as stated, fails: the padded size is rounded to whole pixels, so
    the padded image is only near the target ratio, and padding it again
    can grow the other dimension. A 500x1000 image padded to 9:16
    (0.5625) becomes 563x1000, and that one padded again 563x1001; a 1x2
    image padded to 0.75 becomes 2x2, then 2x3. *)
Lemma padSize_grows_again :
  padSize 500 1000 0.5625%float = (563, 1000) /\
  padSize 563 1000 0.5625%float = (563, 1001) /\
  padSize 1 2 0.75%float = (2, 2) /\
  padSize 2 2 0.75%float = (2, 3).
Proof. repeat split; vm_compute; reflexivity. Qed.


(** The canvas size of the geometry block. *)
Lemma padGeometry_size a b r :
  canvasWidth (padGeometry a b r) =
    (if widerThan a b r then a else Num.round (b * r)%float) /\
  canvasHeight (padGeometry a b r) =
    (if widerThan a b r then Num.round (a / r)%float else b).
Proof.
  unfold padGeometry, widerThan. destruct (Num.gtb (a / b)%float r); split; reflexivity.
Qed.

(** The second pass, written out: on the same side of the test the
    size comes back; on the other side the dimension the first pass
    computed comes back and the other one is computed anew. *)
Lemma padSize_again w h r :
  let g := padGeometry (Num.ofZ w) (Num.ofZ h) r in
  let W := fst (padSize w h r) in
  let H := snd (padSize w h r) in
  Num.ofZ W = canvasWidth g ->
  Num.ofZ H = canvasHeight g ->
  padSize W H r =
  if Bool.eqb (widerThan (Num.ofZ W) (Num.ofZ H) r)
              (widerThan (Num.ofZ w) (Num.ofZ h) r)
  then (W, H)
  else if widerThan (Num.ofZ w) (Num.ofZ h) r
       then (canvasDim 300 (Num.round (Num.ofZ H * r)%float), H)
       else (W, canvasDim 150 (Num.round (Num.ofZ W / r)%float)).
Proof.
  cbv zeta. 
  set (g := padGeometry (Num.ofZ w) (Num.ofZ h) r).
  change (padSize w h r) with (canvasDim 300 (canvasWidth g), canvasDim 150 (canvasHeight g)).
  cbn [fst snd].
  set (W := canvasDim 300 (canvasWidth g)). set (H := canvasDim 150 (canvasHeight g)).
  intros HW HH.
  change (padSize W H r)
    with (canvasDim 300 (canvasWidth (padGeometry (Num.ofZ W) (Num.ofZ H) r)),
          canvasDim 150 (canvasHeight (padGeometry (Num.ofZ W) (Num.ofZ H) r))).
  destruct (padGeometry_size (Num.ofZ W) (Num.ofZ H) r) as [-> ->].
  destruct (padGeometry_size (Num.ofZ w) (Num.ofZ h) r) as [Gw Gh]. fold g in Gw, Gh.
  destruct (widerThan (Num.ofZ W) (Num.ofZ H) r) eqn:E2,
           (widerThan (Num.ofZ w) (Num.ofZ h) r) eqn:E1; cbn [Bool.eqb].
  - rewrite HW at 1 2. rewrite Gw at 2. fold W. f_equal. rewrite <- Gh. reflexivity.
  - rewrite HW at 1. fold W. reflexivity.
  - rewrite HH at 2. fold H. reflexivity.
  - rewrite HH at 1 2. rewrite Gh at 1. rewrite <- Gw. fold W H. reflexivity.
Qed.


(** C5, amended. The canvas that [padImageToAspectRatioWithColor]
    allocates for an image has the size [padSize] computes from the size
    of the image and the ratio. For the square ratio 1.0, an image of
    the size of the once-padded canvas is given a canvas of that size
    again. For any ratio r, when the canvas has taken the computed size
    W x H: padding an image of that size never changes the dimension
    the first padding computed (the height for a source wider than r,
    the width for the others); and it gives the size W x H again
    exactly when the padded image falls on the same side of the test
    width/height > r as the source did, or the first padding computed
    the height and round(H * r) is W, or it computed the width and
    round(W / r) is H. *)
Theorem padSize_second_pass {B : Browser} :
  (forall img r color,
     exists ctx,
       padCanvas img r color = Ok ctx /\
       (width (canvas ctx), height (canvas ctx)) =
       padSize (width img) (height img) r) /\
  (forall w h,
     0 < w <= 2147483647 -> 0 < h <= 2147483647 ->
     padSize (fst (padSize w h 1%float)) (snd (padSize w h 1%float)) 1%float
     = padSize w h 1%float) /\
  (forall w h r,
     let g := padGeometry (Num.ofZ w) (Num.ofZ h) r in
     let W := fst (padSize w h r) in
     let H := snd (padSize w h r) in
     Num.ofZ W = canvasWidth g ->
     Num.ofZ H = canvasHeight g ->
     (if widerThan (Num.ofZ w) (Num.ofZ h) r
      then snd (padSize W H r) = H
      else fst (padSize W H r) = W) /\
     (padSize W H r = (W, H) <->
      widerThan (Num.ofZ W) (Num.ofZ H) r = widerThan (Num.ofZ w) (Num.ofZ h) r \/
      (widerThan (Num.ofZ w) (Num.ofZ h) r = true /\
       canvasDim 300 (Num.round (Num.ofZ H * r)%float) = W) \/
      (widerThan (Num.ofZ w) (Num.ofZ h) r = false /\
       canvasDim 150 (Num.round (Num.ofZ W / r)%float) = H))).
Proof.
  split; [exact padCanvas_size|].
  split; [exact padSize_square_idempotent|].
  intros w h r g W H HW HH.
  pose proof (padSize_again w h r HW HH) as E. fold W H in E. rewrite E.
  destruct (widerThan (Num.ofZ W) (Num.ofZ H) r) eqn:E2,
           (widerThan (Num.ofZ w) (Num.ofZ h) r) eqn:E1; cbn [Bool.eqb fst snd].
  - split; [reflexivity|]. split; [now left|reflexivity].
  - split; [reflexivity|]. split.
    + intros [= K]. right. right. split; [reflexivity|exact K].
    + intros [K|[[K _]|[_ K]]]; [discriminate K|discriminate K|now rewrite K].
  - split; [reflexivity|]. split.
    + intros [= K]. right. left. split; [reflexivity|exact K].
    + intros [K|[[_ K]|[K _]]]; [discriminate K|now rewrite K|discriminate K].
  - split; [reflexivity|]. split; [now left|reflexivity].
Qed.

Lemma padSize_second_pass_witness :
  padSize 200 200 1%float = (200, 200) /\
  padSize 133 100 1.333%float = (133, 100) /\
  padSize 4 5 0.75%float = (4, 5) /\
  fst (padSize 563 1000 0.5625%float) = 563.
Proof.
  pose proof (padSize_second_pass (B := Reference.browser)) as (_ & Hsq & Hany).
  refine (conj _ (conj _ (conj _ _))).
  - exact (Hsq 200 100 ltac:(lia) ltac:(lia)).
  - exact (proj2 (proj2 (Hany 100 100 1.333%float eq_refl eq_refl))
             (or_introl eq_refl)).
  - exact (proj2 (proj2 (Hany 3 5 0.75%float eq_refl eq_refl))
             (or_intror (or_intror (conj eq_refl eq_refl)))).
  - exact (proj1 (Hany 500 1000 0.5625%float eq_refl eq_refl)).
Defined.

(* ================================================================== *)
(** * Outpainting *)
(* ================================================================== *)

Section OutpaintFacts.
Context {B : Browser} {R : Remote}.

Lemma drawImageScaled_image_state b ddx ddy dw dh ctx :
  exists ctx', drawImageScaled (ImageSource b) ddx ddy dw dh ctx = Ok ctx' /\
    globalCompositeOperation ctx' = globalCompositeOperation ctx /\
    filter ctx' = filter ctx /\
    width (canvas ctx') = width (canvas ctx) /\
    height (canvas ctx') = height (canvas ctx).
Proof.
  unfold drawImageScaled, usable.
  destruct (Num.toInteger ddx), (Num.toInteger ddy), (Num.toInteger dw),
    (Num.toInteger dh); cbn; eauto 6.
  destruct ((width b <=? 0) || (height b <=? 0)); cbn; eauto 6.
Qed.

(** The finishing step: each pixel of the source that falls on the
    canvas is composed over what the stretched answer left at its
    place. *)
Lemma finalCanvas_pixels img resultImg g X Y :
  raster img ->
  Num.toInteger (dx g) = Some X -> Num.toInteger (dy g) = Some Y ->
  exists fCtx under,
    Sdk.finalCanvas img resultImg g = Ok fCtx /\
    drawImageScaled (ImageSource resultImg) 0%float 0%float
      (canvasWidth g) (canvasHeight g)
      (newCanvas (canvasWidth g) (canvasHeight g)) = Ok under /\
    width (canvas fCtx) = canvasDim 300 (canvasWidth g) /\
    height (canvas fCtx) = canvasDim 150 (canvasHeight g) /\
    (hasBitmap (canvas fCtx) = true ->
     forall x y, inside (width img) (height img) x y = true ->
       inside (width (canvas fCtx)) (height (canvas fCtx)) (X + x) (Y + y) = true ->
       pixelAt (canvas fCtx) (X + x) (Y + y) =
       compose SourceOver (pixelAt img x y)
         (pixelAt (canvas under) (X + x) (Y + y))).
Proof.
  intros [[Hw _] [Hh _]] HX HY. unfold Sdk.finalCanvas.
  destruct (drawImageScaled_image_state resultImg 0%float 0%float
              (canvasWidth g) (canvasHeight g)
              (newCanvas (canvasWidth g) (canvasHeight g)))
    as (c1 & -> & Hop & Hf & Cw & Ch).
  cbn [bind].
  destruct (drawImage_pixel img (dx g) (dy g) X Y c1 HX HY Hw Hh Hop Hf)
    as (fCtx & Hd & Fw & Fh & Hpix).
  exists fCtx, c1. split; [exact Hd|]. split; [reflexivity|].
  rewrite (hasBitmap_size (canvas c1) (canvas fCtx) Fw Fh), Fw, Fh.
  split; [exact Cw|]. split; [exact Ch|]. exact Hpix.
Qed.

Lemma finalCanvas_keeps_opaque img resultImg g X Y :
  raster img ->
  Num.toInteger (dx g) = Some X -> Num.toInteger (dy g) = Some Y ->
  exists fCtx,
    Sdk.finalCanvas img resultImg g = Ok fCtx /\
    width (canvas fCtx) = canvasDim 300 (canvasWidth g) /\
    height (canvas fCtx) = canvasDim 150 (canvasHeight g) /\
    (hasBitmap (canvas fCtx) = true ->
     forall x y, inside (width img) (height img) x y = true ->
       inside (width (canvas fCtx)) (height (canvas fCtx)) (X + x) (Y + y) = true ->
       alpha (pixelAt img x y) = 255 ->
       pixelAt (canvas fCtx) (X + x) (Y + y) = pixelAt img x y).
Proof.
  intros Hr HX HY.
  destruct (finalCanvas_pixels img resultImg g X Y Hr HX HY)
    as (fCtx & under & Hfinal & _ & Fw & Fh & Hpix).
  exists fCtx. repeat (split; [assumption|]).
  intros Hb x y Hin Hon Ha. rewrite (Hpix Hb x y Hin Hon).
  now apply compose_over_opaque.
Qed.

(** [outpaintImage] returns the data URL of the finishing canvas when
    the source decodes and the model answers with an inline image that
    decodes. *)
Lemma outpaintImage_finishes sourceImage targetAspectRatio prompt
  img parts m d resultImg fCtx :
  decode (sourceImageToDataUrl sourceImage) = Some img ->
  (forall request,
     generateContent "gemini-2.5-flash-image" request = Ok (Some parts)) ->
  Sdk.findInlineData parts = Some (m, d) ->
  JS.falsy d = false ->
  decode ("data:" ++ (if JS.falsy m then "image/png" else m) ++ ";base64," ++ d)
    = Some resultImg ->
  Sdk.finalCanvas img resultImg
    (padGeometry (widthOf img) (heightOf img) targetAspectRatio) = Ok fCtx ->
  Sdk.outpaintImage sourceImage targetAspectRatio prompt
    = Ok (Some (toDataURL fCtx)).
Proof.
  intros Hd Hremote Hfind Hdata Hres Hfinal.
  unfold Sdk.outpaintImage, loadImage. rewrite Hd. cbn [bind].
  set (g := padGeometry (widthOf img) (heightOf img) targetAspectRatio) in *.
  unfold Sdk.imageCanvas.
  destruct (drawImage_image_total img (dx g) (dy g)
              (fillRect 0 0 (canvasWidth g) (canvasHeight g)
                 (setFillStyle "black" (newCanvas (canvasWidth g) (canvasHeight g)))))
    as (imgCtx & -> & _).
  cbn [bind]. rewrite Hremote. cbn [bind try_catch]. rewrite Hfind, Hdata, Hres.
  cbn [bind]. rewrite Hfinal. reflexivity.
Qed.

End OutpaintFacts.

(** C8, as stated, fails. In the variant that finishes the answer on a
    canvas (lines 1335-1376) the source is drawn over the candidate, so
    a transparent pixel of the source shows the candidate: a 1x1
    transparent source with a blue candidate gives a blue pixel. The
    variant of lines 682-689 has no finishing step: it returns the remote
    image as it comes, blue where the source was red. *)
Lemma outpaint_shows_candidate :
  (let img := Reference.solid 1 1 transparentBlack in
   let cand := Reference.solid 1 1 Reference.bluePixel in
   let g := padGeometry (widthOf img) (heightOf img) 1.0%float in
   g = {| canvasWidth := 1%float; canvasHeight := 1%float;
          dx := 0%float; dy := 0%float |} /\
   exists fCtx,
     Sdk.outpaintImage (B := Reference.browser) (R := Reference.remote)
       (Reference.image "CLEAR") 1.0%float "sky"
     = Ok (Some (toDataURL (B := Reference.browser) fCtx)) /\
     Sdk.finalCanvas (B := Reference.browser) img cand g = Ok fCtx /\
     pixelAt (canvas fCtx) 0 0 = Reference.bluePixel /\
     visible (pixelAt (canvas fCtx) 0 0) <> visible (pixelAt img 0 0)) /\
  (Rest.outpaintImage (R := Reference.remote)
     (Reference.image "RED") 1.0%float "sky"
   = Ok (Some (Reference.url "BLUE")) /\
   decode (Browser := Reference.browser) (Reference.url "RED")
   = Some (Reference.solid 1 1 Reference.redPixel) /\
   decode (Browser := Reference.browser) (Reference.url "BLUE")
   = Some (Reference.solid 1 1 Reference.bluePixel) /\
   Reference.bluePixel <> Reference.redPixel).
Proof.
  cbv zeta.
  assert (G : padGeometry (widthOf (Reference.solid 1 1 transparentBlack))
                (heightOf (Reference.solid 1 1 transparentBlack)) 1.0%float =
              {| canvasWidth := 1%float; canvasHeight := 1%float;
                 dx := 0%float; dy := 0%float |}) by reflexivity.
  split.
  - split; [exact G|]. rewrite G.
    destruct (finalCanvas_pixels (B := Reference.browser)
                (Reference.solid 1 1 transparentBlack)
                (Reference.solid 1 1 Reference.bluePixel)
                {| canvasWidth := 1%float; canvasHeight := 1%float;
                   dx := 0%float; dy := 0%float |} 0 0)
      as (fCtx & under & Hfinal & Hunder & Fw & Fh & Hpix);
      try reflexivity; try (apply raster_solid; lia).
    injection Hunder as <-.
    assert (Hb : hasBitmap (B := Reference.browser) (canvas fCtx) = true)
      by (apply hasBitmap_backed; rewrite ?Fw, ?Fh; reflexivity).
    assert (P : pixelAt (canvas fCtx) 0 0 = Reference.bluePixel).
    { etransitivity; [refine (Hpix Hb 0 0 eq_refl _)|reflexivity].
      rewrite Fw, Fh. reflexivity. }
    exists fCtx. split; [|split; [exact Hfinal|split; [exact P|]]].
    + apply (outpaintImage_finishes (B := Reference.browser) (R := Reference.remote)
               _ _ _ (Reference.solid 1 1 transparentBlack)
               [InlineData "image/png" "BLUE"] "image/png" "BLUE"
               (Reference.solid 1 1 Reference.bluePixel));
        try reflexivity.
      rewrite G. exact Hfinal.
    + rewrite P. discriminate.
  - repeat split; try reflexivity. discriminate.
Qed.

(** C8, amended. In the variant of lines 1335-1376, when the source
    decodes to a raster, the model answers with an inline image that
    decodes, and the offsets dx and dy are finite, [outpaintImage]
    returns the data URL of the canvas of the finishing step, which has
    the padded size; and when the platform gives that canvas a bitmap,
    every fully opaque pixel (x, y) of the source whose place
    (dx + x, dy + y) is on the canvas is found unchanged there, whatever
    the candidate holds. *)
Theorem outpaint_keeps_opaque_source {B : Browser} {R : Remote} :
  forall sourceImage targetAspectRatio prompt img parts m d resultImg X Y,
    decode (sourceImageToDataUrl sourceImage) = Some img ->
    raster img ->
    (forall request,
       generateContent "gemini-2.5-flash-image" request = Ok (Some parts)) ->
    Sdk.findInlineData parts = Some (m, d) ->
    JS.falsy d = false ->
    decode ("data:" ++ (if JS.falsy m then "image/png" else m) ++ ";base64," ++ d)
      = Some resultImg ->
    let g := padGeometry (widthOf img) (heightOf img) targetAspectRatio in
    Num.toInteger (dx g) = Some X ->
    Num.toInteger (dy g) = Some Y ->
    exists fCtx,
      Sdk.outpaintImage sourceImage targetAspectRatio prompt
        = Ok (Some (toDataURL fCtx)) /\
      Sdk.finalCanvas img resultImg g = Ok fCtx /\
      width (canvas fCtx) = canvasDim 300 (canvasWidth g) /\
      height (canvas fCtx) = canvasDim 150 (canvasHeight g) /\
      (hasBitmap (canvas fCtx) = true ->
       forall x y, inside (width img) (height img) x y = true ->
         inside (width (canvas fCtx)) (height (canvas fCtx)) (X + x) (Y + y) = true ->
         alpha (pixelAt img x y) = 255 ->
         pixelAt (canvas fCtx) (X + x) (Y + y) = pixelAt img x y).
Proof.
  intros sourceImage r prompt img parts m d resultImg X Y
    Hd Hr Hremote Hfind Hdata Hres g HX HY.
  destruct (finalCanvas_keeps_opaque img resultImg g X Y Hr HX HY)
    as (fCtx & Hfinal & Fw & Fh & Hpix).
  exists fCtx. split; [|repeat (split; [assumption|]); exact Hpix].
  now apply (outpaintImage_finishes _ _ _ img parts m d resultImg).
Qed.

Lemma outpaint_keeps_opaque_source_witness :
  exists fCtx,
    Sdk.outpaintImage (B := Reference.browser) (R := Reference.remote)
      (Reference.image "WIDE") 1.0%float "sky"
    = Ok (Some (toDataURL (B := Reference.browser) fCtx)) /\
    Sdk.finalCanvas (B := Reference.browser)
      (Reference.solid 200 100 Reference.greyPixel)
      (Reference.solid 1 1 Reference.bluePixel)
      (padGeometry 200%float 100%float 1.0%float) = Ok fCtx /\
    width (canvas fCtx) = 200 /\ height (canvas fCtx) = 200 /\
    pixelAt (canvas fCtx) (0 + 10) (50 + 20) = Reference.greyPixel.
Proof.
  destruct (outpaint_keeps_opaque_source (B := Reference.browser)
              (R := Reference.remote) (Reference.image "WIDE") 1.0%float "sky"
              (Reference.solid 200 100 Reference.greyPixel)
              [InlineData "image/png" "BLUE"] "image/png" "BLUE"
              (Reference.solid 1 1 Reference.bluePixel) 0 50
              eq_refl (raster_solid 200 100 _ ltac:(lia) ltac:(lia))
              (fun _ => eq_refl) eq_refl eq_refl eq_refl eq_refl eq_refl)
    as (fCtx & Hout & Hfinal & Fw & Fh & Hpix).
  change (canvasDim 300 _) with 200 in Fw. change (canvasDim 150 _) with 200 in Fh.
  exists fCtx. repeat (split; [assumption|]).
  apply Hpix.
  - apply hasBitmap_backed; rewrite ?Fw, ?Fh; reflexivity.
  - reflexivity.
  - rewrite Fw, Fh. reflexivity.
  - reflexivity.
Defined.

(* ================================================================== *)
(** * More about the activation code *)
(* ================================================================== *)

Lemma lowerChar_idem c : JS.lowerChar (JS.lowerChar c) = JS.lowerChar c.
Proof. destruct c as [[] [] [] [] [] [] [] []]; vm_compute; reflexivity. Qed.

Lemma lowerChar_whiteSpace c : JS.isWhiteSpace c = true -> JS.lowerChar c = c.
Proof.
  destruct c as [[] [] [] [] [] [] [] []]; vm_compute; intros H;
    solve [reflexivity | discriminate H].
Qed.

Lemma toLowerCase_idem s : JS.toLowerCase (JS.toLowerCase s) = JS.toLowerCase s.
Proof. induction s as [|c s IH]; cbn; [reflexivity|]. now rewrite lowerChar_idem, IH. Qed.

Lemma toLowerCase_app a b :
  JS.toLowerCase (a ++ b) = JS.toLowerCase a ++ JS.toLowerCase b.
Proof. induction a as [|c a IH]; cbn; [reflexivity|]. now rewrite IH. Qed.

Lemma toLowerCase_whiteSpace s : allWhiteSpace s = true -> JS.toLowerCase s = s.
Proof.
  induction s as [|c s IH]; cbn; [reflexivity|]. intros H.
  apply andb_prop in H as [Hc Hs]. now rewrite (lowerChar_whiteSpace c Hc), (IH Hs).
Qed.

Lemma falsy_toLowerCase s : JS.falsy (JS.toLowerCase s) = JS.falsy s.
Proof. destruct s; reflexivity. Qed.

Lemma trimStart_padding ws s :
  allWhiteSpace ws = true -> JS.trimStart (ws ++ s) = JS.trimStart s.
Proof.
  induction ws as [|c ws IH]; cbn; [reflexivity|]. intros H.
  apply andb_prop in H as [Hc Hs]. rewrite Hc. exact (IH Hs).
Qed.

Lemma trimStart_whiteSpace ws : allWhiteSpace ws = true -> JS.trimStart ws = "".
Proof.
  induction ws as [|c ws IH]; cbn; [reflexivity|]. intros H.
  apply andb_prop in H as [Hc Hs]. rewrite Hc. exact (IH Hs).
Qed.

Lemma trimEnd_whiteSpace ws : allWhiteSpace ws = true -> JS.trimEnd ws = "".
Proof.
  induction ws as [|c ws IH]; cbn; [reflexivity|]. intros H.
  apply andb_prop in H as [Hc Hs]. now rewrite (IH Hs), Hc.
Qed.

Lemma trimEnd_padding s ws :
  allWhiteSpace ws = true -> JS.trimEnd (s ++ ws) = JS.trimEnd s.
Proof.
  intros H. induction s as [|c s IH]; cbn.
  - now apply trimEnd_whiteSpace.
  - now rewrite IH.
Qed.

Lemma trimStart_app_blank a b :
  JS.trimStart a = "" -> JS.trimStart (a ++ b) = JS.trimStart b.
Proof.
  induction a as [|d a IH]; cbn; [reflexivity|].
  destruct (JS.isWhiteSpace d); [apply IH|discriminate].
Qed.

Lemma trimStart_app_text a b :
  JS.trimStart a <> "" -> JS.trimStart (a ++ b) = JS.trimStart a ++ b.
Proof.
  induction a as [|c a IH]; cbn; [congruence|].
  destruct (JS.isWhiteSpace c); [exact IH|reflexivity].
Qed.

(** Whitespace around an address does not change what [trim] leaves of
    it. *)
Lemma trim_padding pre s post :
  allWhiteSpace pre = true -> allWhiteSpace post = true ->
  JS.trim (pre ++ s ++ post) = JS.trim s.
Proof.
  intros Hpre Hpost. unfold JS.trim. rewrite (trimStart_padding _ _ Hpre).
  destruct (JS.trimStart s) as [|c t] eqn:E.
  - rewrite (trimStart_app_blank _ _ E), (trimStart_whiteSpace _ Hpost). reflexivity.
  - rewrite trimStart_app_text by (rewrite E; discriminate).
    rewrite E. apply (trimEnd_padding (String c t) post Hpost).
Qed.

Lemma getActivationCode_normalised email :
  JS.falsy email = false ->
  getActivationCode email =
  JS.natToString
    (Z.abs (Z.rem (hashLoop 0 (JS.trim (JS.toLowerCase email))) 900000 + 100000)).
Proof. intros H. unfold getActivationCode. now rewrite H. Qed.

(** X1. The code of an address does not depend on the case of its
    letters, and for an address that is not empty it does not depend on
    whitespace put before or after it. *)
Theorem getActivationCode_ignores_case_and_padding :
  (forall email,
     getActivationCode (JS.toLowerCase email) = getActivationCode email) /\
  (forall pre email post,
     JS.falsy email = false ->
     allWhiteSpace pre = true -> allWhiteSpace post = true ->
     getActivationCode (pre ++ email ++ post) = getActivationCode email).
Proof.
  split.
  - intros email. unfold getActivationCode.
    now rewrite falsy_toLowerCase, toLowerCase_idem.
  - intros pre email post He Hpre Hpost.
    rewrite (getActivationCode_normalised email He).
    rewrite getActivationCode_normalised
      by (destruct pre; [destruct email; [discriminate|reflexivity]|reflexivity]).
    rewrite !toLowerCase_app, (toLowerCase_whiteSpace _ Hpre),
      (toLowerCase_whiteSpace _ Hpost).
    now rewrite (trim_padding _ _ _ Hpre Hpost).
Qed.

Lemma getActivationCode_ignores_case_and_padding_witness :
  getActivationCode "  Mai.Tran@Example.com " = getActivationCode "Mai.Tran@Example.com" /\
  getActivationCode "mai.tran@example.com" = getActivationCode "Mai.Tran@Example.com".
Proof.
  split.
  - exact (proj2 getActivationCode_ignores_case_and_padding
             "  " "Mai.Tran@Example.com" " " eq_refl eq_refl eq_refl).
  - exact (proj1 getActivationCode_ignores_case_and_padding "Mai.Tran@Example.com").
Defined.

(** ** Decimal digits *)

Lemma string_of_uint_digits d :
  JS.allDigits (NilEmpty.string_of_uint d) = true /\
  String.length (NilEmpty.string_of_uint d) = Decimal.nb_digits d.
Proof.
  induction d as [|d [IH1 IH2]|d [IH1 IH2]|d [IH1 IH2]|d [IH1 IH2]|d [IH1 IH2]
                  |d [IH1 IH2]|d [IH1 IH2]|d [IH1 IH2]|d [IH1 IH2]|d [IH1 IH2]];
    cbn [NilEmpty.string_of_uint JS.allDigits String.length Decimal.nb_digits];
    rewrite ?IH1, ?IH2; split; reflexivity.
Qed.

Lemma usize_nb_digits d :
  DecimalPos.Unsigned.usize d = N.of_nat (Decimal.nb_digits d).
Proof.
  induction d; cbn [DecimalPos.Unsigned.usize Decimal.nb_digits]; rewrite ?IHd; lia.
Qed.

(** The value of a decimal numeral: its first digit times a power of
    ten, plus the value of the rest. *)
Lemma of_uint_split d :
  (Pos.of_uint d =
   DecimalPos.Unsigned.hd d * 10 ^ DecimalPos.Unsigned.usize (DecimalPos.Unsigned.tl d)
   + Pos.of_uint (DecimalPos.Unsigned.tl d))%N.
Proof.
  destruct d;
    cbn [Pos.of_uint DecimalPos.Unsigned.hd DecimalPos.Unsigned.tl
         DecimalPos.Unsigned.usize];
    rewrite ?DecimalPos.Unsigned.of_uint_acc_rev, <- ?DecimalPos.Unsigned.of_uint_alt;
    cbn; lia.
Qed.

Lemma of_uint_upper d : (Pos.of_uint d < 10 ^ DecimalPos.Unsigned.usize d)%N.
Proof.
  induction d; rewrite of_uint_split;
    cbn [DecimalPos.Unsigned.hd DecimalPos.Unsigned.tl DecimalPos.Unsigned.usize];
    rewrite ?N.pow_succ_r'; try lia.
  cbn. lia.
Qed.

(** The decimal numeral of a positive integer starts with a digit other
    than zero. *)
Lemma to_uint_head p : (1 <= DecimalPos.Unsigned.hd (Pos.to_uint p))%N.
Proof.
  pose proof (DecimalPos.Unsigned.to_of (Pos.to_uint p)) as H.
  rewrite DecimalPos.Unsigned.of_to in H. cbn [N.to_uint] in H.
  pose proof (DecimalPos.Unsigned.to_uint_nonnil p) as Hnil.
  pose proof (DecimalPos.Unsigned.to_uint_nonzero p) as Hz.
  destruct (Pos.to_uint p) as [|u| | | | | | | | | ] eqn:E;
    cbn [DecimalPos.Unsigned.hd]; try lia; try congruence.
  exfalso. unfold Decimal.unorm in H. rewrite DecimalFacts.nzhead_D0 in H.
  destruct (Decimal.nzhead u) eqn:En; try discriminate H.
  - injection H as H. subst u. now apply Hz.
  - now apply (DecimalFacts.nzhead_nonzero u u0).
Qed.

(** The decimal numeral of a positive integer has as many digits as its
    size asks for. *)
Lemma to_uint_bounds p :
  let n := Decimal.nb_digits (Pos.to_uint p) in
  (1 <= n)%nat /\
  (10 ^ N.of_nat (n - 1) <= N.pos p < 10 ^ N.of_nat n)%N.
Proof.
  cbn zeta. pose proof (to_uint_head p) as Hh.
  pose proof (of_uint_split (Pos.to_uint p)) as Hs.
  pose proof (of_uint_upper (DecimalPos.Unsigned.tl (Pos.to_uint p))) as Hu.
  rewrite DecimalPos.Unsigned.of_to in Hs.
  pose proof (DecimalPos.Unsigned.to_uint_nonnil p) as Hnil.
  assert (Decimal.nb_digits (Pos.to_uint p) =
          S (Decimal.nb_digits (DecimalPos.Unsigned.tl (Pos.to_uint p)))) as Hn.
  { destruct (Pos.to_uint p); cbn; congruence. }
  assert (DecimalPos.Unsigned.hd (Pos.to_uint p) <= 9)%N as H9.
  { destruct (Pos.to_uint p); cbn; lia. }
  rewrite Hn. replace (S _ - 1)%nat with
    (Decimal.nb_digits (DecimalPos.Unsigned.tl (Pos.to_uint p))) by lia.
  rewrite Nnat.Nat2N.inj_succ, N.pow_succ_r', <- usize_nb_digits.
  split; [lia|]. nia.
Qed.

Lemma natToString_digits z :
  0 <= z ->
  JS.allDigits (JS.natToString z) = true /\
  (1 <= String.length (JS.natToString z))%nat /\
  z < 10 ^ Z.of_nat (String.length (JS.natToString z)) /\
  (z = 0 \/ 10 ^ (Z.of_nat (String.length (JS.natToString z)) - 1) <= z).
Proof.
  intros Hz. unfold JS.natToString.
  destruct z as [|p|p]; [cbn; repeat split; try lia; now left| |lia].
  cbn [Z.to_N N.to_uint].
  pose proof (DecimalPos.Unsigned.to_uint_nonnil p) as Hnil.
  assert (NilZero.string_of_uint (Pos.to_uint p) =
          NilEmpty.string_of_uint (Pos.to_uint p)) as ->.
  { destruct (Pos.to_uint p); [congruence|reflexivity..]. }
  destruct (string_of_uint_digits (Pos.to_uint p)) as [Hd Hl].
  destruct (to_uint_bounds p) as [H1 [Hlo Hhi]].
  rewrite Hl. repeat split; [exact Hd|exact H1| |right].
  - apply N2Z.inj_lt in Hhi. rewrite N2Z.inj_pow, nat_N_Z in Hhi. exact Hhi.
  - apply N2Z.inj_le in Hlo. rewrite N2Z.inj_pow, nat_N_Z in Hlo.
    replace (Z.of_nat (Decimal.nb_digits (Pos.to_uint p)) - 1)
      with (Z.of_nat (Decimal.nb_digits (Pos.to_uint p) - 1)) by lia.
    exact Hlo.
Qed.

(** A non-negative integer below 10^k prints in at most k digits, one
    that is at least 10^(k-1) in at least k. *)
Lemma natToString_length z (k : nat) :
  0 <= z -> (1 <= k)%nat ->
  (z < 10 ^ Z.of_nat k -> (String.length (JS.natToString z) <= k)%nat) /\
  (10 ^ (Z.of_nat k - 1) <= z -> (k <= String.length (JS.natToString z))%nat).
Proof.
  intros Hz Hk. destruct (natToString_digits z Hz) as (_ & H1 & Hhi & Hlo).
  set (n := String.length (JS.natToString z)) in *.
  split; intros H.
  - destruct (le_lt_dec n k) as [|Hlt]; [assumption|exfalso].
    destruct Hlo as [->|Hlo].
    + subst n. cbn in Hlt. lia.
    + assert (10 ^ Z.of_nat k <= 10 ^ (Z.of_nat n - 1))
        by (apply Z.pow_le_mono_r; lia).
      lia.
  - destruct (le_lt_dec k n) as [|Hlt]; [assumption|exfalso].
    assert (10 ^ Z.of_nat n <= 10 ^ (Z.of_nat k - 1))
      by (apply Z.pow_le_mono_r; lia).
    lia.
Qed.

Lemma activation_value_range hash :
  0 <= Z.abs (Z.rem hash 900000 + 100000) < 10 ^ 6.
Proof.
  pose proof (Z.rem_bound_abs hash 900000 ltac:(lia)) as H.
  change (10 ^ 6) with 1000000. lia.
Qed.

(** X2. Whatever the address, the code is a string of decimal digits,
    one to six of them: never empty, never with a sign, never longer
    than six. *)
Theorem getActivationCode_digits email :
  JS.allDigits (getActivationCode email) = true /\
  (1 <= String.length (getActivationCode email) <= 6)%nat.
Proof.
  unfold getActivationCode. destruct (JS.falsy email).
  - repeat split; cbn; lia.
  - set (hash := hashLoop 0 _).
    pose proof (activation_value_range hash) as [H0 H6].
    destruct (natToString_digits _ H0) as (Hd & H1 & _).
    destruct (natToString_length _ 6 H0 ltac:(lia)) as [Hle _].
    repeat split; [exact Hd|exact H1|]. apply Hle. exact H6.
Qed.

(** X3. For an address that is not empty the code has six digits
    exactly when the remainder of the hash by 900000 is not negative or
    is -200000 or less; and an address of whitespace only gets the code
    100000. *)
Theorem getActivationCode_six_digits :
  (forall email,
     JS.falsy email = false ->
     let r := Z.rem (hashLoop 0 (JS.trim (JS.toLowerCase email))) 900000 in
     sixDigits (getActivationCode email) = true <-> (0 <= r \/ r <= -200000)) /\
  (forall email,
     JS.falsy email = false -> allWhiteSpace email = true ->
     getActivationCode email = "100000").
Proof.
  split.
  - intros email He r. unfold sixDigits.
    rewrite (getActivationCode_normalised email He). fold r.
    set (v := Z.abs (r + 100000)).
    assert (0 <= v < 10 ^ 6) as [H0 H6] by apply activation_value_range.
    destruct (natToString_digits v H0) as (Hd & H1 & _).
    destruct (natToString_length v 6 H0 ltac:(lia)) as [Hle Hge].
    destruct (natToString_length v 5 H0 ltac:(lia)) as [Hle5 _].
    rewrite Hd, andb_true_r, Nat.eqb_eq.
    change (10 ^ (Z.of_nat 6 - 1)) with 100000 in Hge.
    change (10 ^ Z.of_nat 5) with 100000 in Hle5.
    specialize (Hle H6). split.
    + intros Hl.
      destruct (Z.lt_ge_cases v 100000) as [Hv|Hv]; [specialize (Hle5 Hv); lia|].
      unfold v in Hv. lia.
    + intros Hr. assert (100000 <= v) as Hv by (unfold v; lia).
      specialize (Hge Hv). lia.
  - intros email He Hws. rewrite (getActivationCode_normalised email He).
    rewrite (toLowerCase_whiteSpace _ Hws). unfold JS.trim.
    rewrite (trimStart_whiteSpace _ Hws). reflexivity.
Qed.

Lemma getActivationCode_six_digits_witness :
  (sixDigits (getActivationCode "mai.tran@example.com") = true <->
   (0 <= Z.rem (hashLoop 0 (JS.trim (JS.toLowerCase "mai.tran@example.com"))) 900000 \/
    Z.rem (hashLoop 0 (JS.trim (JS.toLowerCase "mai.tran@example.com"))) 900000
      <= -200000)) /\
  getActivationCode "   " = "100000".
Proof.
  split.
  - exact (proj1 getActivationCode_six_digits "mai.tran@example.com" eq_refl).
  - exact (proj2 getActivationCode_six_digits "   " eq_refl eq_refl).
Defined.

(** ** The dialog of Login.tsx *)

(** X4. The code the administrator's tool shows for an address opens
    the account of every user whose address differs from it in letter
    case and surrounding whitespace only; and the backup key opens
    every account. *)
Theorem masterKey_accepts_admin_code :
  (forall userEmail adminEmail,
     JS.falsy userEmail = false -> JS.falsy adminEmail = false ->
     JS.trim (JS.toLowerCase userEmail) = JS.trim (JS.toLowerCase adminEmail) ->
     Login.masterKeyAccepted userEmail
       (Login.adminCode (Some "nghiavu") (Some adminEmail)) = true) /\
  (forall email, Login.masterKeyAccepted email (Some "251127") = true).
Proof.
  split.
  - intros u a Hu Ha Hn. unfold Login.adminCode, Login.masterKeyAccepted.
    change (String.eqb "nghiavu" "nghiavu") with true. cbv iota. rewrite Ha.
    rewrite (getActivationCode_normalised u Hu), (getActivationCode_normalised a Ha), Hn.
    set (v := Z.abs _).
    assert (0 <= v) as H0 by (unfold v; lia).
    destruct (natToString_digits v H0) as (_ & H1 & _).
    rewrite String.eqb_refl.
    destruct (JS.natToString v); [cbn in H1; lia|reflexivity].
  - intros email. unfold Login.masterKeyAccepted.
    now rewrite String.eqb_refl, orb_true_r.
Qed.

Lemma masterKey_accepts_admin_code_witness :
  Login.masterKeyAccepted " Mai.Tran@Example.com"
    (Login.adminCode (Some "nghiavu") (Some "mai.tran@example.com")) = true.
Proof.
  exact (proj1 masterKey_accepts_admin_code " Mai.Tran@Example.com"
           "mai.tran@example.com" eq_refl eq_refl eq_refl).
Defined.

(* ================================================================== *)
(** * More about data URLs *)
(* ================================================================== *)


(** What the lazy group of the regular expression can hold: no [;], no
    line terminator, and no character its subject lacks. *)



Lemma dataUrlToSourceImage_clean dataUrl img :
  dataUrlToSourceImage dataUrl = Some img ->
  (JS.falsy (base64 img) = false /\ JS.contains "," (base64 img) = false) /\
  (JS.falsy (mimeType img) = false /\ JS.contains ";" (mimeType img) = false /\
   JS.contains "," (mimeType img) = false /\ JS.singleLine (mimeType img) = true).
Proof.
  unfold dataUrlToSourceImage. destruct (JS.falsy dataUrl); [discriminate|].
  pose proof (split_segments "," dataUrl) as Hseg.
  destruct (JS.split "," dataUrl) as [|header [|payload rest]] eqn:Es;
    cbn [hd nth_error]; try discriminate.
  destruct (JS.matchColonSemicolon header) as [mime|] eqn:Em; [|discriminate].
  destruct (JS.falsy payload) eqn:Ep; [discriminate|].
  destruct (JS.falsy mime) eqn:Ef; [discriminate|]. cbn [orb].
  intros H. injection H as <-. cbn [base64 mimeType].
  destruct (matchColonSemicolon_group header mime Em) as (H1 & H2 & H3).
  repeat split; try assumption.
  - apply Hseg. right. now left.
  - apply H3, Hseg. now left.
Qed.

(** X5. Whatever string it is given, an image that
    [dataUrlToSourceImage] returns has a payload that is not empty and
    holds no comma, and a media type that is not empty, is on one line
    and holds no semicolon and no comma. *)
Theorem dataUrlToSourceImage_fields dataUrl img :
  dataUrlToSourceImage dataUrl = Some img ->
  (JS.falsy (base64 img) = false /\ JS.contains "," (base64 img) = false) /\
  (JS.falsy (mimeType img) = false /\ JS.contains ";" (mimeType img) = false /\
   JS.contains "," (mimeType img) = false /\ JS.singleLine (mimeType img) = true).
Proof. apply dataUrlToSourceImage_clean. Qed.

Lemma dataUrlToSourceImage_fields_witness :
  let img := {| base64 := "AAAA"; mimeType := "image/jpeg" |} in
  (JS.falsy (base64 img) = false /\ JS.contains "," (base64 img) = false) /\
  (JS.falsy (mimeType img) = false /\ JS.contains ";" (mimeType img) = false /\
   JS.contains "," (mimeType img) = false /\ JS.singleLine (mimeType img) = true).
Proof.
  exact (dataUrlToSourceImage_fields "x:image/jpeg;q=1;base64,AAAA,BBBB"
           {| base64 := "AAAA"; mimeType := "image/jpeg" |} eq_refl).
Defined.

(** X6. An image that [dataUrlToSourceImage] returns survives the trip
    through [sourceImageToDataUrl] and back, whatever string it was
    read from. *)
Theorem dataUrlToSourceImage_normal_form dataUrl img :
  dataUrlToSourceImage dataUrl = Some img ->
  dataUrlToSourceImage (sourceImageToDataUrl img) = Some img.
Proof.
  intros H.
  destruct (dataUrlToSourceImage_clean _ _ H) as [[Hb Hbc] (Hm & Hs & Hc & Hl)].
  destruct img as [b m]. now apply dataUrl_clean_roundtrip.
Qed.

Lemma dataUrlToSourceImage_normal_form_witness :
  dataUrlToSourceImage
    (sourceImageToDataUrl {| base64 := "AAAA"; mimeType := "image/jpeg" |})
  = Some {| base64 := "AAAA"; mimeType := "image/jpeg" |}.
Proof.
  exact (dataUrlToSourceImage_normal_form "x:image/jpeg;q=1;base64,AAAA,BBBB"
           {| base64 := "AAAA"; mimeType := "image/jpeg" |} eq_refl).
Defined.

(* ================================================================== *)
(** * More about compositing *)
(* ================================================================== *)

(** X7. Pixel by pixel, when the three inputs of [strictComposite]
    decode to rasters and the platform gives a canvas of the size of the
    original a bitmap: where the stretched mask is fully transparent the
    result holds the original's pixel as a canvas holds it, which is the
    pixel itself when it is opaque and nothing when it is fully
    transparent; and where the stretched mask and the stretched
    candidate are both opaque it holds the candidate's pixel. *)
Theorem strictComposite_pointwise {B : Browser}
  originalB64 generatedB64 maskB64 orig gen mask :
  decode originalB64 = Some orig ->
  decode generatedB64 = Some gen ->
  decode maskB64 = Some mask ->
  raster orig -> raster gen -> raster mask ->
  backed (width orig) (height orig) = true ->
  exists ctx,
    strictComposite originalB64 generatedB64 maskB64 = Ok (toDataURL ctx) /\
    width (canvas ctx) = width orig /\ height (canvas ctx) = height orig /\
    forall x y, inside (width orig) (height orig) x y = true ->
      (alpha (resample mask (width orig) (height orig) x y) = 0 ->
       pixelAt (canvas ctx) x y = stored (pixelAt orig x y) /\
       (alpha (pixelAt orig x y) = 255 ->
        pixelAt (canvas ctx) x y = pixelAt orig x y) /\
       (alpha (pixelAt orig x y) = 0 ->
        pixelAt (canvas ctx) x y = transparentBlack)) /\
      (alpha (resample mask (width orig) (height orig) x y) = 255 ->
       alpha (resample gen (width orig) (height orig) x y) = 255 ->
       pixelAt (canvas ctx) x y = resample gen (width orig) (height orig) x y).
Proof.
  intros Ho Hg Hm Ro Rg Rm Hbk.
  destruct (strictCompositeCanvas_pixels orig gen mask Ro Rm Hbk)
    as (ctx & temp & Hctx & Hw & Hh & Hpix & Htemp).
  exists ctx. split.
  - unfold strictComposite, loadImage. rewrite Ho, Hg, Hm. cbn [bind].
    rewrite Hctx. reflexivity.
  - split; [exact Hw|]. split; [exact Hh|].
    intros x y Hin. rewrite (Hpix x y Hin). split.
    + intros Ha. rewrite (compose_in_clear _ _ Ha).
      rewrite compose_over_clear by reflexivity.
      split; [reflexivity|]. split; intros Hp.
      * now apply stored_opaque.
      * now apply stored_clear.
    + intros Ha Hc. destruct Rg as [[Gw _] [Gh _]].
      rewrite (compose_in_opaque _ _ Ha), (Htemp Gw Gh x y Hin),
        (stored_opaque _ Hc), (visible_opaque _ Hc).
      now apply compose_over_opaque.
Qed.

Lemma strictComposite_pointwise_witness :
  exists ctx,
    strictComposite (B := Reference.browser)
      (Reference.url "PHOTO") (Reference.url "BLUE") (Reference.url "WHITE")
    = Ok (toDataURL (B := Reference.browser) ctx) /\
    pixelAt (canvas ctx) 7 5 = Reference.bluePixel.
Proof.
  destruct (strictComposite_pointwise (B := Reference.browser)
              (Reference.url "PHOTO") (Reference.url "BLUE") (Reference.url "WHITE")
              (Reference.solid 300 200 Reference.greyPixel)
              (Reference.solid 1 1 Reference.bluePixel)
              (Reference.solid 1 1 white) eq_refl eq_refl eq_refl
              (raster_solid 300 200 _ ltac:(lia) ltac:(lia))
              (raster_solid 1 1 _ ltac:(lia) ltac:(lia))
              (raster_solid 1 1 _ ltac:(lia) ltac:(lia)) eq_refl)
    as (ctx & Hs & _ & _ & Hpix).
  exists ctx. split; [exact Hs|].
  exact (proj2 (Hpix 7 5 eq_refl) eq_refl eq_refl).
Defined.

Section CompositeFacts.
Context {B : Browser}.

(** What [compositeImage] leaves in each pixel of its canvas when no
    blur is asked for and the canvas has a bitmap: the stretched
    foreground, kept where the mask, drawn at its own size from the top
    left corner, has left a pixel, over the background. *)
Lemma compositeCanvas_pixels bg fg box mask options :
  raster bg -> 0 < width fg -> 0 < height fg ->
  backed (width bg) (height bg) = true ->
  Num.gtb (edgeBlend options) 0 = false ->
  exists ctx,
    compositeCanvas bg fg box mask options = Ok ctx /\
    width (canvas ctx) = width bg /\ height (canvas ctx) = height bg /\
    forall x y, inside (width bg) (height bg) x y = true ->
      pixelAt (canvas ctx) x y =
      compose SourceOver
        (compose SourceIn (resample fg (width bg) (height bg) x y)
                          (stored (placed mask 0 0 x y)))
        (stored (pixelAt bg x y)).
Proof.
  intros Hb Hfw Hfh Hbk Hblend. pose proof Hb as [[Hw1 Hw2] [Hh1 Hh2]].
  unfold compositeCanvas. rewrite Hblend.
  rewrite (drawImage_image bg _ _ 0 0) by (reflexivity || assumption).
  cbn [bind].
  set (ctx0 := newCanvas (widthOf bg) (heightOf bg)).
  assert (W0 : width (canvas ctx0) = width bg) by (cbn; apply canvasDim_ofZ; lia).
  assert (H0 : height (canvas ctx0) = height bg) by (cbn; apply canvasDim_ofZ; lia).
  assert (B0 : hasBitmap (canvas ctx0) = true)
    by (apply hasBitmap_backed; rewrite ?W0, ?H0; (lia || assumption)).
  set (ctx1 := paint (placed bg 0 0) ctx0).
  assert (W1 : width (canvas ctx1) = width bg) by exact W0.
  assert (H1 : height (canvas ctx1) = height bg) by exact H0.
  assert (B1 : hasBitmap (canvas ctx1) = true) by exact B0.
  assert (TW : Num.toInteger (canvasWidthOf ctx1) = Some (width bg)).
  { unfold canvasWidthOf. rewrite W1. now apply toInteger_width. }
  assert (TH : Num.toInteger (canvasHeightOf ctx1) = Some (height bg)).
  { unfold canvasHeightOf. rewrite H1. now apply toInteger_height. }
  set (fg0 := newCanvas (canvasWidthOf ctx1) (canvasHeightOf ctx1)).
  assert (D0 : width (canvas fg0) = width bg /\ height (canvas fg0) = height bg).
  { unfold fg0, canvasWidthOf, canvasHeightOf. rewrite W1, H1. cbn.
    split; apply canvasDim_ofZ; lia. }
  assert (BF : hasBitmap (canvas fg0) = true).
  { destruct D0 as [D1 D2].
    apply hasBitmap_backed; rewrite ?D1, ?D2; (lia || assumption). }
  assert (Hmask : exists fg1,
            drawImage (ImageSource mask) 0 0 fg0 = Ok fg1 /\
            width (canvas fg1) = width bg /\ height (canvas fg1) = height bg /\
            globalCompositeOperation fg1 = SourceOver /\
            forall x y, inside (width bg) (height bg) x y = true ->
              pixelAt (canvas fg1) x y = stored (placed mask 0 0 x y)).
  { unfold drawImage. change (Num.toInteger 0%float) with (Some 0). cbn [bind].
    unfold usable.
    destruct ((width mask <=? 0) || (height mask <=? 0)) eqn:E; cbn [bind ret].
    - exists fg0. repeat split; try tauto. intros x y _.
      assert (placed mask 0 0 x y = transparentBlack) as ->; [|reflexivity].
      unfold placed, inside. rewrite !Z.sub_0_r.
      apply orb_true_iff in E as [E|E]; apply Z.leb_le in E.
      + destruct (0 <=? x) eqn:E1, (x <? width mask) eqn:E2; cbn; try reflexivity.
        apply Z.leb_le in E1. apply Z.ltb_lt in E2. lia.
      + destruct (0 <=? x), (x <? width mask), (0 <=? y) eqn:E1,
          (y <? height mask) eqn:E2; cbn; try reflexivity.
        apply Z.leb_le in E1. apply Z.ltb_lt in E2. lia.
    - eexists. split; [reflexivity|].
      repeat split; try tauto.
      intros x y Hin.
      rewrite paint_pixel;
        [reflexivity|exact BF|rewrite (proj1 D0), (proj2 D0); exact Hin]. }
  destruct Hmask as (fg1 & Hm & FW & FH & FO & Pm).
  assert (BF1 : hasBitmap (canvas fg1) = true)
    by (apply hasBitmap_backed; rewrite ?FW, ?FH; (lia || assumption)).
  cbv beta iota zeta. fold ctx0. fold ctx1. fold fg0. rewrite Hm. cbn [bind].
  rewrite (drawImageScaled_image fg 0%float 0%float _ _ 0 0 (width bg) (height bg) _
             eq_refl eq_refl TW TH Hfw Hfh).
  cbn [bind].
  set (fg3 := paint _ (setFilter FilterNone (setOperation SourceIn fg1))).
  rewrite (drawImage_canvas (canvas fg3) _ _ 0 0);
    [|reflexivity|reflexivity|cbn; lia|cbn; lia].
  eexists. split; [reflexivity|]. split; [exact W1|]. split; [exact H1|].
  intros x y Hin.
  rewrite paint_pixel; [|exact B1|rewrite W1, H1; exact Hin].
  change (globalCompositeOperation ctx1) with SourceOver.
  change (filter ctx1) with FilterNone. cbn [applyFilter].
  rewrite placed_origin
    by (unfold fg3; cbn [paint canvas width height setFilter setOperation];
        rewrite FW, FH; exact Hin).
  unfold fg3. rewrite paint_pixel;
    [|exact BF1|cbn [setFilter setOperation canvas]; rewrite FW, FH; exact Hin].
  cbn [setFilter setOperation globalCompositeOperation filter applyFilter canvas].
  rewrite placedScaled_origin by assumption.
  rewrite (Pm x y Hin). unfold ctx1.
  rewrite paint_pixel; [|exact B0|rewrite W0, H0; exact Hin].
  cbn [ctx0 newCanvas globalCompositeOperation filter applyFilter canvas pixelAt].
  now rewrite (placed_origin bg) by assumption.
Qed.

Lemma drawImageScaled_image_total b ddx ddy dw dh ctx :
  exists ctx', drawImageScaled (ImageSource b) ddx ddy dw dh ctx = Ok ctx' /\
    width (canvas ctx') = width (canvas ctx) /\
    height (canvas ctx') = height (canvas ctx).
Proof.
  unfold drawImageScaled, usable.
  destruct (Num.toInteger ddx), (Num.toInteger ddy), (Num.toInteger dw),
    (Num.toInteger dh); cbn; eauto.
  destruct ((width b <=? 0) || (height b <=? 0)); cbn; eauto.
Qed.

(** When the background is a raster, drawing never throws. *)
Lemma compositeCanvas_total bg fg box mask options :
  raster bg ->
  exists ctx, compositeCanvas bg fg box mask options = Ok ctx.
Proof.
  intros Hb. pose proof Hb as [[Hw1 Hw2] [Hh1 Hh2]].
  unfold compositeCanvas.
  rewrite (drawImage_image bg _ _ 0 0) by (reflexivity || assumption).
  cbn [bind].
  set (ctx1 := paint (placed bg 0 0) (newCanvas (widthOf bg) (heightOf bg))).
  assert (W1 : width (canvas ctx1) = width bg) by (cbn; apply canvasDim_ofZ; lia).
  assert (H1 : height (canvas ctx1) = height bg) by (cbn; apply canvasDim_ofZ; lia).
  set (fg0 := newCanvas (canvasWidthOf ctx1) (canvasHeightOf ctx1)).
  set (fgA := if Num.gtb (edgeBlend options) 0
              then setFilterBlur (edgeBlend options) fg0 else fg0).
  assert (DA : width (canvas fgA) = width bg /\ height (canvas fgA) = height bg).
  { assert (D0 : width (canvas fg0) = width bg /\ height (canvas fg0) = height bg).
    { unfold fg0, canvasWidthOf, canvasHeightOf. rewrite W1, H1. cbn.
      split; apply canvasDim_ofZ; lia. }
    unfold fgA, setFilterBlur. destruct (Num.gtb _ _); [|exact D0].
    destruct (Num.toInteger _); exact D0. }
  destruct (drawImage_image_total mask 0%float 0%float fgA) as (fg1 & -> & FW & FH).
  cbn [bind].
  set (fg2 := setFilter FilterNone (setOperation SourceIn fg1)).
  destruct (drawImageScaled_image_total fg 0%float 0%float (canvasWidthOf ctx1)
              (canvasHeightOf ctx1) fg2) as (fg3 & -> & GW & GH).
  cbn [bind].
  rewrite (drawImage_canvas (canvas fg3) _ _ 0 0);
    [eauto|reflexivity|reflexivity| |].
  - rewrite GW. unfold fg2. cbn. rewrite FW. lia.
  - rewrite GH. unfold fg2. cbn. rewrite FH. lia.
Qed.

(** A background without pixels makes the last [drawImage] throw: its
    argument is a canvas without pixels. *)
Lemma compositeCanvas_empty bg fg box mask options :
  width bg = 0 \/ height bg = 0 ->
  compositeCanvas bg fg box mask options = Err InvalidStateError.
Proof.
  intros Hz. unfold compositeCanvas.
  destruct (drawImage_image_total bg 0%float 0%float
              (newCanvas (widthOf bg) (heightOf bg))) as (ctx1 & -> & W1 & H1).
  cbn [bind]. cbn [newCanvas canvas width height] in W1, H1.
  set (fg0 := newCanvas (canvasWidthOf ctx1) (canvasHeightOf ctx1)).
  set (fgA := if Num.gtb (edgeBlend options) 0
              then setFilterBlur (edgeBlend options) fg0 else fg0).
  assert (DA : width (canvas fgA) = 0 \/ height (canvas fgA) = 0).
  { assert (D0 : width (canvas fg0) = 0 \/ height (canvas fg0) = 0).
    { unfold fg0, canvasWidthOf, canvasHeightOf. rewrite W1, H1. cbn.
      unfold widthOf, heightOf.
      destruct Hz as [-> | ->]; [left|right]; reflexivity. }
    unfold fgA, setFilterBlur. destruct (Num.gtb _ _); [|exact D0].
    destruct (Num.toInteger _); exact D0. }
  destruct (drawImage_image_total mask 0%float 0%float fgA) as (fg1 & -> & FW & FH).
  cbn [bind].
  set (fg2 := setFilter FilterNone (setOperation SourceIn fg1)).
  destruct (drawImageScaled_image_total fg 0%float 0%float (canvasWidthOf ctx1)
              (canvasHeightOf ctx1) fg2) as (fg3 & -> & GW & GH).
  cbn [bind]. unfold drawImage. change (Num.toInteger 0%float) with (Some 0).
  unfold usable. rewrite GW, GH. unfold fg2. cbn [setFilter setOperation canvas].
  rewrite FW, FH. destruct DA as [-> | ->]; cbn [Z.leb Z.compare orb bind];
    rewrite ?orb_true_r; reflexivity.
Qed.

End CompositeFacts.

(** X8. [compositeImage] without blur, on a background that is a
    raster of a size the platform's canvas can hold: the canvas has the
    size of the background; the mask counts at its own size from the
    top left corner, unstretched, while the foreground is stretched
    over the whole canvas. Outside the mask and where the mask is fully
    transparent the canvas holds the background's pixel, as a canvas
    holds it (the pixel itself when it is opaque); where the mask and
    the stretched foreground are opaque it holds the foreground's. *)
Theorem compositeImage_shows {B : Browser} bg fg box mask options :
  raster bg -> 0 < width fg -> 0 < height fg ->
  backed (width bg) (height bg) = true ->
  Num.gtb (edgeBlend options) 0 = false ->
  exists ctx,
    compositeCanvas bg fg box mask options = Ok ctx /\
    width (canvas ctx) = width bg /\ height (canvas ctx) = height bg /\
    forall x y, inside (width bg) (height bg) x y = true ->
      (inside (width mask) (height mask) x y = false \/
       alpha (pixelAt mask x y) = 0 ->
       pixelAt (canvas ctx) x y = stored (pixelAt bg x y) /\
       (alpha (pixelAt bg x y) = 255 ->
        pixelAt (canvas ctx) x y = pixelAt bg x y)) /\
      (inside (width mask) (height mask) x y = true ->
       alpha (pixelAt mask x y) = 255 ->
       alpha (resample fg (width bg) (height bg) x y) = 255 ->
       pixelAt (canvas ctx) x y = resample fg (width bg) (height bg) x y).
Proof.
  intros Hb Hfw Hfh Hbk Hblend.
  destruct (compositeCanvas_pixels bg fg box mask options Hb Hfw Hfh Hbk Hblend)
    as (ctx & Hc & Hw & Hh & Hpix).
  exists ctx. repeat (split; [assumption|]).
  intros x y Hin. rewrite (Hpix x y Hin). unfold placed. rewrite !Z.sub_0_r.
  split.
  - intros Hout.
    assert (E : stored (if inside (width mask) (height mask) x y
                        then pixelAt mask x y else transparentBlack)
                = transparentBlack).
    { destruct (inside (width mask) (height mask) x y).
      - destruct Hout as [Hout|Ha]; [discriminate|]. now apply stored_clear.
      - reflexivity. }
    rewrite E. cbn [compose alpha transparentBlack Z.leb Z.compare orb].
    split; [reflexivity|]. intros Ha. now apply stored_opaque.
  - intros -> Ha Hf. rewrite (stored_opaque _ Ha).
    unfold compose at 2. rewrite Ha, Hf. cbn. now apply compose_over_opaque.
Qed.

Lemma compositeImage_shows_witness :
  exists ctx,
    compositeCanvas (B := Reference.browser)
      (Reference.solid 300 200 Reference.greyPixel)
      (Reference.solid 1 1 Reference.bluePixel)
      {| box_x := 0%float; box_y := 0%float;
         box_width := 1%float; box_height := 1%float |}
      (Reference.solid 64 64 white) {| edgeBlend := 0%float |} = Ok ctx /\
    pixelAt (canvas ctx) 10 10 = Reference.bluePixel /\
    pixelAt (canvas ctx) 100 100 = Reference.greyPixel.
Proof.
  destruct (compositeImage_shows (B := Reference.browser)
              (Reference.solid 300 200 Reference.greyPixel)
              (Reference.solid 1 1 Reference.bluePixel)
              {| box_x := 0%float; box_y := 0%float;
                 box_width := 1%float; box_height := 1%float |}
              (Reference.solid 64 64 white) {| edgeBlend := 0%float |}
              (raster_solid 300 200 _ ltac:(lia) ltac:(lia))
              ltac:(cbn; lia) ltac:(cbn; lia) eq_refl eq_refl)
    as (ctx & Hc & _ & _ & Hpix).
  exists ctx. split; [exact Hc|]. split.
  - exact (proj2 (Hpix 10 10 eq_refl) eq_refl eq_refl eq_refl).
  - exact (proj2 (proj1 (Hpix 100 100 eq_refl) (or_introl eq_refl)) eq_refl).
Defined.

(** X9. [compositeImage] has no handler of its own: when one of the
    three images fails to load the promise is rejected with the load
    error; when they load and the background is a raster it resolves
    with the data URL of its canvas; and a background without pixels
    makes it reject with the error [drawImage] throws for a canvas
    without pixels. *)
Theorem compositeImage_settles {B : Browser}
  bgImage fgImage box maskImage options :
  match decode (sourceImageToDataUrl bgImage),
        decode (sourceImageToDataUrl fgImage),
        decode (sourceImageToDataUrl maskImage) with
  | Some bg, Some fg, Some mask =>
      (raster bg ->
       exists ctx, compositeCanvas bg fg box mask options = Ok ctx /\
                   compositeImage bgImage fgImage box maskImage options =
                   Ok (toDataURL ctx)) /\
      (width bg = 0 \/ height bg = 0 ->
       compositeImage bgImage fgImage box maskImage options =
       Err InvalidStateError)
  | _, _, _ =>
      compositeImage bgImage fgImage box maskImage options = Err LoadError
  end.
Proof.
  unfold compositeImage, loadImage.
  destruct (decode (sourceImageToDataUrl bgImage)) as [bg|]; [|reflexivity].
  destruct (decode (sourceImageToDataUrl fgImage)) as [fg|]; [|reflexivity].
  destruct (decode (sourceImageToDataUrl maskImage)) as [mask|]; [|reflexivity].
  cbn [bind]. split.
  - intros Hb. destruct (compositeCanvas_total bg fg box mask options Hb) as (ctx & Hc).
    exists ctx. split; [exact Hc|]. now rewrite Hc.
  - intros Hz. now rewrite (compositeCanvas_empty bg fg box mask options Hz).
Qed.

Lemma compositeImage_settles_witness :
  (exists ctx,
     compositeCanvas (B := Reference.browser)
       (Reference.solid 300 200 Reference.greyPixel)
       (Reference.solid 1 1 Reference.bluePixel)
       {| box_x := 0%float; box_y := 0%float;
          box_width := 1%float; box_height := 1%float |}
       (Reference.solid 1 1 white) {| edgeBlend := 0%float |} = Ok ctx /\
     compositeImage (B := Reference.browser)
       (Reference.image "PHOTO") (Reference.image "BLUE")
       {| box_x := 0%float; box_y := 0%float;
          box_width := 1%float; box_height := 1%float |}
       (Reference.image "WHITE") {| edgeBlend := 0%float |}
     = Ok (toDataURL (B := Reference.browser) ctx)) /\
  compositeImage (B := Reference.browser)
    (Reference.image "PHOTO") (Reference.image "missing")
    {| box_x := 0%float; box_y := 0%float;
       box_width := 1%float; box_height := 1%float |}
    (Reference.image "WHITE") {| edgeBlend := 0%float |}
  = Err LoadError.
Proof.
  split.
  - exact (proj1 (compositeImage_settles (B := Reference.browser)
                    (Reference.image "PHOTO") (Reference.image "BLUE")
                    {| box_x := 0%float; box_y := 0%float;
                       box_width := 1%float; box_height := 1%float |}
                    (Reference.image "WHITE") {| edgeBlend := 0%float |})
             (raster_solid 300 200 _ ltac:(lia) ltac:(lia))).
  - exact (compositeImage_settles (B := Reference.browser)
             (Reference.image "PHOTO") (Reference.image "missing")
             {| box_x := 0%float; box_y := 0%float;
                box_width := 1%float; box_height := 1%float |}
             (Reference.image "WHITE") {| edgeBlend := 0%float |}).
Defined.

(* ================================================================== *)
(** * More about padding *)
(* ================================================================== *)

Lemma round_degenerate x : degenerate x = true -> Num.round x = x.
Proof.
  unfold degenerate, Num.round. destruct (Prim2SF x); [reflexivity..|discriminate].
Qed.

Lemma canvasDim_degenerate default x :
  degenerate x = true -> canvasDim default x = 0.
Proof.
  unfold degenerate, canvasDim, Num.toUint32, Num.toInteger.
  destruct (Prim2SF x); try reflexivity; discriminate.
Qed.

Lemma div_degenerate x r m e :
  Prim2SF x = S754_finite false m e -> degenerate r = true ->
  degenerate (x / r) = true.
Proof.
  unfold degenerate. intros Hx Hr. rewrite div_spec, Hx.
  destruct (Prim2SF r) as [[]|[]| |]; try discriminate; reflexivity.
Qed.

Lemma mul_degenerate x r m e :
  Prim2SF x = S754_finite false m e -> degenerate r = true ->
  degenerate (x * r) = true.
Proof.
  unfold degenerate. intros Hx Hr. rewrite mul_spec, Hx.
  destruct (Prim2SF r) as [[]|[]| |]; try discriminate; reflexivity.
Qed.

(** Whichever way the test of the ratios goes, a target ratio that is
    NaN, zero or infinite leaves the canvas without width or without
    height. *)
Lemma padSize_degenerate w h r :
  0 < w <= 2147483647 -> 0 < h <= 2147483647 -> degenerate r = true ->
  fst (padSize w h r) = 0 \/ snd (padSize w h r) = 0.
Proof.
  intros Hw Hh Hr.
  destruct (ofZ_normal w) as (mw & ew & Pw & _);
    [change (2 ^ 53) with 9007199254740992; lia|].
  destruct (ofZ_normal h) as (mh & eh & Ph & _);
    [change (2 ^ 53) with 9007199254740992; lia|].
  unfold padSize, padGeometry.
  destruct (Num.gtb _ r); cbn [canvasWidth canvasHeight fst snd].
  - right. rewrite round_degenerate by (eapply div_degenerate; eassumption).
    apply canvasDim_degenerate. eapply div_degenerate; eassumption.
  - left. rewrite round_degenerate by (eapply mul_degenerate; eassumption).
    apply canvasDim_degenerate. eapply mul_degenerate; eassumption.
Qed.

Lemma canvasDim_range default x :
  0 <= default <= 2147483647 -> 0 <= canvasDim default x <= 2147483647.
Proof.
  intros Hd. unfold canvasDim.
  destruct (Num.toUint32 x <=? 2147483647) eqn:E; [|lia].
  apply Z.leb_le in E. split; [|exact E].
  unfold Num.toUint32. destruct (Num.toInteger x); [|lia].
  apply Z.mod_pos_bound. reflexivity.
Qed.

Lemma canvasDim_whole default x W :
  Num.toInteger x = Some W -> 0 <= W <= 2147483647 -> canvasDim default x = W.
Proof.
  intros Hx HW. unfold canvasDim, Num.toUint32. rewrite Hx.
  rewrite Z.mod_small by (change (2 ^ 32) with 4294967296; lia).
  destruct (W <=? 2147483647) eqn:E; [reflexivity|]. apply Z.leb_gt in E. lia.
Qed.

Section EncodingFacts.
Context {B : Browser}.

Lemma hasBitmap_empty c :
  width c <= 0 \/ height c <= 0 -> hasBitmap c = false.
Proof.
  intros H. unfold hasBitmap.
  destruct (0 <? width c) eqn:E1; [|reflexivity].
  destruct (0 <? height c) eqn:E2; [|reflexivity].
  apply Z.ltb_lt in E1, E2. lia.
Qed.

Lemma toDataURL_png_parses ctx :
  hasBitmap (canvas ctx) = true -> base64Text (encodePNG (canvas ctx)) ->
  dataUrlToSourceImage (toDataURL ctx) =
  Some {| base64 := encodePNG (canvas ctx); mimeType := "image/png" |}.
Proof.
  intros He [Hf Hc]. unfold toDataURL. rewrite He.
  apply (dataUrl_clean_roundtrip (encodePNG (canvas ctx)) "image/png");
    try reflexivity; assumption.
Qed.

Lemma toDataURL_empty ctx :
  hasBitmap (canvas ctx) = false -> dataUrlToSourceImage (toDataURL ctx) = None.
Proof. intros He. unfold toDataURL. rewrite He. reflexivity. Qed.

(** A new canvas with a bitmap, filled over its whole extent, holds the
    fill colour everywhere; the colour is the initial black when the
    string given is no colour. *)
Lemma fillRect_whole w h color x y :
  let ctx := setFillStyle color (newCanvas w h) in
  let ctx' := fillRect 0 0 (canvasWidthOf ctx) (canvasHeightOf ctx) ctx in
  hasBitmap (canvas ctx') = true ->
  inside (width (canvas ctx')) (height (canvas ctx')) x y = true ->
  pixelAt (canvas ctx') x y =
  stored (match cssColor color with Some p => p | None => black end).
Proof.
  cbv zeta. set (ctx := setFillStyle color (newCanvas w h)).
  assert (Hc : canvas ctx = canvas (newCanvas w h)) by apply setFillStyle_state.
  assert (Hop : globalCompositeOperation ctx = SourceOver).
  { unfold ctx. now rewrite (proj1 (proj2 (setFillStyle_state _ _))). }
  assert (Hf : filter ctx = FilterNone).
  { unfold ctx. now rewrite (proj2 (proj2 (setFillStyle_state _ _))). }
  assert (Hs : fillStyle ctx =
               match cssColor color with Some p => p | None => black end).
  { unfold ctx, setFillStyle. destruct (cssColor color); reflexivity. }
  pose proof (canvasDim_range 300 w ltac:(lia)) as Rw.
  pose proof (canvasDim_range 150 h ltac:(lia)) as Rh.
  unfold fillRect, canvasWidthOf, canvasHeightOf. rewrite Hc.
  cbn [newCanvas canvas width height].
  rewrite !toInteger_ofZ by (change (2 ^ 53) with 9007199254740992; lia).
  change (Num.toInteger 0%float) with (Some 0).
  cbv iota beta. intros Hb Hin.
  rewrite hasBitmap_paint in Hb. rewrite (proj1 (paint_size _ _)) in Hin.
  rewrite (proj2 (paint_size _ _)) in Hin.
  rewrite paint_pixel, Hop, Hf, Hs by assumption. rewrite Hc in Hin |- *.
  cbn [applyFilter canvas newCanvas pixelAt width height] in Hin |- *.
  unfold rectangle. rewrite !Z.sub_0_r, Hin. reflexivity.
Qed.

End EncodingFacts.

(** X10. [padImageToAspectRatioWithColor] rejects exactly when the
    source fails to load. Otherwise, on a platform whose PNG encoder
    writes base64 text, it resolves with [null] when the canvas it
    built holds no pixels (it has no width or no height, or the
    platform gives a canvas of that size no bitmap), and else with an
    image whose type is image/png, whatever the type of the source, and
    whose payload is the encoded canvas. *)
Theorem padImage_returns_png {B : Browser} image r color :
  (forall b, base64Text (encodePNG b)) ->
  match decode (sourceImageToDataUrl image) with
  | None => padImageToAspectRatioWithColor image r color = Err LoadError
  | Some img =>
      exists ctx,
        padCanvas img r (match color with Some c => c | None => "white" end)
          = Ok ctx /\
        (width (canvas ctx), height (canvas ctx)) =
          padSize (width img) (height img) r /\
        padImageToAspectRatioWithColor image r color =
        Ok (if (0 <? width (canvas ctx)) && (0 <? height (canvas ctx)) &&
               backed (width (canvas ctx)) (height (canvas ctx))
            then Some {| base64 := encodePNG (canvas ctx);
                         mimeType := "image/png" |}
            else None)
  end.
Proof.
  intros Henc. unfold padImageToAspectRatioWithColor, loadImage.
  destruct (decode (sourceImageToDataUrl image)) as [img|]; [|reflexivity].
  cbn [bind].
  destruct (padCanvas_size img r (match color with Some c => c | None => "white" end))
    as (ctx & Hp & Hsize).
  exists ctx. split; [exact Hp|]. split; [exact Hsize|].
  rewrite Hp. cbn [bind ret]. unfold ret.
  apply f_equal. fold (hasBitmap (canvas ctx)).
  destruct (hasBitmap (canvas ctx)) eqn:E.
  - now apply toDataURL_png_parses.
  - now apply toDataURL_empty.
Qed.

Lemma padImage_returns_png_witness :
  exists ctx,
    padCanvas (B := Reference.browser)
      (Reference.solid 200 100 Reference.greyPixel) 1%float "white" = Ok ctx /\
    (width (canvas ctx), height (canvas ctx)) = (200, 200) /\
    padImageToAspectRatioWithColor (B := Reference.browser)
      {| base64 := "WIDE"; mimeType := "image/jpeg" |} 1%float None =
    Ok (Some {| base64 := @encodePNG Reference.browser (canvas ctx);
                mimeType := "image/png" |}).
Proof.
  destruct (padImage_returns_png (B := Reference.browser)
              {| base64 := "WIDE"; mimeType := "image/jpeg" |} 1%float None
              (fun _ => conj eq_refl eq_refl))
    as (ctx & Hc & Hs & Hout).
  cbn [Reference.solid width height] in Hs.
  replace (padSize 200 100 1%float) with (200, 200) in Hs
    by (vm_compute; reflexivity).
  exists ctx. split; [exact Hc|]. split; [exact Hs|].
  rewrite Hout. injection Hs as -> ->. reflexivity.
Defined.

(** X11. For a source that decodes to a raster, a target ratio that is
    NaN, a zero or an infinity makes [padImageToAspectRatioWithColor]
    resolve with [null], outside its declared result type: the canvas
    gets no width or no height and its data URL is "data:,". *)
Theorem padImage_null_on_degenerate_ratio {B : Browser} image img r color :
  decode (sourceImageToDataUrl image) = Some img -> raster img ->
  degenerate r = true ->
  padImageToAspectRatioWithColor image r color = Ok None.
Proof.
  intros Hd [Hw Hh] Hr. unfold padImageToAspectRatioWithColor, loadImage.
  rewrite Hd. cbn [bind].
  destruct (padCanvas_size img r (match color with Some c => c | None => "white" end))
    as (ctx & Hp & Hsize).
  rewrite Hp. cbn [bind ret]. unfold ret. apply f_equal. apply toDataURL_empty.
  apply hasBitmap_empty.
  destruct (padSize_degenerate (width img) (height img) r Hw Hh Hr) as [H0|H0];
    rewrite <- Hsize in H0; cbn [fst snd] in H0; rewrite H0; [left|right]; lia.
Qed.

Lemma padImage_null_on_degenerate_ratio_witness :
  padImageToAspectRatioWithColor (B := Reference.browser)
    (Reference.image "WIDE") nan (Some "white") = Ok None /\
  padImageToAspectRatioWithColor (B := Reference.browser)
    (Reference.image "WIDE") 0%float None = Ok None.
Proof.
  split.
  - exact (padImage_null_on_degenerate_ratio (B := Reference.browser)
             (Reference.image "WIDE") (Reference.solid 200 100 Reference.greyPixel)
             nan (Some "white") eq_refl
             (raster_solid 200 100 _ ltac:(lia) ltac:(lia)) eq_refl).
  - exact (padImage_null_on_degenerate_ratio (B := Reference.browser)
             (Reference.image "WIDE") (Reference.solid 200 100 Reference.greyPixel)
             0%float None eq_refl
             (raster_solid 200 100 _ ltac:(lia) ltac:(lia)) eq_refl).
Defined.

(** X12. On the canvas of [padImageToAspectRatioWithColor], when it
    has a bitmap, every pixel that the source does not cover holds the
    fill colour as a canvas holds it, which is the colour itself when
    it is opaque: the colour the string names, or black, the initial
    fill style, when the string names no colour. *)
Theorem padCanvas_fill {B : Browser} img r color :
  let g := padGeometry (widthOf img) (heightOf img) r in
  let fill := match cssColor color with Some p => p | None => black end in
  exists ctx,
    padCanvas img r color = Ok ctx /\
    (hasBitmap (canvas ctx) = true ->
     forall x y,
       inside (width (canvas ctx)) (height (canvas ctx)) x y = true ->
       (forall X Y,
          Num.toInteger (dx g) = Some X -> Num.toInteger (dy g) = Some Y ->
          inside (width img) (height img) (x - X) (y - Y) = false) ->
       pixelAt (canvas ctx) x y = stored fill /\
       (alpha fill = 255 -> pixelAt (canvas ctx) x y = fill)).
Proof.
  cbv zeta. unfold padCanvas.
  set (g := padGeometry (widthOf img) (heightOf img) r).
  set (ctx0 := setFillStyle color (newCanvas (canvasWidth g) (canvasHeight g))).
  set (ctx1 := fillRect 0 0 (canvasWidthOf ctx0) (canvasHeightOf ctx0) ctx0).
  set (fill := match cssColor color with Some p => p | None => black end).
  pose proof (fillRect_whole (canvasWidth g) (canvasHeight g) color) as Hfill.
  cbv zeta in Hfill. fold ctx0 in Hfill. fold ctx1 in Hfill. fold fill in Hfill.
  assert (Hop : globalCompositeOperation ctx1 = SourceOver).
  { unfold ctx1. rewrite (proj1 (proj2 (proj2 (fillRect_state _ _ _ _ _)))).
    unfold ctx0. now rewrite (proj1 (proj2 (setFillStyle_state _ _))). }
  assert (Hf : filter ctx1 = FilterNone).
  { unfold ctx1. rewrite (proj2 (proj2 (proj2 (fillRect_state _ _ _ _ _)))).
    unfold ctx0. now rewrite (proj2 (proj2 (setFillStyle_state _ _))). }
  assert (Fin : forall x y, hasBitmap (canvas ctx1) = true ->
            inside (width (canvas ctx1)) (height (canvas ctx1)) x y = true ->
            pixelAt (canvas ctx1) x y = stored fill /\
            (alpha fill = 255 -> pixelAt (canvas ctx1) x y = fill)).
  { intros x y Hb Hin. rewrite (Hfill x y Hb Hin). split; [reflexivity|].
    intros Ha. now apply stored_opaque. }
  unfold drawImage.
  destruct (Num.toInteger (dx g)) as [X|] eqn:EX;
    [destruct (Num.toInteger (dy g)) as [Y|] eqn:EY|].
  - unfold usable. destruct ((width img <=? 0) || (height img <=? 0)); cbn [bind ret].
    + exists ctx1. split; [reflexivity|]. intros Hb x y Hin _. now apply Fin.
    + eexists. split; [reflexivity|]. intros Hb x y Hin Hout.
      rewrite hasBitmap_paint in Hb.
      rewrite (proj1 (paint_size _ _)), (proj2 (paint_size _ _)) in Hin.
      rewrite paint_pixel, Hop, Hf by assumption. cbn [applyFilter]. unfold placed.
      rewrite (Hout X Y eq_refl eq_refl).
      rewrite compose_over_clear by reflexivity. now apply Fin.
  - exists ctx1. split; [reflexivity|]. intros Hb x y Hin _. now apply Fin.
  - exists ctx1. split; [reflexivity|]. intros Hb x y Hin _. now apply Fin.
Qed.

Lemma padCanvas_fill_witness :
  (exists ctx,
     padCanvas (B := Reference.browser)
       (Reference.solid 200 100 Reference.greyPixel) 1%float "white" = Ok ctx /\
     pixelAt (canvas ctx) 20 10 = white) /\
  (exists ctx,
     padCanvas (B := Reference.browser)
       (Reference.solid 200 100 Reference.greyPixel) 1%float "no such colour"
     = Ok ctx /\
     pixelAt (canvas ctx) 20 10 = black).
Proof.
  split.
  - destruct (padCanvas_fill (B := Reference.browser)
                (Reference.solid 200 100 Reference.greyPixel) 1%float "white")
      as (ctx & Hc & Hpix).
    exists ctx. split; [exact Hc|].
    destruct (padCanvas_size (B := Reference.browser)
                (Reference.solid 200 100 Reference.greyPixel) 1%float "white")
      as (ctx' & Hc' & Hs).
    rewrite Hc in Hc'. injection Hc' as <-.
    cbn [Reference.solid width height] in Hs.
    replace (padSize 200 100 1%float) with (200, 200) in Hs
      by (vm_compute; reflexivity).
    injection Hs as Hw Hh.
    refine (proj2 (Hpix _ 20 10 _ _) eq_refl).
    + apply hasBitmap_backed; rewrite ?Hw, ?Hh; reflexivity.
    + rewrite Hw, Hh. reflexivity.
    + intros X Y HX HY. vm_compute in HX, HY.
      injection HX as <-. injection HY as <-. reflexivity.
  - destruct (padCanvas_fill (B := Reference.browser)
                (Reference.solid 200 100 Reference.greyPixel) 1%float "no such colour")
      as (ctx & Hc & Hpix).
    exists ctx. split; [exact Hc|].
    destruct (padCanvas_size (B := Reference.browser)
                (Reference.solid 200 100 Reference.greyPixel) 1%float
                "no such colour")
      as (ctx' & Hc' & Hs).
    rewrite Hc in Hc'. injection Hc' as <-.
    cbn [Reference.solid width height] in Hs.
    replace (padSize 200 100 1%float) with (200, 200) in Hs
      by (vm_compute; reflexivity).
    injection Hs as Hw Hh.
    refine (proj2 (Hpix _ 20 10 _ _) eq_refl).
    + apply hasBitmap_backed; rewrite ?Hw, ?Hh; reflexivity.
    + rewrite Hw, Hh. reflexivity.
    + intros X Y HX HY. vm_compute in HX, HY.
      injection HX as <-. injection HY as <-. reflexivity.
Defined.

(* ================================================================== *)
(** * Cropping *)
(* ================================================================== *)

Lemma SFcompare_finite_refl s m e :
  SFcompare (S754_finite s m e) (S754_finite s m e) = Some Eq.
Proof.
  cbn. destruct s; rewrite Z.compare_refl, Pos.compare_cont_refl; reflexivity.
Qed.

Lemma whole_ofZ z : 0 <= z < 2 ^ 53 -> whole (Num.ofZ z) = Some z.
Proof.
  intros H. unfold whole. rewrite toInteger_ofZ by assumption.
  destruct z as [|p|p]; [reflexivity| |lia].
  rewrite eqb_spec. cbn [Num.ofZ]. rewrite Prim2SF_ofPos by lia.
  unfold SFeqb. now rewrite SFcompare_finite_refl.
Qed.

Lemma finite_ofZ z : 0 <= z < 2 ^ 53 -> finite (Num.ofZ z) = true.
Proof. intros H. unfold finite. now rewrite toInteger_ofZ. Qed.

Lemma ofZ_nonzero z : 0 < z < 2 ^ 53 -> PrimFloat.eqb (Num.ofZ z) 0 = false.
Proof.
  intros H. destruct z as [|p|p]; try lia.
  rewrite eqb_spec. cbn [Num.ofZ]. rewrite Prim2SF_ofPos by lia. reflexivity.
Qed.

Section CropFacts.
Context {B : Browser} {C : Codecs}.

(** Cropping never throws, and the canvas has the rounded size of the
    box. *)
Lemma cropCanvas_total img box :
  exists ctx, cropCanvas img box = Ok ctx /\
    width (canvas ctx) = canvasDim 300 (Num.round (box_width box)) /\
    height (canvas ctx) = canvasDim 150 (Num.round (box_height box)).
Proof.
  unfold cropCanvas, drawImageRegion, usable.
  destruct (_ && _); [|eauto].
  destruct ((width img <=? 0) || (height img <=? 0)); cbn [bind ret]; [eauto|].
  destruct (_ || _); eauto.
Qed.

(** X13. Cropping to a box of whole pixels of a size the platform's
    canvas can hold: the canvas has the width and the height of the
    box, and its pixel (x, y) is what a canvas holds of the pixel
    (box.x + x, box.y + y) of the image (the pixel itself when it is
    opaque), or transparent where the box reaches beyond the image. *)
Theorem cropCanvas_copies_box img bx by_ bw bh :
  0 < width img -> 0 < height img ->
  0 <= bx < 2 ^ 53 -> 0 <= by_ < 2 ^ 53 ->
  0 < bw <= 2147483647 -> 0 < bh <= 2147483647 ->
  backed bw bh = true ->
  exists ctx,
    cropCanvas img {| box_x := Num.ofZ bx; box_y := Num.ofZ by_;
                      box_width := Num.ofZ bw; box_height := Num.ofZ bh |}
      = Ok ctx /\
    width (canvas ctx) = bw /\ height (canvas ctx) = bh /\
    forall x y, inside bw bh x y = true ->
      pixelAt (canvas ctx) x y =
      (if inside (width img) (height img) (bx + x) (by_ + y)
       then stored (pixelAt img (bx + x) (by_ + y))
       else transparentBlack) /\
      (inside (width img) (height img) (bx + x) (by_ + y) = true ->
       alpha (pixelAt img (bx + x) (by_ + y)) = 255 ->
       pixelAt (canvas ctx) x y = pixelAt img (bx + x) (by_ + y)).
Proof.
  intros Hw Hh Hx Hy Hbw Hbh Hbk.
  assert (Bw : 0 <= bw < 2 ^ 53) by (change (2 ^ 53) with 9007199254740992; lia).
  assert (Bh : 0 <= bh < 2 ^ 53) by (change (2 ^ 53) with 9007199254740992; lia).
  unfold cropCanvas, drawImageRegion. cbn [box_x box_y box_width box_height].
  rewrite !finite_ofZ by assumption.
  change (finite 0%float) with true. cbn [andb].
  rewrite usable_image by assumption. cbn [bind].
  rewrite !ofZ_nonzero by lia. cbn [orb].
  eexists. split; [reflexivity|].
  rewrite !round_ofZ by assumption.
  set (ctx0 := newCanvas (Num.ofZ bw) (Num.ofZ bh)).
  assert (W0 : width (canvas ctx0) = bw) by (cbn; apply canvasDim_ofZ; lia).
  assert (H0 : height (canvas ctx0) = bh) by (cbn; apply canvasDim_ofZ; lia).
  assert (B0 : hasBitmap (canvas ctx0) = true)
    by (apply hasBitmap_backed; rewrite ?W0, ?H0; (lia || assumption)).
  split; [exact W0|]. split; [exact H0|].
  intros x y Hin.
  rewrite paint_pixel; [|exact B0|rewrite W0, H0; exact Hin].
  cbn [ctx0 newCanvas globalCompositeOperation filter applyFilter canvas pixelAt].
  unfold regionLayer. rewrite !whole_ofZ by assumption.
  change (whole 0%float) with (Some 0).
  rewrite !Z.eqb_refl. cbn [andb].
  destruct (0 <? bw) eqn:E1; [|apply Z.ltb_ge in E1; lia].
  destruct (0 <? bh) eqn:E2; [|apply Z.ltb_ge in E2; lia].
  cbn [andb]. unfold region.
  rewrite !Z.sub_0_r, Hin. cbn [andb].
  destruct (inside (width img) (height img) (bx + x) (by_ + y)).
  - split; [reflexivity|]. intros _ Ha. now apply stored_opaque.
  - split; [reflexivity|]. discriminate.
Qed.

End CropFacts.

Lemma cropCanvas_copies_box_witness :
  exists ctx,
    cropCanvas (B := Reference.browser) (C := Samples.codecs)
      (Reference.solid 300 200 Reference.greyPixel)
      {| box_x := 280%float; box_y := 20%float;
         box_width := 40%float; box_height := 30%float |} = Ok ctx /\
    width (canvas ctx) = 40 /\ height (canvas ctx) = 30 /\
    pixelAt (canvas ctx) 5 5 = Reference.greyPixel /\
    pixelAt (canvas ctx) 25 5 = transparentBlack.
Proof.
  destruct (cropCanvas_copies_box (B := Reference.browser) (C := Samples.codecs)
              (Reference.solid 300 200 Reference.greyPixel) 280 20 40 30
              ltac:(cbn; lia) ltac:(cbn; lia) ltac:(lia) ltac:(lia)
              ltac:(lia) ltac:(lia) eq_refl)
    as (ctx & Hc & Hw & Hh & Hpix).
  exists ctx. split; [exact Hc|]. split; [exact Hw|]. split; [exact Hh|]. split.
  - exact (proj2 (Hpix 5 5 eq_refl) eq_refl eq_refl).
  - exact (proj1 (Hpix 25 5 eq_refl)).
Defined.

(** X14. [cropImage] rejects exactly when the source fails to load.
    When it loads, it resolves with what [dataUrlToSourceImage] reads
    from the data URL of the crop canvas: [null] when the canvas holds
    no pixels, as for a box whose width or height is NaN, a zero or an
    infinity, or a box too large for the platform; and for a PNG
    source, on a platform whose PNG encoder writes base64 text, a PNG
    image holding the encoded canvas whenever the canvas holds
    pixels. *)
Theorem cropImage_outcomes {B : Browser} {C : Codecs} image box :
  match decode (sourceImageToDataUrl image) with
  | None => cropImage image box = Err LoadError
  | Some img =>
      exists ctx out,
        cropCanvas img box = Ok ctx /\
        cropImage image box = Ok out /\
        (degenerate (box_width box) = true \/
         degenerate (box_height box) = true -> out = None) /\
        (hasBitmap (canvas ctx) = false -> out = None) /\
        (hasBitmap (canvas ctx) = true ->
         asciiLowerCase (mimeType image) = "image/png" ->
         base64Text (encodePNG (canvas ctx)) ->
         out = Some {| base64 := encodePNG (canvas ctx);
                       mimeType := "image/png" |})
  end.
Proof.
  unfold cropImage, loadImage.
  destruct (decode (sourceImageToDataUrl image)) as [img|]; [|reflexivity].
  cbn [bind]. destruct (cropCanvas_total img box) as (ctx & Hc & Hw & Hh).
  exists ctx. eexists. split; [exact Hc|]. rewrite Hc. cbn [bind]. unfold ret.
  split; [reflexivity|].
  assert (Hnone : hasBitmap (canvas ctx) = false ->
                  dataUrlToSourceImage (toDataURLAs (mimeType image) ctx) = None).
  { intros Hb. unfold toDataURLAs. rewrite Hb. reflexivity. }
  split; [|split; [exact Hnone|]].
  - intros Hd. apply Hnone. apply hasBitmap_empty. rewrite Hw, Hh.
    destruct Hd as [Hd|Hd];
      rewrite (round_degenerate _ Hd), (canvasDim_degenerate _ _ Hd);
      [left|right]; lia.
  - intros Hb Hpng [Hf Hcomma]. unfold toDataURLAs. rewrite Hb.
    cbn [negb]. cbv zeta. rewrite Hpng.
    change (String.eqb "image/png" "image/png") with true. cbv iota.
    apply (dataUrl_clean_roundtrip (encodePNG (canvas ctx)) "image/png");
      try reflexivity; assumption.
Qed.

Lemma cropImage_outcomes_witness :
  cropImage (B := Reference.browser) (C := Samples.codecs)
    (Reference.image "PHOTO")
    {| box_x := 10%float; box_y := 10%float;
       box_width := 0%float; box_height := 30%float |} = Ok None.
Proof.
  destruct (cropImage_outcomes (B := Reference.browser) (C := Samples.codecs)
              (Reference.image "PHOTO")
              {| box_x := 10%float; box_y := 10%float;
                 box_width := 0%float; box_height := 30%float |})
    as (ctx & out & _ & Hout & Hnull & _).
  rewrite Hout. apply f_equal. apply Hnull. left. reflexivity.
Defined.

(* ================================================================== *)
(** * More about outpainting *)
(* ================================================================== *)

Section RequestFacts.
Context {B : Browser}.


End RequestFacts.

Section OutcomeFacts.
Context {B : Browser} {R : Remote}.

Lemma finalCanvas_total img resultImg g :
  exists fCtx, Sdk.finalCanvas img resultImg g = Ok fCtx.
Proof.
  unfold Sdk.finalCanvas.
  destruct (drawImageScaled_image_state resultImg 0%float 0%float
              (canvasWidth g) (canvasHeight g)
              (newCanvas (canvasWidth g) (canvasHeight g))) as (c1 & -> & _).
  cbn [bind].
  destruct (drawImage_image_total img (dx g) (dy g) c1) as (c2 & -> & _). eauto.
Qed.

Lemma imageCanvas_total img g : exists imgCtx, Sdk.imageCanvas img g = Ok imgCtx.
Proof.
  unfold Sdk.imageCanvas.
  destruct (drawImage_image_total img (dx g) (dy g)
              (fillRect 0 0 (canvasWidth g) (canvasHeight g)
                 (setFillStyle "black"
                    (newCanvas (canvasWidth g) (canvasHeight g)))))
    as (c & -> & _). eauto.
Qed.

End OutcomeFacts.


(** X16. The ways [outpaintImage] (lines 1335-1376) settles. It rejects
    with the load error when the source fails to load. When the source
    loads: a rejection of the model call is passed on; an answer
    without a part of inline data, or whose first such part has no
    data, gives [null]; an answer whose image fails to load rejects
    with the load error; and every other answer gives the data URL of
    the finishing canvas. *)
Theorem outpaintImage_outcomes {B : Browser} {R : Remote}
  sourceImage targetAspectRatio prompt :
  match decode (sourceImageToDataUrl sourceImage) with
  | None =>
      Sdk.outpaintImage sourceImage targetAspectRatio prompt = Err LoadError
  | Some img =>
      (forall e,
         (forall request,
            generateContent "gemini-2.5-flash-image" request = Err e) ->
         Sdk.outpaintImage sourceImage targetAspectRatio prompt = Err e) /\
      (forall response,
         (forall request,
            generateContent "gemini-2.5-flash-image" request = Ok response) ->
         match inlineAnswer response with
         | None =>
             Sdk.outpaintImage sourceImage targetAspectRatio prompt = Ok None
         | Some (m, d) =>
             if JS.falsy d
             then Sdk.outpaintImage sourceImage targetAspectRatio prompt = Ok None
             else
               match decode ("data:" ++ (if JS.falsy m then "image/png" else m)
                               ++ ";base64," ++ d) with
               | None =>
                   Sdk.outpaintImage sourceImage targetAspectRatio prompt
                   = Err LoadError
               | Some resultImg =>
                   exists fCtx,
                     Sdk.finalCanvas img resultImg
                       (padGeometry (widthOf img) (heightOf img) targetAspectRatio)
                     = Ok fCtx /\
                     Sdk.outpaintImage sourceImage targetAspectRatio prompt
                     = Ok (Some (toDataURL fCtx))
               end
         end)
  end.
Proof.
  unfold Sdk.outpaintImage, loadImage.
  destruct (decode (sourceImageToDataUrl sourceImage)) as [img|]; [|reflexivity].
  cbn [bind].
  set (g := padGeometry (widthOf img) (heightOf img) targetAspectRatio).
  destruct (imageCanvas_total img g) as (imgCtx & ->). cbn [bind]. split.
  - intros e He. now rewrite He.
  - intros response Hr. rewrite Hr. cbn [bind try_catch]. unfold inlineAnswer.
    destruct (match response with
              | Some parts => Sdk.findInlineData parts
              | None => None
              end) as [[m d]|]; [|reflexivity].
    destruct (JS.falsy d); [reflexivity|]. unfold loadImage.
    destruct (decode _) as [resultImg|]; [|reflexivity]. cbn [bind].
    destruct (finalCanvas_total img resultImg g) as (fCtx & Hf).
    exists fCtx. split; [exact Hf|]. now rewrite Hf.
Qed.

Lemma outpaintImage_outcomes_witness :
  Sdk.outpaintImage (B := Reference.browser) (R := Reference.remote)
    (Reference.image "missing") 1%float "sky" = Err LoadError /\
  exists fCtx,
    Sdk.finalCanvas (B := Reference.browser)
      (Reference.solid 200 100 Reference.greyPixel)
      (Reference.solid 1 1 Reference.bluePixel)
      (padGeometry 200%float 100%float 1%float) = Ok fCtx /\
    Sdk.outpaintImage (B := Reference.browser) (R := Reference.remote)
      (Reference.image "WIDE") 1%float "sky"
    = Ok (Some (toDataURL (B := Reference.browser) fCtx)).
Proof.
  split.
  - exact (outpaintImage_outcomes (B := Reference.browser) (R := Reference.remote)
             (Reference.image "missing") 1%float "sky").
  - exact (proj2 (outpaintImage_outcomes (B := Reference.browser)
                    (R := Reference.remote) (Reference.image "WIDE") 1%float "sky")
             (Some [InlineData "image/png" "BLUE"]) (fun _ => eq_refl)).
Defined.

(* ================================================================== *)
(** * Rendering: the aspect ratio that reaches the generator *)
(* ================================================================== *)

Lemma closestLoop_label ratio rs m c :
  closestLoop ratio rs m c = c \/ In (closestLoop ratio rs m c) (map fst rs).
Proof.
  revert m c. induction rs as [|[l v] rs IH]; intros m c; cbn [closestLoop map fst].
  - now left.
  - destruct (PrimFloat.ltb _ m).
    + destruct (IH (abs (ratio - v))%float l) as [->|H]; right; [now left|now right].
    + destruct (IH m c) as [->|H]; [now left|right; now right].
Qed.

(** [getClosestAspectRatio] always resolves, with a label of its
    table. *)
Lemma getClosestAspectRatio_label {B : Browser} image :
  exists label, getClosestAspectRatio image = Ok label /\
                In label (map fst supportedRatios).
Proof.
  unfold getClosestAspectRatio, loadImage.
  destruct (decode (sourceImageToDataUrl image)) as [img|]; cbn [bind try_catch ret].
  - eexists. split; [reflexivity|].
    destruct (closestLoop_label (widthOf img / heightOf img)%float supportedRatios
                Num.MAX_VALUE "1:1") as [->|H]; [now left|exact H].
  - exists "1:1". split; [reflexivity|now left].
Qed.

Lemma includes_In l s : includes l s = true <-> In s l.
Proof.
  unfold includes. rewrite existsb_exists. split.
  - intros (x & Hx & E). apply String.eqb_eq in E. now subst.
  - intros H. exists s. split; [exact H|apply String.eqb_refl].
Qed.

(** X17. [generateImages] never rejects, and the aspect ratio it hands
    to the generator is always one of "1:1", "3:4", "4:3", "9:16" and
    "16:9": the ratio asked for when it is one of these, and otherwise
    (for "Auto" or any other string) the label
    [getClosestAspectRatio] gives for the source. *)
Theorem generateImages_supported_ratio {B : Browser} {R : Remote}
  s p t n ar r isAngle cl :
  exists vr,
    In vr renderRatios /\
    (In ar renderRatios -> vr = ar) /\
    (~ In ar renderRatios -> getClosestAspectRatio s = Ok vr) /\
    generateImages s p t n ar r isAngle cl =
    Ok (generateImageRest
          (match r with
           | Some _ =>
               "Task: Architectural render. Prompt: " ++ p ++ " Use reference style."
           | None => "Task: Architectural render. Prompt: " ++ p
           end) vr n []).
Proof.
  unfold generateImages.
  assert (P : (match r with
               | Some _ =>
                   ("Task: Architectural render. Prompt: " ++ p)
                     ++ " Use reference style."
               | None => "Task: Architectural render. Prompt: " ++ p
               end) =
              (match r with
               | Some _ =>
                   "Task: Architectural render. Prompt: " ++ p ++ " Use reference style."
               | None => "Task: Architectural render. Prompt: " ++ p
               end)).
  { destruct r; [|reflexivity]. apply append_assoc_string. }
  cbv zeta. rewrite P. clear P.
  destruct (includes renderRatios ar) eqn:E.
  - assert (String.eqb ar "Auto" = false) as ->.
    { apply includes_In in E. cbn in E.
      destruct E as [<-|[<-|[<-|[<-|[<-|[]]]]]]; reflexivity. }
    cbn [orb negb bind ret try_catch]. exists ar.
    apply includes_In in E. split; [exact E|]. split; [reflexivity|].
    split; [intros H; now destruct H|reflexivity].
  - rewrite orb_true_r.
    destruct (getClosestAspectRatio_label s) as (label & Hl & Hin).
    rewrite Hl. cbn [bind try_catch ret]. exists label. split.
    + cbn in Hin. cbn. tauto.
    + split; [|split; [intros _; reflexivity|reflexivity]].
      intros Hin'. apply includes_In in Hin'. congruence.
Qed.

Lemma generateImages_supported_ratio_witness :
  exists vr,
    In vr renderRatios /\
    (In "Auto" renderRatios -> vr = "Auto") /\
    (~ In "Auto" renderRatios ->
     getClosestAspectRatio (B := Reference.browser) (Reference.image "PHOTO") = Ok vr) /\
    generateImages (B := Reference.browser) (R := Reference.remote)
      (Reference.image "PHOTO") "a house" Exterior 2 "Auto" None false 3%float =
    Ok (generateImageRest (Remote := Reference.remote)
          "Task: Architectural render. Prompt: a house" vr 2 []).
Proof.
  exact (generateImages_supported_ratio (B := Reference.browser)
           (R := Reference.remote) (Reference.image "PHOTO") "a house" Exterior 2
           "Auto" None false 3%float).
Defined.

(** X18. The sizes the fallback generator of [generateImageRest] asks
    for agree with the table of [getClosestAspectRatio]: an image of the
    size asked for under a label of the table is given that label
    again. *)
Theorem fallbackSize_classified {B : Browser} image img label :
  In label (map fst supportedRatios) ->
  decode (sourceImageToDataUrl image) = Some img ->
  (width img, height img) = fallbackSize label ->
  getClosestAspectRatio image = Ok label.
Proof.
  intros Hl Hd Hs. unfold getClosestAspectRatio, loadImage. rewrite Hd.
  cbn [bind try_catch ret]. unfold widthOf, heightOf.
  cbn in Hl. destruct Hl as [<-|[<-|[<-|[<-|[<-|[]]]]]];
    cbn in Hs; injection Hs as -> ->; vm_compute; reflexivity.
Qed.

Lemma fallbackSize_classified_witness :
  getClosestAspectRatio (B := Samples.sized 1280 720) (Reference.image "any")
  = Ok "16:9".
Proof.
  exact (fallbackSize_classified (B := Samples.sized 1280 720)
           (Reference.image "any")
           (Reference.solid 1280 720 Reference.greyPixel) "16:9"
           ltac:(cbn; tauto) eq_refl eq_refl).
Defined.

(* ================================================================== *)
(** * The API key and the preferred model *)
(* ================================================================== *)

Lemma getItem_withItem key value s : getItem key (withItem key value s) = Some value.
Proof.
  induction s as [|[k v] s IH]; cbn.
  - now rewrite String.eqb_refl.
  - destruct (String.eqb k key) eqn:E; cbn; rewrite E; [reflexivity|exact IH].
Qed.

Lemma getItem_withItem_other key key' value s :
  key' <> key -> getItem key' (withItem key value s) = getItem key' s.
Proof.
  intros Hne. induction s as [|[k v] s IH]; cbn.
  - destruct (String.eqb key key') eqn:E; [|reflexivity].
    apply String.eqb_eq in E. congruence.
  - destruct (String.eqb k key) eqn:E; cbn.
    + destruct (String.eqb k key') eqn:E'; [|reflexivity].
      apply String.eqb_eq in E, E'. congruence.
    + now rewrite IH.
Qed.

Lemma getItem_removeItem_other key key' s :
  key' <> key -> getItem key' (removeItem key s) = getItem key' s.
Proof.
  intros Hne. induction s as [|[k v] s IH]; cbn; [reflexivity|].
  destruct (String.eqb k key) eqn:E; cbn.
  - destruct (String.eqb k key') eqn:E'; [|exact IH].
    apply String.eqb_eq in E, E'. congruence.
  - now rewrite IH.
Qed.

Lemma getItem_removeItem key s : getItem key (removeItem key s) = None.
Proof.
  induction s as [|[k v] s IH]; cbn; [reflexivity|].
  destruct (String.eqb k key) eqn:E; cbn; [exact IH|]. now rewrite E.
Qed.

Section SettingsFacts.
Context {E : Environment}.

Lemma setItem_some key value s s' :
  setItem key value s = Some s' ->
  s' = withItem key value s /\ withinQuota (withItem key value s) = true.
Proof.
  unfold setItem. destruct (withinQuota _); [|discriminate].
  intros [= <-]. split; reflexivity.
Qed.

Lemma setItem_none key value s :
  setItem key value s = None -> withinQuota (withItem key value s) = false.
Proof. unfold setItem. destruct (withinQuota _); [discriminate|reflexivity]. Qed.

(** What a call of [updateGeminiApiKey] that returns leaves. *)
Lemma updateGeminiApiKey_returned newKey st st' :
  updateGeminiApiKey newKey st = Returned st' ->
  getStoredApiKey st' =
    (if JS.falsy newKey then orElse envApiKey "" else newKey) /\
  ai st' = clientFor (getStoredApiKey st') /\
  preferredModelId st' = preferredModelId st /\
  getItem "cpgvn_preferred_model" (localStorage st') =
  getItem "cpgvn_preferred_model" (localStorage st).
Proof.
  unfold updateGeminiApiKey. destruct (JS.falsy newKey) eqn:F.
  - intros [= <-]. unfold initAI, getStoredApiKey. cbn [localStorage ai preferredModelId].
    rewrite getItem_removeItem, getItem_removeItem_other by discriminate.
    repeat split.
  - destruct (setItem _ _ _) as [storage|] eqn:S; [|discriminate].
    apply setItem_some in S as [-> _].
    intros [= <-]. unfold initAI, getStoredApiKey. cbn [localStorage ai preferredModelId].
    rewrite getItem_withItem, getItem_withItem_other by discriminate.
    cbn [orElse]. rewrite F. repeat split.
Qed.

(** What a call of [updatePreferredModel] that returns leaves. *)
Lemma updatePreferredModel_returned modelId st st' :
  updatePreferredModel modelId st = Returned st' ->
  getStoredApiKey st' = getStoredApiKey st /\
  ai st' = ai st /\
  preferredModelId st' = modelId /\
  getItem "cpgvn_preferred_model" (localStorage st') = Some modelId.
Proof.
  unfold updatePreferredModel.
  destruct (setItem _ _ _) as [storage|] eqn:S; [|discriminate].
  apply setItem_some in S as [-> _]. intros [= <-].
  unfold getStoredApiKey. cbn [localStorage ai preferredModelId].
  rewrite getItem_withItem, getItem_withItem_other by discriminate.
  repeat split.
Qed.

End SettingsFacts.

(** X19. [updateGeminiApiKey(newKey)] with a key that is not empty
    throws exactly when the storage with the key in it is over the
    quota, and then it leaves the storage, [ai] and the preferred model
    as they were: [initAI()] is not reached. When it returns,
    [getStoredApiKey()] is that key, whatever was stored before.
    [updateGeminiApiKey('')] always returns, and afterwards
    [getStoredApiKey()] is the key of the environment, or the empty
    string when there is none. Whenever the call returns, [ai] is an
    instance made for the key [getStoredApiKey()] returns, or [null]
    when that key is empty or the constructor throws. *)
Theorem updateGeminiApiKey_roundtrip {E : Environment} newKey st :
  match updateGeminiApiKey newKey st with
  | Returned st' =>
      (JS.falsy newKey = true \/
       withinQuota (withItem "cpgvn_gemini_api_key" newKey (localStorage st))
       = true) /\
      getStoredApiKey st' =
        (if JS.falsy newKey then orElse envApiKey "" else newKey) /\
      ai st' = clientFor (getStoredApiKey st') /\
      preferredModelId st' = preferredModelId st
  | Thrown st' =>
      JS.falsy newKey = false /\
      withinQuota (withItem "cpgvn_gemini_api_key" newKey (localStorage st))
      = false /\
      st' = st
  end.
Proof.
  destruct (updateGeminiApiKey newKey st) as [st'|st'] eqn:U.
  - destruct (updateGeminiApiKey_returned newKey st st' U) as (K & A & P & _).
    split; [|split; [exact K|split; [exact A|exact P]]].
    unfold updateGeminiApiKey in U. destruct (JS.falsy newKey); [now left|right].
    destruct (setItem _ _ _) eqn:S; [|discriminate].
    now apply setItem_some in S.
  - unfold updateGeminiApiKey in U. destruct (JS.falsy newKey); [discriminate|].
    destruct (setItem _ _ _) eqn:S; [discriminate|].
    injection U as <-. split; [reflexivity|]. split; [|reflexivity].
    now apply setItem_none.
Qed.

(** X20. The two settings do not disturb each other and survive a
    reload of the page, as long as the storage takes them: when saving
    the key and then the preferred model returns, and so does saving
    them in the other order, both leave the same key, the same [ai] and
    the same model; a module loaded afresh on the storage they left
    finds the same key and makes the same [ai], and its preferred model
    is the one saved, or the default "gemini-2.0-flash-exp" when the
    one saved is the empty string. When [updatePreferredModel] throws
    for want of room, the module goes on with the new model while the
    storage still holds the old one, which a reload brings back. *)
Theorem settings_survive_reload {E : Environment} key modelId st :
  (forall st1 st2,
     andThen (updateGeminiApiKey key st) (updatePreferredModel modelId)
       = Returned st1 ->
     andThen (updatePreferredModel modelId st) (updateGeminiApiKey key)
       = Returned st2 ->
     let reloaded := loadService (localStorage st1) in
     (getStoredApiKey st1 = getStoredApiKey st2 /\ ai st1 = ai st2 /\
      preferredModelId st1 = preferredModelId st2) /\
     (getStoredApiKey reloaded = getStoredApiKey st1 /\
      ai reloaded = ai st1 /\
      preferredModelId reloaded =
        if JS.falsy modelId then "gemini-2.0-flash-exp"
        else preferredModelId st1)) /\
  (forall st',
     updatePreferredModel modelId st = Thrown st' ->
     withinQuota (withItem "cpgvn_preferred_model" modelId (localStorage st))
       = false /\
     preferredModelId st' = modelId /\
     localStorage st' = localStorage st /\ ai st' = ai st /\
     preferredModelId (loadService (localStorage st')) =
       orElse (getItem "cpgvn_preferred_model" (localStorage st))
              "gemini-2.0-flash-exp").
Proof.
  split.
  - intros st1 st2 H1 H2 reloaded.
    destruct (updateGeminiApiKey key st) as [sa|sa] eqn:Ua; [|discriminate].
    cbn [andThen] in H1.
    destruct (updatePreferredModel modelId st) as [sb|sb] eqn:Ub; [|discriminate].
    cbn [andThen] in H2.
    destruct (updateGeminiApiKey_returned key st sa Ua) as (Ka & Aa & Pa & _).
    destruct (updatePreferredModel_returned modelId sa st1 H1) as (K1 & A1 & P1 & G1).
    destruct (updatePreferredModel_returned modelId st sb Ub) as (Kb & Ab & Pb & _).
    destruct (updateGeminiApiKey_returned key sb st2 H2) as (K2 & A2 & P2 & _).
    assert (K : getStoredApiKey st1 = getStoredApiKey st2) by congruence.
    assert (A : ai st1 = clientFor (getStoredApiKey st1)) by congruence.
    split; [split; [exact K|split; congruence]|].
    subst reloaded. unfold loadService, initAI. cbn [ai preferredModelId].
    change (getStoredApiKey
              {| localStorage := localStorage st1; ai := None;
                 preferredModelId := _ |})
      with (getStoredApiKey st1).
    split; [reflexivity|]. split; [now rewrite A|].
    rewrite G1, P1. reflexivity.
  - intros st' H. unfold updatePreferredModel in H.
    destruct (setItem _ _ _) eqn:S; [discriminate|]. injection H as <-.
    split; [now apply setItem_none|]. repeat split.
Qed.

Lemma settings_survive_reload_witness :
  let st := {| localStorage := [("cpgvn_preferred_model", "old-model")];
               ai := None; preferredModelId := "old-model" |} in
  let st1 := {| localStorage := [("cpgvn_preferred_model", "new-model");
                                 ("cpgvn_gemini_api_key", "KEY")];
                ai := Some {| apiKey := "KEY" |};
                preferredModelId := "new-model" |} in
  andThen (updateGeminiApiKey (E := Samples.environment) "KEY" st)
    (updatePreferredModel (E := Samples.environment) "new-model") = Returned st1 /\
  getStoredApiKey (E := Samples.environment)
    (loadService (E := Samples.environment) (localStorage st1)) = "KEY" /\
  preferredModelId (loadService (E := Samples.environment) (localStorage st1))
    = "new-model".
Proof.
  cbv zeta. split; [reflexivity|].
  destruct (proj1 (settings_survive_reload (E := Samples.environment)
                     "KEY" "new-model"
                     {| localStorage := [("cpgvn_preferred_model", "old-model")];
                        ai := None; preferredModelId := "old-model" |})
              {| localStorage := [("cpgvn_preferred_model", "new-model");
                                  ("cpgvn_gemini_api_key", "KEY")];
                 ai := Some {| apiKey := "KEY" |};
                 preferredModelId := "new-model" |}
              {| localStorage := [("cpgvn_preferred_model", "new-model");
                                  ("cpgvn_gemini_api_key", "KEY")];
                 ai := Some {| apiKey := "KEY" |};
                 preferredModelId := "new-model" |}
              eq_refl eq_refl) as [_ (K & _ & P)].
  split; [exact K|exact P].
Defined.

(* ================================================================== *)
(** * Prompts *)
(* ================================================================== *)

Lemma trimStart_fixed s :
  match s with
  | EmptyString => True
  | String c _ => JS.isWhiteSpace c = false
  end -> JS.trimStart s = s.
Proof. destruct s as [|c s]; cbn; [reflexivity|]. now intros ->. Qed.

Lemma trimStart_head s :
  match JS.trimStart s with
  | EmptyString => True
  | String c _ => JS.isWhiteSpace c = false
  end.
Proof.
  induction s as [|c s IH]; cbn; [exact I|].
  destruct (JS.isWhiteSpace c) eqn:E; [exact IH|exact E].
Qed.

Lemma trimEnd_head s :
  match s with
  | EmptyString => True
  | String c _ => JS.isWhiteSpace c = false
  end ->
  match JS.trimEnd s with
  | EmptyString => True
  | String c _ => JS.isWhiteSpace c = false
  end.
Proof.
  destruct s as [|c s]; cbn; [auto|]. intros Hc.
  destruct (JS.trimEnd s); [rewrite Hc|]; exact Hc.
Qed.

Lemma trimEnd_idem s : JS.trimEnd (JS.trimEnd s) = JS.trimEnd s.
Proof.
  induction s as [|c s IH]; cbn; [reflexivity|].
  destruct (JS.trimEnd s) as [|d t] eqn:E.
  - destruct (JS.isWhiteSpace c) eqn:W; cbn; [reflexivity|]. now rewrite W.
  - cbn [JS.trimEnd] in *. now rewrite IH.
Qed.

(** Trimming what is trimmed already changes nothing. *)
Lemma trim_idem s : JS.trim (JS.trim s) = JS.trim s.
Proof.
  unfold JS.trim.
  rewrite (trimStart_fixed (JS.trimEnd (JS.trimStart s))).
  - apply trimEnd_idem.
  - apply trimEnd_head, trimStart_head.
Qed.

Lemma trimStart_text s :
  allWhiteSpace s = false ->
  exists c s', JS.trimStart s = String c s' /\ JS.isWhiteSpace c = false.
Proof.
  induction s as [|c s IH]; cbn; [discriminate|].
  destruct (JS.isWhiteSpace c) eqn:E; cbn; [exact IH|]. intros _. now exists c, s.
Qed.

(** Trimming leaves nothing exactly of a string of whitespace. *)
Lemma falsy_trim s : JS.falsy (JS.trim s) = allWhiteSpace s.
Proof.
  unfold JS.trim. destruct (allWhiteSpace s) eqn:E.
  - now rewrite (trimStart_whiteSpace s E).
  - destruct (trimStart_text s E) as (c & s' & -> & Hc). cbn.
    destruct (JS.trimEnd s'); [rewrite Hc|]; reflexivity.
Qed.

(** X21. [optimizeEnhancePrompt] never rejects. It asks the model once,
    with the image, when there is one, and the instruction. It resolves
    with the prompt it was given, unchanged, when that call fails or
    the answer has no text or only whitespace; and otherwise with the
    text of the answer, trimmed, which is then not empty and has no
    whitespace at either end. *)
Theorem optimizeEnhancePrompt_fallback {T : TextModel} prompt image language :
  match generateText "gemini-3-flash-preview"
          (optimizeEnhanceParts prompt image language) with
  | Err _ | Ok None =>
      optimizeEnhancePrompt prompt image language = Ok prompt
  | Ok (Some text) =>
      if allWhiteSpace text
      then optimizeEnhancePrompt prompt image language = Ok prompt
      else optimizeEnhancePrompt prompt image language = Ok (JS.trim text) /\
           JS.falsy (JS.trim text) = false /\
           JS.trim (JS.trim text) = JS.trim text
  end.
Proof.
  unfold optimizeEnhancePrompt. cbv zeta.
  destruct (generateText "gemini-3-flash-preview"
              (optimizeEnhanceParts prompt image language)) as [[text|]|e];
    cbn [bind try_catch ret]; try reflexivity.
  rewrite falsy_trim. destruct (allWhiteSpace text) eqn:E; [reflexivity|].
  split; [reflexivity|]. split; [reflexivity|apply trim_idem].
Qed.

(* ================================================================== *)
(** * The data URL parser of App.tsx *)
(* ================================================================== *)

Lemma stripPrefix_app p s r : App.stripPrefix p s = Some r -> s = p ++ r.
Proof.
  revert s. induction p as [|a p IH]; intros s; cbn.
  - now intros [= ->].
  - destruct s as [|b s]; [discriminate|].
    destruct (Ascii.eqb a b) eqn:E; [|discriminate].
    apply Ascii.eqb_eq in E. subst b. intros H. now rewrite (IH s H).
Qed.

Lemma stripPrefix_exact p r : App.stripPrefix p (p ++ r) = Some r.
Proof. induction p as [|a p IH]; cbn; [reflexivity|]. now rewrite Ascii.eqb_refl. Qed.

Lemma lowerRun_app s run rest :
  App.lowerRun s = (run, rest) -> s = run ++ rest /\ lowerLetters run = true.
Proof.
  revert run rest. induction s as [|c s IH]; intros run rest; cbn.
  - intros [= <- <-]. split; reflexivity.
  - destruct (App.isLowerLetter c) eqn:E.
    + destruct (App.lowerRun s) as [run' rest']. intros [= <- <-].
      destruct (IH run' rest' eq_refl) as [-> Hl]. cbn. now rewrite E, Hl.
    + intros [= <- <-]. split; reflexivity.
Qed.

Lemma lowerRun_exact run rest :
  lowerLetters run = true ->
  match rest with
  | EmptyString => True
  | String c _ => App.isLowerLetter c = false
  end ->
  App.lowerRun (run ++ rest) = (run, rest).
Proof.
  intros Hl Hr. induction run as [|c run IH]; cbn.
  - destruct rest as [|d rest]; [reflexivity|]. cbn. now rewrite Hr.
  - cbn in Hl. apply andb_prop in Hl as [Hc Hl]. now rewrite Hc, (IH Hl).
Qed.

Lemma lowerLetter_plain c :
  App.isLowerLetter c = true ->
  Ascii.eqb c ";" = false /\ Ascii.eqb c "," = false /\
  JS.isLineTerminator c = false.
Proof.
  destruct c as [[] [] [] [] [] [] [] []]; vm_compute; intros H;
    solve [discriminate H | repeat split].
Qed.

Lemma lowerLetters_plain s :
  lowerLetters s = true ->
  JS.contains ";" s = false /\ JS.contains "," s = false /\
  JS.singleLine s = true.
Proof.
  induction s as [|c s IH]; cbn; [repeat split|]. intros H.
  apply andb_prop in H as [Hc Hs].
  destruct (lowerLetter_plain c Hc) as (H1 & H2 & H3).
  destruct (IH Hs) as (I1 & I2 & I3). now rewrite H1, H2, H3, I1, I2, I3.
Qed.

(** X22. The parser of App.tsx and the parser of geminiService.ts agree
    where both apply. An image the parser of App.tsx returns has a type
    "image/" followed by letters a to z and a payload on one line, and
    when that payload holds no comma [dataUrlToSourceImage] of
    geminiService.ts returns the same image for the same string.
    Conversely the parser of App.tsx reads back every data URL that
    [sourceImageToDataUrl] writes for such a type and a payload that is
    not empty and is on one line. *)
Theorem App_parser_agrees :
  (forall dataUrl img,
     App.dataUrlToSourceImage dataUrl = Some img ->
     (exists letters,
        mimeType img = "image/" ++ letters /\
        lowerLetters letters = true /\ JS.falsy letters = false) /\
     JS.singleLine (base64 img) = true /\
     (JS.contains "," (base64 img) = false ->
      dataUrlToSourceImage dataUrl = Some img)) /\
  (forall letters payload,
     lowerLetters letters = true -> JS.falsy letters = false ->
     JS.falsy payload = false -> JS.singleLine payload = true ->
     App.dataUrlToSourceImage
       (sourceImageToDataUrl {| base64 := payload;
                                mimeType := "image/" ++ letters |})
     = Some {| base64 := payload; mimeType := "image/" ++ letters |}).
Proof.
  split.
  - intros u img. unfold App.dataUrlToSourceImage.
    destruct (App.stripPrefix "data:image/" u) as [s1|] eqn:E1; [|discriminate].
    destruct (App.lowerRun s1) as [letters s2] eqn:E2.
    destruct (JS.falsy letters) eqn:F; [discriminate|].
    destruct (App.stripPrefix ";base64," s2) as [payload|] eqn:E3; [|discriminate].
    destruct (JS.falsy payload) eqn:Fp; [discriminate|].
    destruct (JS.singleLine payload) eqn:L; [|discriminate].
    intros [= <-]. cbn [mimeType base64].
    apply stripPrefix_app in E1, E3. apply lowerRun_app in E2 as [E2 Hl].
    split; [exists letters; auto|]. split; [exact L|]. intros Hc.
    destruct (lowerLetters_plain letters Hl) as (H1 & H2 & H3).
    assert (u = sourceImageToDataUrl
                  {| base64 := payload; mimeType := "image/" ++ letters |}) as ->.
    { rewrite E1, E2, E3. unfold sourceImageToDataUrl. cbn [mimeType base64].
      cbn. rewrite ?append_assoc_string. reflexivity. }
    apply dataUrl_clean_roundtrip; try assumption; try reflexivity.
  - intros letters payload Hl Hf Hp Hs. unfold App.dataUrlToSourceImage.
    replace (sourceImageToDataUrl {| base64 := payload; mimeType := "image/" ++ letters |})
      with ("data:image/" ++ (letters ++ ";base64," ++ payload)).
    2:{ unfold sourceImageToDataUrl. cbn [mimeType base64]. cbn.
        rewrite ?append_assoc_string. reflexivity. }
    rewrite stripPrefix_exact.
    rewrite (lowerRun_exact letters (";base64," ++ payload) Hl) by reflexivity.
    rewrite Hf. rewrite stripPrefix_exact. now rewrite Hp, Hs.
Qed.

Lemma App_parser_agrees_witness :
  dataUrlToSourceImage "data:image/webp;base64,UklGRg==" =
    Some {| base64 := "UklGRg=="; mimeType := "image/webp" |} /\
  App.dataUrlToSourceImage
    (sourceImageToDataUrl {| base64 := "UklGRg=="; mimeType := "image/" ++ "webp" |})
  = Some {| base64 := "UklGRg=="; mimeType := "image/" ++ "webp" |}.
Proof.
  split.
  - exact (proj2 (proj2 (proj1 App_parser_agrees
                           "data:image/webp;base64,UklGRg=="
                           {| base64 := "UklGRg=="; mimeType := "image/webp" |}
                           eq_refl)) eq_refl).
  - exact (proj2 App_parser_agrees "webp" "UklGRg==" eq_refl eq_refl eq_refl eq_refl).
Defined.

(* ================================================================== *)
(** * The mask of the editor *)
(* ================================================================== *)

(** The arithmetic of the sample platforms keeps a pixel opaque when
    something is drawn over it. *)
Lemma blendOver_opaque s d :
  alpha d = 255 -> alpha (Reference.blendOver s d) = 255.
Proof.
  intros Hd. unfold Reference.blendOver.
  cbn [alpha]. rewrite Hd.
  replace (alpha s * 255 + 255 * (255 - alpha s)) with (255 * 255) by ring.
  reflexivity.
Qed.

Lemma reference_blend : blendKeepsOpaque Reference.browser.
Proof. intros s d Hd. now apply blendOver_opaque. Qed.

Lemma readback_blend : blendKeepsOpaque Samples.readback.
Proof. intros s d Hd. now apply blendOver_opaque. Qed.

Lemma readback_scaling : scalingKeepsCoverage Samples.readback.
Proof. exact reference_scaling. Qed.

Section SnapshotFacts.
Context {B : Browser}.

Lemma compose_over_opaque_destination s d :
  blendKeepsOpaque B -> alpha d = 255 ->
  255 <= alpha (compose SourceOver s d).
Proof.
  intros Hb Hd. unfold compose.
  destruct (alpha s <=? 0) eqn:E0; [lia|].
  destruct (255 <=? alpha s) eqn:E1; [apply Z.leb_le in E1; lia|].
  rewrite (Hb s d Hd). lia.
Qed.

Lemma compose_in_white d : 255 <= alpha d -> compose SourceIn white d = white.
Proof.
  intros Hd. unfold compose. cbn [alpha white].
  destruct (alpha d <=? 0) eqn:E0; [apply Z.leb_le in E0; lia|].
  cbn. destruct (255 <=? alpha d) eqn:E1; [reflexivity|apply Z.leb_gt in E1; lia].
Qed.

(** What [snapshot] leaves on its black-and-white canvas. *)
Lemma bwCanvas_pixels cw ch strokes W H :
  blendKeepsOpaque B ->
  Num.toInteger cw = Some W -> 0 < W <= 2147483647 ->
  Num.toInteger ch = Some H -> 0 < H <= 2147483647 ->
  backed W H = true ->
  0 < width strokes -> 0 < height strokes ->
  exists bwCtx,
    InpaintingModal.bwCanvas cw ch strokes = Ok bwCtx /\
    width (canvas bwCtx) = W /\ height (canvas bwCtx) = H /\
    forall x y, inside W H x y = true -> pixelAt (canvas bwCtx) x y = white.
Proof.
  intros Hb HW RW HH RH Hbk Sw Sh. unfold InpaintingModal.bwCanvas.
  rewrite (drawImage_canvas strokes _ _ 0 0) by (reflexivity || assumption).
  cbn [bind ret]. eexists. split; [reflexivity|].
  unfold fillRect. rewrite HW, HH.
  change (Num.toInteger 0%float) with (Some 0). cbv iota beta.
  unfold setFillStyle.
  change (cssColor "white") with (Some white).
  change (cssColor "black") with (Some black).
  cbn [paint canvas width height newCanvas setOperation
       globalCompositeOperation filter fillStyle applyFilter pixelAt].
  rewrite (canvasDim_whole 300 _ W HW) by lia.
  rewrite (canvasDim_whole 150 _ H HH) by lia.
  repeat split. intros x y Hin.
  assert (HB : forall p, hasBitmap {| width := W; height := H; pixelAt := p |} = true)
    by (intros p; apply hasBitmap_backed; cbn [width height]; (lia || assumption)).
  rewrite !HB, Hin. cbn [andb].
  unfold rectangle. rewrite !Z.sub_0_r, Hin.
  apply compose_in_white. apply compose_over_opaque_destination; [exact Hb|].
  reflexivity.
Qed.

End SnapshotFacts.

(** X23. The black-and-white mask of [snapshot] is white in every
    pixel, whatever the user has painted: the canvas is filled with
    opaque black before the strokes are drawn, so the white that
    'source-in' keeps where the canvas is opaque is kept everywhere.
    (The canvas has a finite size of at least one pixel each way that
    the platform's canvas can hold, the stroke canvas has pixels, and
    drawing over an opaque pixel leaves an opaque pixel.) *)
Theorem snapshot_mask_is_white {B : Browser} cw ch backgroundImage strokes W H :
  blendKeepsOpaque B ->
  Num.toInteger cw = Some W -> 0 < W <= 2147483647 ->
  Num.toInteger ch = Some H -> 0 < H <= 2147483647 ->
  backed W H = true ->
  0 < width strokes -> 0 < height strokes ->
  exists bwCtx,
    InpaintingModal.snapshot cw ch backgroundImage (Some strokes)
      = Ok (backgroundImage, toDataURL bwCtx) /\
    toDataURL bwCtx = "data:image/png;base64," ++ encodePNG (canvas bwCtx) /\
    InpaintingModal.bwCanvas cw ch strokes = Ok bwCtx /\
    width (canvas bwCtx) = W /\ height (canvas bwCtx) = H /\
    forall x y, inside W H x y = true -> pixelAt (canvas bwCtx) x y = white.
Proof.
  intros Hb HW RW HH RH Hbk Sw Sh.
  destruct (bwCanvas_pixels cw ch strokes W H Hb HW RW HH RH Hbk Sw Sh)
    as (bwCtx & Hbw & Hw & Hh & Hpix).
  exists bwCtx. split; [|split].
  - unfold InpaintingModal.snapshot. rewrite Hbw. reflexivity.
  - unfold toDataURL. rewrite hasBitmap_backed; [reflexivity| | |];
      rewrite ?Hw, ?Hh; (lia || assumption).
  - repeat (split; [assumption|]). exact Hpix.
Qed.

Lemma snapshot_mask_is_white_witness :
  exists bwCtx,
    InpaintingModal.snapshot (B := Reference.browser) 64%float 64%float
      (Reference.url "PHOTO")
      (Some (Reference.solid 64 64 (mkPixel 255 0 0 128)))
      = Ok (Reference.url "PHOTO", toDataURL (B := Reference.browser) bwCtx) /\
    toDataURL (B := Reference.browser) bwCtx =
      "data:image/png;base64," ++ encodePNG (Browser := Reference.browser) (canvas bwCtx) /\
    InpaintingModal.bwCanvas (B := Reference.browser) 64%float 64%float
      (Reference.solid 64 64 (mkPixel 255 0 0 128)) = Ok bwCtx /\
    width (canvas bwCtx) = 64 /\ height (canvas bwCtx) = 64 /\
    forall x y, inside 64 64 x y = true -> pixelAt (canvas bwCtx) x y = white.
Proof.
  exact (snapshot_mask_is_white (B := Reference.browser) 64%float 64%float
           (Reference.url "PHOTO") (Reference.solid 64 64 (mkPixel 255 0 0 128))
           64 64 reference_blend eq_refl ltac:(lia) eq_refl ltac:(lia) eq_refl
           ltac:(cbn; lia) ltac:(cbn; lia)).
Defined.

(** A bitmap that shows white wherever a white canvas does is a raster
    that is opaque throughout. *)
Lemma white_mask_opaque mask c W H :
  pixelIdentical mask c -> width c = W -> height c = H ->
  0 < W <= 2147483647 -> 0 < H <= 2147483647 ->
  (forall x y, inside W H x y = true -> pixelAt c x y = white) ->
  raster mask /\ uniformAlpha 255 mask.
Proof.
  intros (Mw & Mh & Mp) Hw Hh RW RH Hpix. split.
  - split; rewrite ?Mw, ?Mh, ?Hw, ?Hh; assumption.
  - intros x y Hin. rewrite Mw, Mh in Hin.
    pose proof (Mp x y Hin) as E. rewrite Hw, Hh in Hin.
    rewrite (Hpix x y Hin) in E. unfold visible in E.
    destruct (alpha (pixelAt mask x y) <=? 0); [discriminate E|].
    cbn in E. now rewrite E.
Qed.

(** X24. In the editor the strict compositing step keeps no pixel of
    the original. With the mask of [snapshot] (on a canvas of a size
    the platform can hold), an original that decodes to a raster of
    such a size and an answer that is not empty and decodes to an
    opaque raster: when the mask has no more than a thousand characters
    or does not decode, the result [handleGenerate] keeps is the answer
    itself; and when the mask is longer and decodes to an image that
    shows what the mask canvas shows, the result is the PNG data URL of
    a canvas that is pixel-identical to the answer stretched to the
    size of the original. *)
Theorem editor_result_is_candidate {B : Browser}
  cw ch backgroundImage strokes W H originalImage generatedResponse orig gen :
  scalingKeepsCoverage B -> blendKeepsOpaque B ->
  Num.toInteger cw = Some W -> 0 < W <= 2147483647 ->
  Num.toInteger ch = Some H -> 0 < H <= 2147483647 ->
  backed W H = true ->
  0 < width strokes -> 0 < height strokes ->
  decode originalImage = Some orig -> raster orig ->
  backed (width orig) (height orig) = true ->
  JS.falsy generatedResponse = false ->
  decode generatedResponse = Some gen -> raster gen -> uniformAlpha 255 gen ->
  exists bwCtx,
    InpaintingModal.bwCanvas cw ch strokes = Ok bwCtx /\
    InpaintingModal.snapshot cw ch backgroundImage (Some strokes)
      = Ok (backgroundImage, toDataURL bwCtx) /\
    (Z.of_nat (String.length (toDataURL bwCtx)) <= 1000 \/
     decode (toDataURL bwCtx) = None ->
     ImageEditor.finalResult originalImage (Some generatedResponse)
       (toDataURL bwCtx)
       = Ok (Some generatedResponse)) /\
    (forall mask,
       1000 < Z.of_nat (String.length (toDataURL bwCtx)) ->
       decode (toDataURL bwCtx) = Some mask ->
       pixelIdentical mask (canvas bwCtx) ->
       exists ctx,
         ImageEditor.finalResult originalImage (Some generatedResponse)
           (toDataURL bwCtx)
           = Ok (Some (toDataURL ctx)) /\
         toDataURL ctx = "data:image/png;base64," ++ encodePNG (canvas ctx) /\
         pixelIdentical (canvas ctx) (stretched gen (width orig) (height orig))).
Proof.
  intros Hscale Hblend HW RW HH RH Hbk Sw Sh Ho Ro Hbo Hne Hg Rg Ug.
  destruct (bwCanvas_pixels cw ch strokes W H Hblend HW RW HH RH Hbk Sw Sh)
    as (bwCtx & Hbw & Hw & Hh & Hpix).
  exists bwCtx. split; [exact Hbw|]. split; [|split].
  - unfold InpaintingModal.snapshot. rewrite Hbw. reflexivity.
  - intros Hshort. unfold ImageEditor.finalResult. cbv zeta. rewrite Hne.
    destruct Hshort as [Hlen|Hdec].
    + apply Z.ltb_ge in Hlen. rewrite Hlen, andb_false_r. reflexivity.
    + destruct (_ && _); [|reflexivity].
      unfold strictComposite, loadImage. rewrite Ho, Hg, Hdec. reflexivity.
  - intros mask Hlen Hd Hid. unfold ImageEditor.finalResult. cbv zeta.
    rewrite Hne. apply Z.ltb_lt in Hlen. rewrite Hlen.
    assert (JS.falsy (toDataURL bwCtx) = false) as ->.
    { destruct (toDataURL bwCtx); [discriminate Hlen|reflexivity]. }
    cbn [negb andb].
    destruct (white_mask_opaque mask (canvas bwCtx) W H Hid Hw Hh RW RH Hpix)
      as [Rm Um].
    destruct (strictComposite_under_opaque_mask originalImage generatedResponse
                (toDataURL bwCtx) orig gen mask Hscale Ho Hg Hd Ro Rg Rm Hbo Um Ug)
      as (ctx & Hs & Hpng & Hid').
    exists ctx. rewrite Hs. cbn [bind ret]. repeat split; try assumption; apply Hid'.
Qed.

Lemma editor_result_is_candidate_witness :
  exists bwCtx ctx,
    InpaintingModal.snapshot (B := Samples.readback) 64%float 64%float
      (Reference.url "PHOTO")
      (Some (Reference.solid 64 64 (mkPixel 255 0 0 128)))
      = Ok (Reference.url "PHOTO", toDataURL (B := Samples.readback) bwCtx) /\
    decode (Browser := Samples.readback) (toDataURL (B := Samples.readback) bwCtx)
      = Some (Reference.solid 64 64 white) /\
    ImageEditor.finalResult (B := Samples.readback)
      (Reference.url "PHOTO") (Some (Reference.url "BLUE"))
      (toDataURL (B := Samples.readback) bwCtx)
      = Ok (Some (toDataURL (B := Samples.readback) ctx)) /\
    pixelIdentical (canvas ctx)
      (stretched (B := Samples.readback)
         (Reference.solid 1 1 Reference.bluePixel) 300 200).
Proof.
  destruct (bwCanvas_pixels (B := Samples.readback) 64%float 64%float
              (Reference.solid 64 64 (mkPixel 255 0 0 128)) 64 64
              readback_blend eq_refl ltac:(lia) eq_refl ltac:(lia) eq_refl
              ltac:(cbn; lia) ltac:(cbn; lia))
    as (bw & Hbw & Bw & Bh & Bpix).
  destruct (editor_result_is_candidate (B := Samples.readback) 64%float 64%float
              (Reference.url "PHOTO") (Reference.solid 64 64 (mkPixel 255 0 0 128))
              64 64 (Reference.url "PHOTO") (Reference.url "BLUE")
              (Reference.solid 300 200 Reference.greyPixel)
              (Reference.solid 1 1 Reference.bluePixel)
              readback_scaling readback_blend eq_refl ltac:(lia) eq_refl ltac:(lia)
              eq_refl ltac:(cbn; lia) ltac:(cbn; lia) eq_refl
              (raster_solid 300 200 _ ltac:(lia) ltac:(lia)) eq_refl eq_refl eq_refl
              (raster_solid 1 1 _ ltac:(lia) ltac:(lia))
              (fun x y _ => eq_refl))
    as (bwCtx & Hbw' & Hsnap & _ & Hlong).
  rewrite Hbw in Hbw'. injection Hbw' as <-.
  assert (U : toDataURL (B := Samples.readback) bw =
              "data:image/png;base64," ++ Samples.maskPayload).
  { unfold toDataURL. rewrite hasBitmap_backed; [reflexivity| | |];
      rewrite ?Bw, ?Bh; (lia || reflexivity). }
  assert (D : decode (Browser := Samples.readback)
                (toDataURL (B := Samples.readback) bw)
              = Some (Reference.solid 64 64 white)).
  { rewrite U. vm_compute. reflexivity. }
  destruct (Hlong (Reference.solid 64 64 white)) as (ctx & Hres & _ & Hid).
  - rewrite U. vm_compute. reflexivity.
  - exact D.
  - split; [now rewrite Bw|]. split; [now rewrite Bh|].
    intros x y Hin. rewrite Bw, Bh in Hin. now rewrite (Bpix x y Hin).
  - exists bw, ctx. repeat split; try assumption; apply Hid.
Defined.
